(** * Panorama hotspot pipeline: a shallow embedding of [detect.py] and
    of the hotspot store of [app.py], with the properties of the design
    document proved against it.

    Conventions.
    - Python [int] is [Z]; [//] and [%] with a positive divisor are
      [Z.div] and [Z.modulo] (both floor).
    - Python [float] is IEEE binary64, modelled exactly by [spec_float]
      with precision 53 and maximal exponent 1024; [float(s)] and
      [round(x, n)] are the correctly rounded conversions.
    - Python [str] is [string], and [list ascii] where it is scanned;
      characters are code points below 256, on which [\d] is [0-9] and
      [\s] is the twelve blanks of [is_space].
    - A statement that can raise returns [result]; the exceptions that
      matter are listed in [exn].  [print] is left out.
    - [list.sort] is the stable sort that compares keys with [<].
    - The imaging library, the model client and the JSON library are
      reached through a record of functions, [env].
    - The disk is a finite map from paths to file contents; the model
      requests of a run are logged next to it.  Opening a file for
      writing can be refused by the file system (a name that is too
      long, a folder that is missing); [open] then raises [OSError]
      and the disk stays as it was. *)

From Stdlib Require Import ZArith List String Ascii Bool Lia.
From Stdlib Require Import Sorted Permutation DecimalString.
From Stdlib Require Import SpecFloat QArith Qpower Qabs Qfield Lqa.
From Stdlib Require DecimalZ DecimalPos.
From stdpp Require Import gmap strings.
Import ListNotations.

Local Open Scope string_scope.
Local Open Scope list_scope.
Local Open Scope Z_scope.

(** ** Exceptions and results *)

Inductive exn : Type :=
| IndexError
| ValueError
| AttributeError
| JSONDecodeError
| OSError
| FileNotFoundError.

Inductive result (A : Type) : Type :=
| Ok (a : A)
| Raise (e : exn).

Arguments Ok {A} a.
Arguments Raise {A} e.

Definition bind {A B : Type} (r : result A) (k : A -> result B) : result B :=
  match r with
  | Ok a => k a
  | Raise e => Raise e
  end.

Notation "'let*' x ':=' r 'in' k" := (bind r (fun x => k))
  (at level 10, x name, r at level 100, k at level 200).

(** ** Labels (detect.py, lines 92-98) *)

Module Label.

Definition alphabet : string := "ABCDEFGHIJKLMNOPQRSTUVWXYZ".

(** [s[i]] on a Python string: a negative index counts from the end, an
    index outside [-len, len) raises [IndexError]. *)
Definition str_index (s : string) (i : Z) : result string :=
  let n := Z.of_nat (String.length s) in
  let j := if i <? 0 then i + n else i in
  if (0 <=? j) && (j <? n) then
    match String.get (Z.to_nat j) s with
    | Some c => Ok (String c EmptyString)
    | None => Raise IndexError
    end
  else Raise IndexError.

(** The body of the [if i < 26 ... else ...] statement. *)
Definition label_text (i : Z) : result string :=
  if i <? 26 then str_index alphabet i
  else
    let* hi := str_index alphabet (i / 26 - 1) in
    let* lo := str_index alphabet (i mod 26) in
    Ok (hi ++ lo)%string.

(** [str(i)] for a Python integer. *)
Definition str (i : Z) : string := NilZero.string_of_int (Z.to_int i).

End Label.

(** ** Floating point (the Python runtime's [float]) *)

Module Float.

Definition float : Type := spec_float.

Definition prec : Z := 53.
Definition emax : Z := 1024.

Definition fmul : float -> float -> float := SFmul prec emax.
Definition fdiv : float -> float -> float := SFdiv prec emax.
Definition fsub : float -> float -> float := SFsub prec emax.
Definition flt : float -> float -> bool := SFltb.
Definition fle : float -> float -> bool := SFleb.
Definition feq : float -> float -> bool := SFeqb.

Definition is_nan (x : float) : bool :=
  match x with
  | S754_nan => true
  | _ => false
  end.

(** An integer literal written as a float, [1000.0] for [of_Z 1000]. *)
Definition of_Z (n : Z) : float := binary_normalize prec emax n 0 false.

(** The binary64 nearest to [num / den] (ties to even), with sign [s]:
    the division core of the IEEE model applied to the two integers. *)
Definition of_ratio (s : bool) (num den : positive) : float :=
  let '(mz, ez, lz) := SFdiv_core_binary prec emax (Zpos num) 0 (Zpos den) 0 in
  binary_round_aux prec emax s mz ez lz.

(** The nearest integer to [a / b] for [b > 0], ties to even. *)
Definition round_half_even (a b : Z) : Z :=
  let q := a / b in
  match 2 * (a mod b) ?= b with
  | Lt => q
  | Gt => q + 1
  | Eq => if Z.even q then q else q + 1
  end.

(** [round(x, ndigits)] for [ndigits >= 0]: the exact binary value is
    rounded to [ndigits] decimal places (ties to even) and the decimal
    is converted back to the nearest float; zeros, infinities and NaN
    round to themselves and the sign is kept. *)
Definition round (x : float) (ndigits : nat) : float :=
  match x with
  | S754_finite s m e =>
      let scale := 10 ^ Z.of_nat ndigits in
      let n := match e with
               | Zneg p => round_half_even (Zpos m * scale) (2 ^ Zpos p)
               | _ => Zpos m * scale * 2 ^ e
               end in
      match n with
      | Zpos p => of_ratio s p (Z.to_pos scale)
      | _ => S754_zero s
      end
  | _ => x
  end.

Definition is_digit (c : ascii) : bool :=
  let n := N_of_ascii c in (48 <=? n)%N && (n <=? 57)%N.

(** [\s] on code points below 256. *)
Definition is_space (c : ascii) : bool :=
  let n := N_of_ascii c in
  ((9 <=? n)%N && (n <=? 13)%N) || ((28 <=? n)%N && (n <=? 32)%N)
  || (n =? 133)%N || (n =? 160)%N.

Definition digit_value (c : ascii) : Z := Z.of_N (N_of_ascii c) - 48.

Fixpoint digits_value (acc : Z) (ds : list ascii) : Z :=
  match ds with
  | [] => acc
  | d :: ds' => digits_value (10 * acc + digit_value d) ds'
  end.

(** Longest prefix of digits, and what follows it. *)
Fixpoint take_digits (s : list ascii) : list ascii * list ascii :=
  match s with
  | c :: s' =>
      if is_digit c then let (ds, r) := take_digits s' in (c :: ds, r)
      else ([], s)
  | [] => ([], [])
  end.

(** The value [n / 10^k] of a decimal literal with [k] fraction digits. *)
Definition of_decimal (n : Z) (k : nat) : float :=
  match n with
  | Zpos p => of_ratio false p (Z.to_pos (10 ^ Z.of_nat k))
  | _ => S754_zero false
  end.

(** [float(s)] on an unsigned decimal literal [digits] or
    [digits.digits], the strings the point pattern can capture.  Other
    spellings that Python accepts (sign, exponent, padding, [inf],
    [nan], underscores) are not modelled and raise here. *)
Definition float_of_str (s : list ascii) : result float :=
  let (ip, r) := take_digits s in
  match ip, r with
  | [], _ => Raise ValueError
  | _ :: _, [] => Ok (of_decimal (digits_value 0 ip) 0)
  | _ :: _, c :: fp =>
      if Ascii.eqb c "."%char && negb (length fp =? 0)%nat && forallb is_digit fp
      then Ok (of_decimal (digits_value 0 (ip ++ fp)) (length fp))
      else Raise ValueError
  end.

End Float.

(** ** JSON values, as [json.dump] takes them and [json.load] returns them *)

Local Unset Elimination Schemes.

Inductive json : Type :=
| JNull
| JBool (b : bool)
| JInt (n : Z)
| JFloat (x : Float.float)
| JStr (s : string)
| JList (l : list json)
| JDict (kv : list (string * json)).

Local Set Elimination Schemes.

(** ** The detection pipeline (detect.py) *)

Module Detect.
Import Float.

(** One entry of [buildings_data]. *)
Record hotspot : Type := {
  id : string;
  label : string;
  yaw : float;
  pitch : float;
  y_norm : float;
  x_norm : float
}.

Definition hotspot_json (h : hotspot) : json :=
  JDict [("id", JStr (id h)); ("label", JStr (label h));
         ("yaw", JFloat (yaw h)); ("pitch", JFloat (pitch h));
         ("y_norm", JFloat (y_norm h)); ("x_norm", JFloat (x_norm h))].

(** *** The point pattern
    [\[\s*(\d+(?:\.\d+)?)\s*,\s*(\d+(?:\.\d+)?)\s*\]] *)

Fixpoint skip_spaces (s : list ascii) : list ascii :=
  match s with
  | c :: s' => if is_space c then skip_spaces s' else s
  | [] => []
  end.

(** [\d+(?:\.\d+)?] at the head of [s]: the captured text and the rest. *)
Definition match_number (s : list ascii) : option (list ascii * list ascii) :=
  let (ip, r) := take_digits s in
  match ip with
  | [] => None
  | _ :: _ =>
      match r with
      | c :: r' =>
          if Ascii.eqb c "."%char then
            let (fp, r'') := take_digits r' in
            match fp with
            | [] => Some (ip, r)
            | _ :: _ => Some (ip ++ c :: fp, r'')
            end
          else Some (ip, r)
      | [] => Some (ip, r)
      end
  end.

(** The whole pattern at the head of [s]: both groups and the rest. *)
Definition match_point (s : list ascii)
  : option (list ascii * list ascii * list ascii) :=
  match s with
  | c0 :: s1 =>
      if Ascii.eqb c0 "["%char then
        match match_number (skip_spaces s1) with
        | Some (y_str, s2) =>
            match skip_spaces s2 with
            | c1 :: s3 =>
                if Ascii.eqb c1 ","%char then
                  match match_number (skip_spaces s3) with
                  | Some (x_str, s4) =>
                      match skip_spaces s4 with
                      | c2 :: s5 =>
                          if Ascii.eqb c2 "]"%char
                          then Some (y_str, x_str, s5) else None
                      | [] => None
                      end
                  | None => None
                  end
                else None
            | [] => None
            end
        | None => None
        end
      else None
  | [] => None
  end.

(** [re.findall]: matches are tried at each position from the left and
    the scan resumes where a match ended; [skip] counts the characters
    of the last match that are still to pass. *)
Fixpoint findall_from (skip : nat) (s : list ascii)
  : list (list ascii * list ascii) :=
  match s with
  | [] => []
  | _ :: t =>
      match skip with
      | S k => findall_from k t
      | O =>
          match match_point s with
          | Some (y_str, x_str, rest) =>
              (y_str, x_str) :: findall_from (length t - length rest) t
          | None => findall_from 0 t
          end
      end
  end.

Definition findall (text_response : string) : list (list ascii * list ascii) :=
  findall_from 0 (list_ascii_of_string text_response).

(** *** Parsing, ordering, labelling and mapping *)

(** The loop over [matches]; a [ValueError] skips the match. *)
Fixpoint parse_points (matches : list (list ascii * list ascii))
  : result (list (float * float)) :=
  match matches with
  | [] => Ok []
  | (y_str, x_str) :: rest =>
      match (let* y := float_of_str y_str in
             let* x := float_of_str x_str in Ok (y, x)) with
      | Ok p => let* points := parse_points rest in Ok (p :: points)
      | Raise ValueError => parse_points rest
      | Raise e => Raise e
      end
  end.

(** [list.sort(key=...)]: the stable sort that compares keys with [<]
    only.  On keys without NaN every stable sort returns this list. *)
Fixpoint insert_by {A : Type} (key : A -> float) (a : A) (l : list A) : list A :=
  match l with
  | [] => [a]
  | b :: l' => if flt (key b) (key a) then b :: insert_by key a l' else a :: l
  end.

Fixpoint sort_by {A : Type} (key : A -> float) (l : list A) : list A :=
  match l with
  | [] => []
  | a :: l' => insert_by key a (sort_by key l')
  end.

Definition to_yaw (norm_x : float) : float :=
  fsub (fmul (fdiv norm_x (of_Z 1000)) (of_Z 360)) (of_Z 180).

Definition to_pitch (norm_y : float) : float :=
  fsub (of_Z 90) (fmul (fdiv norm_y (of_Z 1000)) (of_Z 180)).

(** The [for i, (norm_y, norm_x) in enumerate(points)] loop, from index
    [i] on, appending to [buildings_data]. *)
Fixpoint label_points (i : Z) (points : list (float * float))
    (buildings_data : list hotspot) : result (list hotspot) :=
  match points with
  | [] => Ok buildings_data
  | (norm_y, norm_x) :: rest =>
      let* label_text := Label.label_text i in
      label_points (i + 1) rest
        (buildings_data ++
           [{| id := Label.str i;
               label := label_text;
               yaw := round (to_yaw norm_x) 2;
               pitch := round (to_pitch norm_y) 2;
               y_norm := norm_y;
               x_norm := norm_x |}])
  end.

(** The body of [if matches:] up to the end of the loop. *)
Definition buildings_of_matches (matches : list (list ascii * list ascii))
  : result (list hotspot) :=
  let* points := parse_points matches in
  label_points 0 (sort_by snd points) [].

(** From the response text to the returned list: the pipeline after the
    model call, without the file write. *)
Definition hotspots_of_text (text_response : string) : result (list hotspot) :=
  match findall text_response with
  | [] => Ok []
  | (_ :: _) as matches => buildings_of_matches matches
  end.

End Detect.

(** ** The outside world

    The imaging library, the model client and the JSON library are not
    part of the repository; the pipeline reaches them through [env].  A
    call that raises returns [None].  [writable path] tells whether the
    file system lets [open(path, "w")] create or truncate the file; when
    it does not, [open] raises [OSError]. *)

(** The response object of the model client, as far as the code reads it. *)
Record Part : Type := { text : option string }.
Record Content : Type := { parts : option (list Part) }.
Record Candidate : Type := { content : option Content }.
Record Response : Type := { candidates : option (list Candidate) }.

Record env (image : Type) : Type := {
  Image_open : string -> option image;
  copy : image -> option image;
  thumbnail : image -> Z * Z -> option image;
  generate_content : string -> string -> image -> option Response;
  json_dump : json -> string;
  json_load : string -> result json;
  writable : string -> bool
}.

Arguments Image_open {image}.
Arguments copy {image}.
Arguments thumbnail {image}.
Arguments generate_content {image}.
Arguments json_dump {image}.
Arguments json_load {image}.
Arguments writable {image}.

(** What a run can change: the files on disk, and the requests sent to
    the model (model name, prompt, image), oldest first. *)
Record world (image : Type) : Type := {
  files : gmap string string;
  calls : list (string * string * image)
}.

Arguments files {image}.
Arguments calls {image}.

Definition write_file {image : Type} (path data : string) (w : world image)
  : world image :=
  {| files := <[path := data]> (files w); calls := calls w |}.

Definition log_call {image : Type} (model prompt : string) (img : image)
    (w : world image) : world image :=
  {| files := files w; calls := calls w ++ [(model, prompt, img)] |}.

Module Pipeline.
Import Float Detect.

Section WithEnv.

Context {image : Type} (E : env image).

(** The first [try] block: open, copy, shrink. *)
Definition prepare_image (image_path : string) : option image :=
  match Image_open E image_path with
  | Some img =>
      match copy E img with
      | Some ai_img => thumbnail E ai_img (2048, 2048)
      | None => None
      end
  | None => None
  end.

Definition primary_model : string := "gemini-3-pro-image-preview".
Definition backup_model : string := "gemini-3-pro-preview".

(** The loop that concatenates the text parts of the first candidate. *)
Fixpoint concat_parts (ps : list Part) (text_response : string) : string :=
  match ps with
  | [] => text_response
  | p :: ps' =>
      match text p with
      | Some (String _ _ as t) => concat_parts ps' (text_response ++ t)%string
      | _ => concat_parts ps' text_response
      end
  end.

Definition response_text (response : Response) : result string :=
  match candidates response with
  | Some (c :: _) =>
      match content c with
      | Some ct =>
          match parts ct with
          | Some ps => Ok (concat_parts ps EmptyString)
          | None => Ok EmptyString
          end
      | None => Raise AttributeError
      end
  | _ => Ok EmptyString
  end.

(** Everything after a model call has returned [response]. *)
Definition after_response (response : Response)
    (output_json_path : option string) (w : world image)
  : result (list hotspot) * world image :=
  match response_text response with
  | Raise e => (Raise e, w)
  | Ok EmptyString => (Ok [], w)
  | Ok text_response =>
      match findall text_response with
      | [] => (Ok [], w)
      | (_ :: _) as matches =>
          match buildings_of_matches matches with
          | Raise e => (Raise e, w)
          | Ok buildings_data =>
              match output_json_path with
              | Some (String _ _ as path) =>
                  if writable E path then
                    (Ok buildings_data,
                     write_file path
                       (json_dump E (JList (map hotspot_json buildings_data))) w)
                  else (Raise OSError, w)
              | _ => (Ok buildings_data, w)
              end
          end
      end
  end.

Definition analyze_panorama (image_path prompt_text : string)
    (output_json_path : option string) (w : world image)
  : result (list hotspot) * world image :=
  match prepare_image image_path with
  | None => (Ok [], w)
  | Some ai_img =>
      let w1 := log_call primary_model prompt_text ai_img w in
      match generate_content E primary_model prompt_text ai_img with
      | Some response => after_response response output_json_path w1
      | None =>
          let w2 := log_call backup_model prompt_text ai_img w1 in
          match generate_content E backup_model prompt_text ai_img with
          | Some response => after_response response output_json_path w2
          | None => (Ok [], w2)
          end
      end
  end.

End WithEnv.

End Pipeline.

(** ** The hotspot store (app.py, [get_data] and [save_data]) *)

Module App.

Definition PROCESSED_FOLDER : string := "static/processed".

Definition starts_with_sep (b : string) : bool :=
  match b with
  | String c _ => Ascii.eqb c "/"%char
  | EmptyString => false
  end.

Fixpoint ends_with_sep (a : string) : bool :=
  match a with
  | EmptyString => false
  | String c EmptyString => Ascii.eqb c "/"%char
  | String _ a' => ends_with_sep a'
  end.

(** [os.path.join(a, b)] with the POSIX separator. *)
Definition path_join (a b : string) : string :=
  if starts_with_sep b then b
  else if (String.length a =? 0)%nat || ends_with_sep a then (a ++ b)%string
  else (a ++ "/" ++ b)%string.

Definition json_path (id : string) : string :=
  path_join PROCESSED_FOLDER (id ++ ".json")%string.

Section WithEnv.

Context {image : Type} (E : env image).

(** [GET /api/data/<id>]: the decoded record, or the empty list when
    the file does not exist. *)
Definition get_data (id : string) (w : world image) : result json :=
  match files w !! json_path id with
  | Some txt => json_load E txt
  | None => Ok (JList [])
  end.

(** [POST /api/save/<id>] with body [data]; when the record file cannot
    be opened the handler raises and nothing is written. *)
Definition save_data (id : string) (data : json) (w : world image)
  : result json * world image :=
  if writable E (json_path id) then
    (Ok (JDict [("status", JStr "success")]),
     write_file (json_path id) (json_dump E data) w)
  else (Raise OSError, w).

(** Requests that write a record: an edit saved for session [id], and
    the detection run of the [detect] route, which hands
    [analyze_panorama] the record path of its session. *)
Inductive request : Type :=
| SaveReq (id : string) (data : json)
| DetectReq (id : string) (image_path prompt : string).

Definition session (r : request) : string :=
  match r with
  | SaveReq id _ => id
  | DetectReq id _ _ => id
  end.

Definition handle (r : request) (w : world image) : world image :=
  match r with
  | SaveReq id data => snd (save_data id data w)
  | DetectReq id image_path prompt =>
      snd (Pipeline.analyze_panorama E image_path prompt (Some (json_path id)) w)
  end.

Definition serve (reqs : list request) (w : world image) : world image :=
  fold_left (fun w r => handle r w) reqs w.

(** *** One [save_data] and one [get_data] running at the same time

    Each handler advances one statement at a time, for a record file
    that can be opened (it is on disk when the two requests arrive).
    Opening a file for writing creates or truncates it; after
    [json.dump] has returned and before the [with] block is left, the
    disk holds some prefix of the text (what the file object has flushed
    so far). *)

Inductive writer : Type :=
| SaveStart
| SaveOpened
| SaveDumped
| SaveDone.

Inductive reader : Type :=
| GetStart
| GetExists
| GetDone (r : result json).

Record config : Type := {
  disk : gmap string string;
  wr : writer;
  rd : reader
}.

Inductive step (id : string) (data : json) : config -> config -> Prop :=
| step_open d r :
    step id data {| disk := d; wr := SaveStart; rd := r |}
      {| disk := <[json_path id := EmptyString]> d; wr := SaveOpened; rd := r |}
| step_dump d r n :
    step id data {| disk := d; wr := SaveOpened; rd := r |}
      {| disk := <[json_path id := substring 0 n (json_dump E data)]> d;
         wr := SaveDumped; rd := r |}
| step_close d r :
    step id data {| disk := d; wr := SaveDumped; rd := r |}
      {| disk := <[json_path id := json_dump E data]> d;
         wr := SaveDone; rd := r |}
| step_exists d w txt :
    d !! json_path id = Some txt ->
    step id data {| disk := d; wr := w; rd := GetStart |}
      {| disk := d; wr := w; rd := GetExists |}
| step_absent d w :
    d !! json_path id = None ->
    step id data {| disk := d; wr := w; rd := GetStart |}
      {| disk := d; wr := w; rd := GetDone (Ok (JList [])) |}
| step_load d w txt :
    d !! json_path id = Some txt ->
    step id data {| disk := d; wr := w; rd := GetExists |}
      {| disk := d; wr := w; rd := GetDone (json_load E txt) |}.

(** Both requests pending, the record of [old] on disk. *)
Definition initial (id : string) (old : json) (d : gmap string string) : config :=
  {| disk := <[json_path id := json_dump E old]> d;
     wr := SaveStart; rd := GetStart |}.

End WithEnv.

End App.

(** ** The upload route (app.py, [detect]) *)

Module Route.
Import App.

Definition UPLOAD_FOLDER : string := "static/uploads".

(** [s.rfind(c)]: the index of the last [c], or -1. *)
Fixpoint rfind_from (c : ascii) (s : string) (i last : Z) : Z :=
  match s with
  | EmptyString => last
  | String a s' => rfind_from c s' (i + 1) (if Ascii.eqb a c then i else last)
  end.

Definition rfind (s : string) (c : ascii) : Z := rfind_from c s 0 (-1).

(** [p[i:j]] for [0 <= i]. *)
Definition slice (p : string) (i j : Z) : string :=
  substring (Z.to_nat i) (Z.to_nat (j - i)) p.

(** The loop of [splitext] that skips leading dots: does [s] hold a
    character other than the dot? *)
Fixpoint has_name (s : string) : bool :=
  match s with
  | EmptyString => false
  | String a s' => if Ascii.eqb a "."%char then has_name s' else true
  end.

(** [os.path.splitext(p)] with the POSIX separator. *)
Definition splitext (p : string) : string * string :=
  let sepIndex := rfind p "/"%char in
  let dotIndex := rfind p "."%char in
  if (sepIndex <? dotIndex) && has_name (slice p (sepIndex + 1) dotIndex)
  then (slice p 0 dotIndex, slice p dotIndex (Z.of_nat (String.length p)))
  else (p, EmptyString).

(** The part named [image] of the posted form. *)
Record upload : Type := {
  filename : string;
  body : string
}.


Section WithEnv.

Context {image : Type} (E : env image).

(** [secure_filename] of the web framework and the hard-coded prompt. *)
Context (secure_filename : string -> string) (prompt : string).



(** Where the upload is stored: [UPLOAD_FOLDER/<file_id><ext>]. *)
Definition saved_path (file : upload) (file_id : string) : string :=
  let ext := snd (splitext (secure_filename (filename file))) in
  let saved_filename := (file_id ++ ext)%string in
  path_join UPLOAD_FOLDER saved_filename.



End WithEnv.

End Route.

(** ** A test double for the outside world

    One image file exists, the primary model is down, the backup model
    answers with two points, and the JSON codec knows two documents:
    the empty list, and the list that holds one empty list (printed
    with [indent=2]). *)

Module Fake.

Definition answer : Response :=
  {| candidates := Some
       [{| content := Some
             {| parts := Some
                  [{| text := Some "Found: [{point: [250, 750.5]}, " |};
                   {| text := None |};
                   {| text := Some "{point: [ 100.25 , 500 ]}]" |}] |} |}] |}.

Definition nested_text : string :=
  String "[" (String "010" (String " " (String " " (String "[" (String "]"
    (String "010" (String "]" EmptyString))))))).

Definition fake_env : env nat := {|
  Image_open := fun path => if (path =? "pano.jpg")%string then Some 1%nat else None;
  copy := fun img => Some img;
  thumbnail := fun img _ => Some img;
  generate_content := fun model _ _ =>
    if (model =? Pipeline.backup_model)%string then Some answer else None;
  json_dump := fun d =>
    match d with
    | JList [] => "[]"
    | JList [JList []] => nested_text
    | _ => "..."
    end;
  json_load := fun s =>
    if (s =? "[]")%string then Ok (JList [])
    else if (s =? nested_text)%string then Ok (JList [JList []])
    else Raise JSONDecodeError;
  writable := fun _ => true
|}.

Definition empty_world : world nat := {| files := ∅; calls := [] |}.

(** A second double: the backup model answers with 703 points. *)
Definition crowded_text : string := String.concat " " (repeat "[1,2]" 703).

Definition crowded : Response :=
  {| candidates := Some
       [{| content := Some {| parts := Some [{| text := Some crowded_text |}] |} |}] |}.

Definition crowded_env : env nat := {|
  Image_open := Image_open fake_env;
  copy := copy fake_env;
  thumbnail := thumbnail fake_env;
  generate_content := fun model _ _ =>
    if (model =? Pipeline.backup_model)%string then Some crowded else None;
  json_dump := json_dump fake_env;
  json_load := json_load fake_env;
  writable := writable fake_env
|}.

End Fake.

(** ** A test double for the upload route

    The stored upload opens, the primary model answers at once, and the
    JSON codec knows the empty list and the record of that answer. *)

Module FakeRoute.

Definition detected : json :=
  JList (map Detect.hotspot_json
           [{| Detect.id := "0"; Detect.label := "A";
               Detect.yaw := Float.of_Z 0;
               Detect.pitch := Float.of_decimal 7195 2;
               Detect.y_norm := Float.of_decimal 10025 2;
               Detect.x_norm := Float.of_Z 500 |};
            {| Detect.id := "1"; Detect.label := "B";
               Detect.yaw := Float.of_decimal 9018 2;
               Detect.pitch := Float.of_Z 45;
               Detect.y_norm := Float.of_Z 250;
               Detect.x_norm := Float.of_decimal 7505 1 |}]).

Definition route_env : env nat := {|
  Image_open := fun path =>
    if (path =? "static/uploads/u1.jpg")%string then Some 1%nat else None;
  copy := fun img => Some img;
  thumbnail := fun img _ => Some img;
  generate_content := fun model _ _ =>
    if (model =? Pipeline.primary_model)%string then Some Fake.answer else None;
  json_dump := fun d => match d with JList [] => "[]" | _ => "[...]" end;
  json_load := fun s =>
    if (s =? "[]")%string then Ok (JList [])
    else if (s =? "[...]")%string then Ok detected
    else Raise JSONDecodeError;
  writable := fun _ => true
|}.

Definition pano : Route.upload :=
  {| Route.filename := "pano.jpg"; Route.body := "JFIF" |}.

(** A model that answers with points already in ascending [x], two of
    them with the same [x]. *)
Definition tidy : Response :=
  {| candidates := Some
       [{| content := Some {| parts := Some
             [{| text := Some "[10, 100] [20, 200.5] [30, 200.5]" |}] |} |}] |}.

Definition tidy_env : env nat := {|
  Image_open := fun _ => Some 1%nat;
  copy := fun img => Some img;
  thumbnail := fun img _ => Some img;
  generate_content := fun _ _ _ => Some tidy;
  json_dump := json_dump route_env;
  json_load := json_load route_env;
  writable := writable route_env
|}.






End FakeRoute.

(** ** Reference definitions, written from the design document *)

Module Spec.

(** The letter at position [k] of [A..Z]. *)
Definition letter (k : Z) : string :=
  String (ascii_of_N (65 + Z.to_N k)) EmptyString.

(** The label rule of the Point Orderer and Labeler. *)
Definition label_of (i : Z) : string :=
  if i <? 26 then letter i
  else (letter (i / 26 - 1) ++ letter (i mod 26))%string.

(** The string form of a position: its decimal digits, the most
    significant first, without leading zeros. *)
Definition digit_char (d : Z) : ascii := ascii_of_N (48 + Z.to_N d).

Fixpoint decimal_from (fuel : nat) (n : Z) (tail : string) : string :=
  let tail' := String (digit_char (n mod 10)) tail in
  match fuel with
  | O => tail'
  | S fuel' => if n <? 10 then tail' else decimal_from fuel' (n / 10) tail'
  end.

Definition decimal (n : Z) : string := decimal_from (Z.to_nat n) n EmptyString.

(** The hotspot the pipeline stores for the point [p] at position [i]. *)
Definition hotspot_at (i : Z) (p : Float.float * Float.float) : Detect.hotspot :=
  {| Detect.id := Label.str i;
     Detect.label := label_of i;
     Detect.yaw := Float.round (Detect.to_yaw (snd p)) 2;
     Detect.pitch := Float.round (Detect.to_pitch (fst p)) 2;
     Detect.y_norm := fst p;
     Detect.x_norm := snd p |}.

Fixpoint hotspots_from (i : Z) (points : list (Float.float * Float.float))
  : list Detect.hotspot :=
  match points with
  | [] => []
  | p :: rest => hotspot_at i p :: hotspots_from (i + 1) rest
  end.

(** The texts the Response Parser looks for: [number] is an unsigned
    decimal literal, [point_shape m y x] says that [m] is a bracketed
    pair of numbers [y] and [x] with optional blanks around them. *)
Definition digits (s : list ascii) : Prop :=
  s <> [] /\ Forall (fun c => Float.is_digit c = true) s.

Definition spaces (s : list ascii) : Prop :=
  Forall (fun c => Float.is_space c = true) s.

Inductive number : list ascii -> Prop :=
| number_int ds : digits ds -> number ds
| number_dec ip fp : digits ip -> digits fp -> number (ip ++ "."%char :: fp).

Inductive point_shape : list ascii -> list ascii -> list ascii -> Prop :=
| point_shape_intro w1 y w2 w3 x w4 :
    spaces w1 -> number y -> spaces w2 ->
    spaces w3 -> number x -> spaces w4 ->
    point_shape
      ("["%char :: w1 ++ y ++ w2 ++ ","%char :: w3 ++ x ++ w4 ++ ["]"%char])
      y x.

(** The characters a pair-shaped substring has after its bracket. *)
Definition body_char (c : ascii) : bool :=
  Float.is_space c || Float.is_digit c || Ascii.eqb c "."
  || Ascii.eqb c "," || Ascii.eqb c "]".

(** [r] is empty or its first character fails [P]. *)
Definition head_not (P : ascii -> bool) (r : list ascii) : Prop :=
  match r with
  | [] => True
  | c :: _ => P c = false
  end.

(** A pair-shaped substring starts at position [i] of [text]. *)
Definition occurs_at (text : list ascii) (i : nat) (y x : list ascii) : Prop :=
  exists m post, skipn i text = m ++ post /\ point_shape m y x.


(** Trying the pattern at every position in turn. *)
Fixpoint scan_from (i : nat) (s : list ascii)
  : list (nat * (list ascii * list ascii)) :=
  match s with
  | [] => []
  | _ :: t =>
      match Detect.match_point s with
      | Some (y, x, _) => (i, (y, x)) :: scan_from (S i) t
      | None => scan_from (S i) t
      end
  end.

(** The model answered this run with [response]: the image could be
    prepared and either the primary model returned [response], or it
    raised and the backup model returned [response]. *)
Definition answered {image : Type} (E : env image)
    (image_path prompt_text : string) (response : Response) : Prop :=
  exists ai_img,
    Pipeline.prepare_image E image_path = Some ai_img /\
    (generate_content E Pipeline.primary_model prompt_text ai_img = Some response \/
     (generate_content E Pipeline.primary_model prompt_text ai_img = None /\
      generate_content E Pipeline.backup_model prompt_text ai_img = Some response)).

(** The normalized coordinates kept in a hotspot. *)
Definition coords (h : Detect.hotspot) : Float.float * Float.float :=
  (Detect.y_norm h, Detect.x_norm h).

(** The atomic replacement the design document asks of the store: a
    reader that runs while [new] is being saved over [old] for the same
    session gets the complete old set or the complete new set. *)
Definition atomic_replace {image : Type} (E : env image) (id : string)
    (old new : json) : Prop :=
  forall (d : gmap string string) (c : App.config) (r : result json),
    rtc (App.step E id new) (App.initial E id old d) c ->
    App.rd c = App.GetDone r ->
    r = Ok old \/ r = Ok new.

(** The range rule of the design document: a coordinate above 1000 is
    passed on as an angle outside the range, a yaw above 180 or a pitch
    below -90. *)
Definition out_of_range_kept : Prop :=
  forall (text_response : string) (hs : list Detect.hotspot) (h : Detect.hotspot),
    Detect.hotspots_of_text text_response = Ok hs -> In h hs ->
    (Float.flt (Float.of_Z 1000) (Detect.x_norm h) = true ->
     Float.flt (Float.of_Z 180) (Detect.yaw h) = true) /\
    (Float.flt (Float.of_Z 1000) (Detect.y_norm h) = true ->
     Float.flt (Detect.pitch h) (SFopp (Float.of_Z 90)) = true).


(** What the record file holds at each point of the writer. *)
Definition on_disk {image : Type} (E : env image) (old new : json)
    (w : App.writer) (txt : string) : Prop :=
  match w with
  | App.SaveStart => txt = json_dump E old
  | App.SaveOpened => txt = EmptyString
  | App.SaveDumped => exists n, txt = substring 0 n (json_dump E new)
  | App.SaveDone => txt = json_dump E new
  end.

(** Non-decreasing order of two elements under a float key. *)
Definition key_le {A : Type} (key : A -> Float.float) (a b : A) : Prop :=
  Float.fle (key a) (key b) = true.

End Spec.

(** ** Reference definitions for the further properties *)

Module More.

(** Zero, a positive finite number or plus infinity. *)
Definition nonneg (x : Float.float) : bool :=
  match x with
  | S754_zero false | S754_finite false _ _ | S754_infinity false => true
  | _ => false
  end.

(** The non-empty texts of a list of parts, in order. *)
Fixpoint part_texts (ps : list Part) : list string :=
  match ps with
  | [] => []
  | p :: ps' =>
      match text p with
      | Some (String _ _ as t) => t :: part_texts ps'
      | _ => part_texts ps'
      end
  end.

(** Strings joined without a separator. *)
Definition join (l : list string) : string :=
  fold_right String.append EmptyString l.

(** The float nearest to [k / 100]. *)
Definition hundredths (k : Z) : Float.float :=
  match k with
  | Z0 => S754_zero false
  | Zpos p => Float.of_ratio false p 100
  | Zneg p => Float.of_ratio true p 100
  end.

(** The same float, field by field. *)
Definition same_float (a b : Float.float) : bool :=
  match a, b with
  | S754_zero s, S754_zero t => Bool.eqb s t
  | S754_infinity s, S754_infinity t => Bool.eqb s t
  | S754_nan, S754_nan => true
  | S754_finite s m e, S754_finite t n g =>
      Bool.eqb s t && Pos.eqb m n && Z.eqb e g
  | _, _ => false
  end.

End More.

(** ** The rounding of the IEEE model in closed form *)

Module Rounding.
Import Float.

(** The quotient of [A] by [B] with its round and sticky bits. *)
Definition locate (A B : Z) : shr_record :=
  {| shr_m := A / B;
     shr_r := B <=? 2 * (A mod B);
     shr_s := negb ((A mod B =? 0) || (2 * (A mod B) =? B)) |}.

(** The last steps of the rounding: a mantissa that reached [2^53] is
    halved, a zero mantissa gives a zero and an exponent above the
    largest one gives an infinity. *)
Definition finish (s : bool) (m1 e1 : Z) : float :=
  let n2 := Z.max 0 (fexp prec emax (Zdigits2 m1 + e1) - e1) in
  match m1 / 2 ^ n2 with
  | Z0 => S754_zero s
  | Zpos m =>
      if e1 + n2 <=? emax - prec then S754_finite s m (e1 + n2)
      else S754_infinity s
  | Zneg _ => S754_nan
  end.

(** The number [x] seen from the exponent [e'] at which it is rounded:
    [x = X * 2^e'], the mantissa [m1] is an integer nearest to [X],
    the even one of two, and [X] lies between the integer [m0], which
    has the size of a mantissa, and [m0 + 1]. *)
Definition framed (x : Q) (m1 e' : Z) : Prop :=
  exists (X : Q) (m0 : Z),
    (x == X * 2 ^ e')%Q /\ -1074 <= e' /\
    0 <= m0 < 2 ^ 53 /\ (-1074 < e' -> 2 ^ 52 <= m0) /\
    m0 <= m1 <= m0 + 1 /\
    (inject_Z m0 <= X < inject_Z m0 + 1)%Q /\
    (forall j : Z, (Qabs (X - inject_Z m1) <= Qabs (X - inject_Z j))%Q) /\
    (forall j : Z, j <> m1 ->
       (Qabs (X - inject_Z j) == Qabs (X - inject_Z m1))%Q -> Z.even m1 = true).

(** What [binary_round_aux] returns for the number [(A / B) * 2^ex]. *)
Definition rounded (s : bool) (A B ex : Z) : float :=
  let n := Z.max 0 (fexp prec emax (Zdigits2 (A / B) + ex) - ex) in
  finish s (round_half_even A (2 ^ n * B)) (ex + n).

End Rounding.

(** ** Floats as numbers

    The rational number a float stands for, rounding to nearest with
    ties to even as IEEE 754 states it, and the number a decimal
    literal spells. *)

Module Real.
Import Float.

(** The number a finite float stands for; zeros stand for 0. *)
Definition value (f : float) : Q :=
  match f with
  | S754_finite s m e => (inject_Z (if s then Zneg m else Zpos m) * 2 ^ e)%Q
  | _ => 0%Q
  end.

(** The finite numbers of the binary64 format, each in its one
    representation: a mantissa below [2^53] and an exponent from -1074
    to 971, the mantissa at least [2^52] unless the exponent is -1074. *)
Definition binary64 (f : float) : Prop :=
  match f with
  | S754_zero _ => True
  | S754_finite _ m e =>
      Zpos m < 2 ^ 53 /\ -1074 <= e <= 971 /\ (2 ^ 52 <= Zpos m \/ e = -1074)
  | _ => False
  end.

(** No number of the format is nearer to [q] than [f]. *)
Definition nearest (q : Q) (f : float) : Prop :=
  binary64 f /\
  forall g : float, binary64 g -> (Qabs (q - value f) <= Qabs (q - value g))%Q.

Definition even_mantissa (f : float) : Prop :=
  match f with
  | S754_finite _ m _ => Z.even (Zpos m) = true
  | _ => True
  end.

(** Half-way between the largest number of the format and [2^1024]. *)
Definition overflow_threshold : Q := inject_Z (2 ^ 1024 - 2 ^ 970).

(** Rounding to nearest, ties to even (IEEE 754): [f] is what the real
    number [q] rounds to.  The sign of a zero result is not fixed here. *)
Definition rounds_to (q : Q) (f : float) : Prop :=
  ((overflow_threshold <= Qabs q)%Q ->
   f = S754_infinity (negb (Qle_bool 0 q))) /\
  ((Qabs q < overflow_threshold)%Q ->
   nearest q f /\
   forall g : float, nearest q g -> ~ (value g == value f)%Q -> even_mantissa f).

(** [N] is the integer nearest to [q], the even one of two. *)
Definition nearest_int (q : Q) (N : Z) : Prop :=
  (Qabs (q - inject_Z N) <= 1 # 2)%Q /\
  ((Qabs (q - inject_Z N) == 1 # 2)%Q -> Z.even N = true).

(** [f] is minus infinity or a number of the format that is at most [c]. *)
Definition at_most (f : float) (c : Q) : Prop :=
  f = S754_infinity true \/ (binary64 f /\ (value f <= c)%Q).

(** [f] is plus infinity or a number of the format that is at least [c]. *)
Definition at_least (f : float) (c : Q) : Prop :=
  f = S754_infinity false \/ (binary64 f /\ (c <= value f)%Q).

(** [binary64] as a test. *)
Definition is_binary64 (f : float) : bool :=
  match f with
  | S754_zero _ => true
  | S754_finite _ m e =>
      (Zpos m <? 2 ^ 53) && (-1074 <=? e) && (e <=? 971)
      && ((2 ^ 52 <=? Zpos m) || (e =? -1074))
  | _ => false
  end.

(** What the parser can return for a coordinate: zero, a positive
    number of the format, or plus infinity. *)
Definition coordinate (f : float) : Prop :=
  More.nonneg f = true /\ (binary64 f \/ f = S754_infinity false).





End Real.

(** * Properties *)

(** ** The model at work *)

Section Examples.
Import Float Detect Pipeline.

(** [float("0.1")] is [0x1.999999999999ap-4]. *)
Example float_of_tenth :
  float_of_str (list_ascii_of_string "0.1")
  = Ok (S754_finite false 7205759403792794 (-56)).
Proof. vm_compute. reflexivity. Qed.

(** [round(2.675, 2)] is [2.67] and [round(0.125, 2)] is [0.12]: the
    binary value decides, and an exact tie goes to the even digit. *)
Example round_examples :
  (let* x := float_of_str (list_ascii_of_string "2.675") in Ok (round x 2))
  = float_of_str (list_ascii_of_string "2.67") /\
  (let* x := float_of_str (list_ascii_of_string "0.125") in Ok (round x 2))
  = float_of_str (list_ascii_of_string "0.12").
Proof. split; vm_compute; reflexivity. Qed.

(** Matches are found inside prose and broken brackets; a number with
    a trailing dot, two dots or a missing bracket is no match. *)
Example findall_example :
  findall "a [1,2] [[3.5 , 4]] [5,6 [7.,8] [9,1.2.3] [ 10.25,11 ]x[12,13"
  = map (fun m => (list_ascii_of_string (fst m), list_ascii_of_string (snd m)))
      [("1", "2"); ("3.5", "4"); ("10.25", "11")].
Proof. vm_compute. reflexivity. Qed.

(** A run against the test double: two requests, two hotspots, ordered
    by [x]. *)
Example fake_run :
  analyze_panorama Fake.fake_env "pano.jpg" "find" None Fake.empty_world
  = (Ok [{| id := "0"; label := "A";
            yaw := of_Z 0;
            pitch := of_decimal 7195 2;
            y_norm := of_decimal 10025 2;
            x_norm := of_Z 500 |};
         {| id := "1"; label := "B";
            yaw := of_decimal 9018 2;
            pitch := of_Z 45;
            y_norm := of_Z 250;
            x_norm := of_decimal 7505 1 |}],
     {| files := ∅;
        calls := [(primary_model, "find", 1%nat); (backup_model, "find", 1%nat)] |}).
Proof. vm_compute. reflexivity. Qed.

End Examples.

(** ** Labels *)

Section LabelFacts.
Import Label Spec.

Lemma str_index_alphabet (k : Z) :
  0 <= k < 26 -> str_index alphabet k = Ok (letter k).
Proof.
  intros Hk.
  rewrite <- (Z2Nat.id k) by lia.
  assert (Hn : (Z.to_nat k < 26)%nat) by lia.
  remember (Z.to_nat k) as n eqn:Heqn. clear Heqn Hk.
  do 26 (destruct n as [|n]; [reflexivity|]).
  lia.
Qed.

Lemma str_index_alphabet_out (k : Z) :
  26 <= k -> str_index alphabet k = Raise IndexError.
Proof.
  intros Hk. unfold str_index.
  change (Z.of_nat (String.length alphabet)) with 26.
  destruct (Z.ltb_spec k 0); [lia|].
  destruct (Z.leb_spec 0 k); [|lia].
  destruct (Z.ltb_spec k 26); [lia|reflexivity].
Qed.

Lemma label_text_in_range (i : Z) :
  0 <= i < 702 -> label_text i = Ok (label_of i).
Proof.
  intros Hi. unfold label_text, label_of.
  destruct (Z.ltb_spec i 26).
  - apply str_index_alphabet. lia.
  - assert (0 <= i / 26 - 1 < 26).
    { assert (26 <= i / 26 * 26 + 25) by (pose proof (Z.mod_pos_bound i 26); pose proof (Z.div_mod i 26); lia).
      assert (i / 26 < 27) by (apply Z.div_lt_upper_bound; lia).
      lia. }
    assert (0 <= i mod 26 < 26) by (apply Z.mod_pos_bound; lia).
    rewrite !str_index_alphabet by assumption. reflexivity.
Qed.

Lemma label_text_out_of_range (i : Z) :
  702 <= i -> label_text i = Raise IndexError.
Proof.
  intros Hi. unfold label_text.
  destruct (Z.ltb_spec i 26); [lia|].
  rewrite str_index_alphabet_out; [reflexivity|].
  assert (27 <= i / 26) by (apply Z.div_le_lower_bound; lia).
  lia.
Qed.

End LabelFacts.

(** ** The labelling loop *)

Section LoopFacts.
Import Float Detect Label Spec.

Lemma label_points_total (points : list (float * float)) :
  forall (i : Z) (acc : list hotspot),
    0 <= i -> i + Z.of_nat (length points) <= 702 ->
    label_points i points acc = Ok (acc ++ hotspots_from i points).
Proof.
  induction points as [|[norm_y norm_x] rest IH]; intros i acc Hi Hlen; simpl.
  - now rewrite app_nil_r.
  - simpl length in Hlen.
    rewrite label_text_in_range by lia. simpl.
    rewrite IH by lia.
    now rewrite <- app_assoc.
Qed.

Lemma label_points_overflow (points : list (float * float)) :
  forall (i : Z) (acc : list hotspot),
    0 <= i <= 702 -> 702 < i + Z.of_nat (length points) ->
    label_points i points acc = Raise IndexError.
Proof.
  induction points as [|[norm_y norm_x] rest IH]; intros i acc Hi Hlen.
  - simpl in Hlen. lia.
  - cbn [label_points]. simpl length in Hlen.
    destruct (Z.eq_dec i 702) as [->|Hne].
    + reflexivity.
    + rewrite label_text_in_range by lia. cbn [bind].
      apply IH; lia.
Qed.

Lemma label_points_inv (points : list (float * float)) (hs : list hotspot) :
  label_points 0 points [] = Ok hs ->
  (length points <= 702)%nat /\ hs = hotspots_from 0 points.
Proof.
  intros H.
  destruct (Z_le_gt_dec (Z.of_nat (length points)) 702) as [Hle|Hgt].
  - rewrite label_points_total in H by lia. simpl in H.
    split; [lia|congruence].
  - rewrite label_points_overflow in H by lia. discriminate.
Qed.

Lemma hotspots_from_nth (points : list (float * float)) :
  forall (i : Z) (k : nat),
    nth_error (hotspots_from i points) k
    = option_map (hotspot_at (i + Z.of_nat k)) (nth_error points k).
Proof.
  induction points as [|p rest IH]; intros i k.
  - now destruct k.
  - destruct k as [|k]; simpl.
    + now rewrite Z.add_0_r.
    + rewrite IH. now replace (i + 1 + Z.of_nat k) with (i + Z.pos (Pos.of_succ_nat k)) by lia.
Qed.

Lemma hotspots_from_length (points : list (float * float)) (i : Z) :
  length (hotspots_from i points) = length points.
Proof.
  revert i. induction points as [|p rest IH]; intros i; simpl; [reflexivity|].
  now rewrite IH.
Qed.

Lemma hotspots_from_points (points : list (float * float)) (i : Z) :
  map (fun h => (y_norm h, x_norm h)) (hotspots_from i points) = points.
Proof.
  revert i. induction points as [|[y x] rest IH]; intros i; simpl; [reflexivity|].
  now rewrite IH.
Qed.

End LoopFacts.

(** ** The order on floats *)

Section FloatOrder.
Import Float.

Ltac cmp_cases :=
  repeat match goal with
  | |- context [Pos.compare_cont Eq ?a ?b] =>
      change (Pos.compare_cont Eq a b) with (Pos.compare a b)
  | H : context [Pos.compare_cont Eq ?a ?b] |- _ =>
      change (Pos.compare_cont Eq a b) with (Pos.compare a b) in H
  | |- context [Z.compare ?a ?b] => destruct (Z.compare_spec a b); subst
  | H : context [Z.compare ?a ?b] |- _ => destruct (Z.compare_spec a b); subst
  | |- context [Pos.compare ?a ?b] => destruct (Pos.compare_spec a b); subst
  | H : context [Pos.compare ?a ?b] |- _ => destruct (Pos.compare_spec a b); subst
  end;
  simpl in *; try reflexivity; try discriminate; try lia.

Ltac by_float_cases :=
  unfold flt, fle, feq, SFltb, SFleb, SFeqb, is_nan;
  intros;
  repeat match goal with
  | x : float |- _ => destruct x as [[]|[]| |[] ? ?]
  end;
  simpl in *; try reflexivity; try discriminate; cmp_cases.

Lemma flt_false_fle (a b : float) :
  is_nan a = false -> is_nan b = false -> flt a b = false -> fle b a = true.
Proof. revert a b. by_float_cases. Qed.

Lemma flt_fle (a b : float) : flt a b = true -> fle a b = true.
Proof. revert a b. by_float_cases. Qed.

Lemma fle_trans (a b c : float) :
  fle a b = true -> fle b c = true -> fle a c = true.
Proof. revert a b c. by_float_cases. Qed.

Lemma feq_not_flt (a b v : float) :
  feq a v = true -> feq b v = true -> flt b a = false.
Proof. revert a b v. by_float_cases. Qed.

Lemma fle_refl (a : float) : is_nan a = false -> fle a a = true.
Proof. revert a. by_float_cases. Qed.

Lemma feq_refl (a : float) : is_nan a = false -> feq a a = true.
Proof. revert a. by_float_cases. Qed.

Lemma fle_antisym (a b : float) :
  fle a b = true -> fle b a = true -> feq b a = true.
Proof. revert a b. by_float_cases. Qed.

End FloatOrder.

(** ** Rounding to decimals *)

Section RoundFacts.
Import Float.

(** [round_half_even a b] is an integer nearest to [a / b]. *)
Lemma round_half_even_nearest (a b : Z) :
  0 < b -> 2 * Z.abs (a - b * round_half_even a b) <= b.
Proof.
  intros Hb. unfold round_half_even.
  pose proof (Z.div_mod a b ltac:(lia)) as Hdiv.
  pose proof (Z.mod_pos_bound a b Hb) as Hmod.
  destruct (Z.compare_spec (2 * (a mod b)) b); [destruct (Z.even (a / b))| |]; lia.
Qed.

(** On a tie the even neighbour is taken. *)
Lemma round_half_even_tie (a b : Z) :
  0 < b -> 2 * (a mod b) = b -> Z.even (round_half_even a b) = true.
Proof.
  intros Hb Htie. unfold round_half_even. rewrite Htie, Z.compare_refl.
  destruct (Z.even (a / b)) eqn:He; [exact He|].
  rewrite Z.even_add, He. reflexivity.
Qed.

(** Signed zeros, infinities and NaN round to themselves. *)
Lemma round_special (x : float) (ndigits : nat) :
  (forall s m e, x <> S754_finite s m e) -> round x ndigits = x.
Proof. intros H. destruct x; try reflexivity. now destruct (H s m e). Qed.

(** A check over a range of integers, run once. *)
Lemma forall_range (P : Z -> bool) (lo : Z) (len : nat) :
  forallb P (map (fun k => lo + Z.of_nat k) (seq 0 len)) = true ->
  forall n, lo <= n < lo + Z.of_nat len -> P n = true.
Proof.
  intros Hall n Hn. rewrite forallb_forall in Hall. apply Hall.
  apply in_map_iff. exists (Z.to_nat (n - lo)). split; [lia|].
  apply in_seq. lia.
Qed.

End RoundFacts.

(** ** Ids *)

Section IdFacts.
Import Label Spec.

(** On the positions a list can have, [str] spells the decimal numeral. *)
Lemma str_decimal (i : Z) : 0 <= i < 702 -> str i = decimal i.
Proof.
  intros Hi. apply String.eqb_eq.
  apply (forall_range (fun i => String.eqb (str i) (decimal i)) 0 702); [|lia].
  vm_compute. reflexivity.
Qed.

End IdFacts.

(** ** The stable sort *)

Section SortFacts.
Import Float Detect Spec.

Context {A : Type} (key : A -> float).

Lemma insert_by_perm (a : A) (l : list A) :
  Permutation (insert_by key a l) (a :: l).
Proof.
  induction l as [|b l IH]; simpl; [reflexivity|].
  destruct (flt (key b) (key a)); [|reflexivity].
  rewrite IH. apply perm_swap.
Qed.

Lemma sort_by_perm (l : list A) : Permutation (sort_by key l) l.
Proof.
  induction l as [|a l IH]; simpl; [reflexivity|].
  rewrite insert_by_perm. now constructor.
Qed.

Lemma sort_by_length (l : list A) : length (sort_by key l) = length l.
Proof. apply Permutation_length, sort_by_perm. Qed.

Lemma insert_by_sorted (a : A) (l : list A) :
  is_nan (key a) = false ->
  Forall (fun b => is_nan (key b) = false) l ->
  StronglySorted (key_le key) l ->
  StronglySorted (key_le key) (insert_by key a l).
Proof.
  intros Ha Hl Hs.
  induction Hs as [|b l Hs IH Hb]; simpl.
  - repeat constructor.
  - inversion Hl as [|? ? Hnb Hl']; subst.
    destruct (flt (key b) (key a)) eqn:Hlt.
    + constructor; [now apply IH|].
      rewrite insert_by_perm. constructor; [|assumption].
      now apply flt_fle.
    + assert (Hab : key_le key a b) by now apply flt_false_fle.
      constructor; [now constructor|].
      constructor; [assumption|].
      eapply List.Forall_impl; [|exact Hb].
      intros c Hc. unfold key_le in *. eapply fle_trans; eassumption.
Qed.

Lemma sort_by_sorted (l : list A) :
  Forall (fun b => is_nan (key b) = false) l ->
  StronglySorted (key_le key) (sort_by key l).
Proof.
  induction 1 as [|a l Ha Hl IH]; simpl; [constructor|].
  apply insert_by_sorted; try assumption.
  now rewrite sort_by_perm.
Qed.

Lemma insert_by_stable (v : float) (a : A) (l : list A) :
  List.filter (fun b => feq (key b) v) (insert_by key a l)
  = List.filter (fun b => feq (key b) v) (a :: l).
Proof.
  induction l as [|b l IH]; [reflexivity|].
  cbn [insert_by].
  destruct (flt (key b) (key a)) eqn:Hlt; [|reflexivity].
  cbn [List.filter] in *. rewrite IH.
  destruct (feq (key a) v) eqn:Ea, (feq (key b) v) eqn:Eb; try reflexivity.
  rewrite (feq_not_flt _ _ _ Ea Eb) in Hlt. discriminate.
Qed.

Lemma sort_by_stable (v : float) (l : list A) :
  List.filter (fun b => feq (key b) v) (sort_by key l)
  = List.filter (fun b => feq (key b) v) l.
Proof.
  induction l as [|a l IH]; [reflexivity|].
  cbn [sort_by]. rewrite insert_by_stable. cbn [List.filter]. now rewrite IH.
Qed.

(** The model of [list.sort] loses no generality: a sorted list is
    determined by the order it keeps inside each class of equal keys. *)
Lemma sorted_stable_unique (l1 : list A) :
  forall l2 : list A,
    Forall (fun b => is_nan (key b) = false) l1 ->
    Forall (fun b => is_nan (key b) = false) l2 ->
    StronglySorted (key_le key) l1 ->
    StronglySorted (key_le key) l2 ->
    (forall v, List.filter (fun b => feq (key b) v) l1
               = List.filter (fun b => feq (key b) v) l2) ->
    l1 = l2.
Proof.
  induction l1 as [|a r1 IH]; intros l2 N1 N2 S1 S2 Hf.
  - destruct l2 as [|b r2]; [reflexivity|].
    inversion N2 as [|? ? Nb _]; subst.
    specialize (Hf (key b)). cbn [List.filter] in Hf.
    rewrite feq_refl in Hf by assumption. discriminate.
  - inversion N1 as [|? ? Na N1']; subst.
    inversion S1 as [|? ? S1' La]; subst.
    destruct l2 as [|b r2].
    + specialize (Hf (key a)). cbn [List.filter] in Hf.
      rewrite feq_refl in Hf by assumption. discriminate.
    + inversion N2 as [|? ? Nb N2']; subst.
      inversion S2 as [|? ? S2' Lb]; subst.
      assert (Hab : a = b).
      { pose proof (Hf (key a)) as Ha. pose proof (Hf (key b)) as Hb.
        cbn [List.filter] in Ha, Hb.
        rewrite feq_refl in Ha, Hb by assumption.
        destruct (feq (key b) (key a)) eqn:Eba; [congruence|].
        destruct (feq (key a) (key b)) eqn:Eab; [congruence|].
        assert (In a r2).
        { eapply (proj1 (filter_In _ a r2)). rewrite <- Ha. now left. }
        assert (In b r1).
        { eapply (proj1 (filter_In _ b r1)). rewrite Hb. now left. }
        rewrite List.Forall_forall in La, Lb.
        rewrite (fle_antisym (key a) (key b)) in Eba; [discriminate| |];
          [now apply La|now apply Lb]. }
      subst b. f_equal. apply IH; try assumption.
      intros v. specialize (Hf v). cbn [List.filter] in Hf.
      destruct (feq (key a) v); [now injection Hf|assumption].
Qed.

Lemma stable_sort_unique (l l' : list A) :
  Forall (fun b => is_nan (key b) = false) l ->
  Forall (fun b => is_nan (key b) = false) l' ->
  StronglySorted (key_le key) l' ->
  (forall v, List.filter (fun b => feq (key b) v) l'
             = List.filter (fun b => feq (key b) v) l) ->
  l' = sort_by key l.
Proof.
  intros Nl Nl' Sl' Hf. apply sorted_stable_unique; try assumption.
  - now rewrite sort_by_perm.
  - now apply sort_by_sorted.
  - intros v. now rewrite sort_by_stable.
Qed.

End SortFacts.

(** ** The point pattern *)

Section PatternFacts.
Import Float Detect Spec.

Ltac by_ascii_cases c :=
  destruct c as [[] [] [] [] [] [] [] []]; vm_compute; try reflexivity;
  try discriminate; try tauto.

Lemma digit_not_space (c : ascii) : is_digit c = true -> is_space c = false.
Proof. by_ascii_cases c. Qed.

Lemma digit_not_dot (c : ascii) : is_digit c = true -> Ascii.eqb c "." = false.
Proof. by_ascii_cases c. Qed.

Lemma space_not_digit (c : ascii) : is_space c = true -> is_digit c = false.
Proof. by_ascii_cases c. Qed.

Lemma space_not_dot (c : ascii) : is_space c = true -> Ascii.eqb c "." = false.
Proof. by_ascii_cases c. Qed.

Lemma body_char_not_open (c : ascii) :
  body_char c = true -> Ascii.eqb c "[" = false.
Proof. by_ascii_cases c. Qed.

End PatternFacts.

Section ScannerFacts.
Import Float Detect Spec.

Lemma take_digits_app (ds r : list ascii) :
  Forall (fun c => is_digit c = true) ds -> head_not is_digit r ->
  take_digits (ds ++ r) = (ds, r).
Proof.
  intros Hds Hr. induction Hds as [|c ds Hc Hds IH]; cbn [app take_digits].
  - destruct r as [|c r]; [reflexivity|]. cbn [head_not take_digits] in *.
    now rewrite Hr.
  - now rewrite Hc, IH.
Qed.

Lemma take_digits_spec (s : list ascii) :
  forall ds r, take_digits s = (ds, r) ->
    s = ds ++ r /\ Forall (fun c => is_digit c = true) ds /\ head_not is_digit r.
Proof.
  induction s as [|c s IH]; cbn [take_digits]; intros ds r H.
  - inversion H; subst. repeat split; constructor.
  - destruct (is_digit c) eqn:Hc.
    + destruct (take_digits s) as [ds' r'] eqn:Ht. inversion H; subst.
      destruct (IH ds' r eq_refl) as (-> & Hds & Hr).
      repeat split; [now constructor|assumption].
    + inversion H; subst. repeat split; [constructor|exact Hc].
Qed.

Lemma skip_spaces_app (ws r : list ascii) :
  spaces ws -> head_not is_space r -> skip_spaces (ws ++ r) = r.
Proof.
  intros Hws Hr. induction Hws as [|c ws Hc Hws IH]; cbn [app skip_spaces].
  - destruct r as [|c r]; [reflexivity|]. cbn [head_not skip_spaces] in *.
    now rewrite Hr.
  - now rewrite Hc.
Qed.

Lemma skip_spaces_spec (s : list ascii) :
  exists ws, s = ws ++ skip_spaces s /\ spaces ws.
Proof.
  induction s as [|c s (ws & Hs & Hws)]; cbn [skip_spaces].
  - exists []. split; [reflexivity|constructor].
  - destruct (is_space c) eqn:Hc.
    + exists (c :: ws). split; [simpl; congruence|now constructor].
    + exists []. split; [reflexivity|constructor].
Qed.

Lemma match_number_sound (s y r : list ascii) :
  match_number s = Some (y, r) -> s = y ++ r /\ number y.
Proof.
  unfold match_number.
  destruct (take_digits s) as [ip r0] eqn:Hip.
  apply take_digits_spec in Hip as (-> & Hds & Hr0).
  destruct ip as [|d ip]; [discriminate|].
  assert (Hip : digits (d :: ip)) by (split; [discriminate|assumption]).
  destruct r0 as [|c r1].
  - intros [= <- <-]. split; [reflexivity|now constructor].
  - destruct (Ascii.eqb_spec c ".") as [->|Hc].
    + destruct (take_digits r1) as [fp r2] eqn:Hfp.
      apply take_digits_spec in Hfp as (-> & Hfs & Hr2).
      destruct fp as [|f fp].
      * intros [= <- <-]. split; [reflexivity|now constructor].
      * intros [= <- <-]. split.
        -- simpl. now rewrite <- app_assoc.
        -- apply (number_dec (d :: ip) (f :: fp)); [assumption|].
           split; [discriminate|assumption].
    + intros [= <- <-]. split; [reflexivity|now constructor].
Qed.

Lemma match_number_complete (y r : list ascii) :
  number y -> head_not is_digit r -> head_not (fun c => Ascii.eqb c ".") r ->
  match_number (y ++ r) = Some (y, r).
Proof.
  intros Hy Hd Hp. unfold match_number.
  destruct Hy as [ds [Hne Hds]|ip fp [Hne Hip] [Hnf Hfp]].
  - rewrite take_digits_app by assumption.
    destruct ds as [|d ds]; [congruence|].
    destruct r as [|c r]; [reflexivity|]. simpl in Hp. now rewrite Hp.
  - rewrite <- app_assoc. rewrite take_digits_app by (assumption || reflexivity).
    destruct ip as [|d ip]; [congruence|].
    simpl. rewrite take_digits_app by assumption.
    destruct fp as [|f fp]; [congruence|reflexivity].
Qed.

Lemma number_head (y r : list ascii) :
  number y -> head_not is_space (y ++ r).
Proof.
  intros [ds [Hne Hds]|ip fp [Hne Hip] _].
  - destruct Hds as [|c ds Hc _]; [congruence|]. simpl. now apply digit_not_space.
  - destruct Hip as [|c ds Hc _]; [congruence|]. simpl. now apply digit_not_space.
Qed.

Lemma spaces_then (c : ascii) (ws r : list ascii) (P : ascii -> bool) :
  spaces ws -> (forall a, is_space a = true -> P a = false) -> P c = false ->
  head_not P (ws ++ c :: r).
Proof.
  intros Hws HP Hc. destruct Hws as [|a ws Ha _]; simpl; auto.
Qed.

Lemma match_point_complete (m y x rest : list ascii) :
  point_shape m y x -> match_point (m ++ rest) = Some (y, x, rest).
Proof.
  intros [w1 y' w2 w3 x' w4 H1 Hy H2 H3 Hx H4].
  cbn [app match_point]. rewrite Ascii.eqb_refl.
  repeat rewrite <- app_assoc. cbn [app].
  rewrite skip_spaces_app by (assumption || now apply number_head).
  rewrite match_number_complete; try assumption.
  2: now apply spaces_then; [|apply space_not_digit|].
  2: now apply spaces_then; [|apply space_not_dot|].
  rewrite skip_spaces_app by (assumption || reflexivity).
  rewrite Ascii.eqb_refl.
  repeat rewrite <- app_assoc.
  rewrite skip_spaces_app by (assumption || now apply number_head).
  rewrite match_number_complete; try assumption.
  2: now apply spaces_then; [|apply space_not_digit|].
  2: now apply spaces_then; [|apply space_not_dot|].
  rewrite skip_spaces_app by (assumption || reflexivity).
  cbn [app]. now rewrite Ascii.eqb_refl.
Qed.

Lemma match_point_sound (s y x rest : list ascii) :
  match_point s = Some (y, x, rest) ->
  exists m, s = m ++ rest /\ point_shape m y x.
Proof.
  unfold match_point.
  destruct s as [|c0 s1]; [discriminate|].
  destruct (Ascii.eqb_spec c0 "[") as [->|]; [|discriminate].
  destruct (skip_spaces_spec s1) as (w1 & Hs1 & Hw1).
  destruct (match_number (skip_spaces s1)) as [[y' s2]|] eqn:Hy; [|discriminate].
  apply match_number_sound in Hy as (Hy & Hny).
  destruct (skip_spaces_spec s2) as (w2 & Hs2 & Hw2).
  destruct (skip_spaces s2) as [|c1 s3]; [discriminate|].
  destruct (Ascii.eqb_spec c1 ",") as [->|]; [|discriminate].
  destruct (skip_spaces_spec s3) as (w3 & Hs3 & Hw3).
  destruct (match_number (skip_spaces s3)) as [[x' s4]|] eqn:Hx; [|discriminate].
  apply match_number_sound in Hx as (Hx & Hnx).
  destruct (skip_spaces_spec s4) as (w4 & Hs4 & Hw4).
  destruct (skip_spaces s4) as [|c2 s5]; [discriminate|].
  destruct (Ascii.eqb_spec c2 "]") as [->|]; [|discriminate].
  intros [= <- <- <-].
  exists ("["%char :: w1 ++ y' ++ w2 ++ ","%char :: w3 ++ x' ++ w4 ++ ["]"%char]).
  split; [|now constructor].
  rewrite Hs1, Hy, Hs2, Hs3, Hx, Hs4.
  cbn [app]. repeat (rewrite <- app_assoc; cbn [app]). reflexivity.
Qed.

End ScannerFacts.

(** ** Floats read from decimal literals *)

Section LiteralFacts.
Import Float Detect Spec.

Lemma iter_pos_invariant {A : Type} (P : A -> Prop) (f : A -> A) :
  (forall a, P a -> P (f a)) ->
  forall (n : positive) (a : A), P a -> P (SpecFloat.iter_pos f n a).
Proof.
  intros Hf. induction n as [n IH|n IH|]; intros a Ha; simpl; auto.
Qed.

Lemma shr_1_nonneg (mrs : shr_record) : 0 <= shr_m mrs -> 0 <= shr_m (shr_1 mrs).
Proof.
  destruct mrs as [m r s]. simpl.
  destruct m as [|[p|p|]|p]; simpl; lia.
Qed.

Lemma shr_fexp_nonneg (m e : Z) (l : location) :
  0 <= m -> 0 <= shr_m (fst (shr_fexp prec emax m e l)).
Proof.
  intros Hm. unfold shr_fexp, shr.
  assert (H0 : 0 <= shr_m (shr_record_of_loc m l)) by (destruct l as [|[]]; exact Hm).
  destruct (fexp prec emax (Zdigits2 m + e) - e) as [|p|p]; simpl; try exact H0.
  apply (iter_pos_invariant (fun mrs => 0 <= shr_m mrs)); [apply shr_1_nonneg|exact H0].
Qed.

Lemma round_nearest_even_nonneg (m : Z) (l : location) :
  0 <= m -> 0 <= round_nearest_even m l.
Proof.
  intros Hm. destruct l as [|[]]; simpl; try lia.
  destruct (Z.even m); lia.
Qed.

Lemma binary_round_aux_not_nan (s : bool) (m e : Z) (l : location) :
  0 <= m -> is_nan (binary_round_aux prec emax s m e l) = false.
Proof.
  intros Hm. unfold binary_round_aux.
  pose proof (shr_fexp_nonneg m e l Hm) as H1.
  destruct (shr_fexp prec emax m e l) as [mrs' e'] eqn:E1. simpl in H1.
  pose proof (shr_fexp_nonneg _ e' loc_Exact
                (round_nearest_even_nonneg _ (loc_of_shr_record mrs') H1)) as H2.
  destruct (shr_fexp prec emax (round_nearest_even (shr_m mrs') (loc_of_shr_record mrs')) e' loc_Exact)
    as [mrs'' e''] eqn:E2. simpl in H2.
  destruct (shr_m mrs'') as [|p|p]; [reflexivity| |lia].
  now destruct (e'' <=? emax - prec).
Qed.

Lemma of_ratio_not_nan (s : bool) (num den : positive) :
  is_nan (of_ratio s num den) = false.
Proof.
  unfold of_ratio, SFdiv_core_binary.
  set (m' := match _ with Z0 => Zpos num | Zpos _ => _ | Zneg _ => 0 end).
  assert (Hm' : 0 <= m').
  { subst m'. destruct (_ - _) as [|p|p]; try lia. apply Z.shiftl_nonneg. lia. }
  pose proof (Z.div_pos m' (Zpos den) Hm' ltac:(lia)) as Hq.
  unfold Z.div in Hq.
  destruct (Z.div_eucl m' (Zpos den)) as [q r].
  now apply binary_round_aux_not_nan.
Qed.

Lemma of_decimal_not_nan (n : Z) (k : nat) : is_nan (of_decimal n k) = false.
Proof.
  destruct n; simpl; try reflexivity. apply of_ratio_not_nan.
Qed.

Lemma forallb_digits (ds : list ascii) :
  Forall (fun c => is_digit c = true) ds -> forallb is_digit ds = true.
Proof. induction 1 as [|c ds Hc _ IH]; cbn [forallb]; [reflexivity|now rewrite Hc]. Qed.

(** [float] accepts every number the pattern captures, and the value is
    never NaN. *)
Lemma float_of_str_number (s : list ascii) :
  number s -> exists v, float_of_str s = Ok v /\ is_nan v = false.
Proof.
  intros [ds [Hne Hds]|ip fp [Hne Hip] [Hnf Hfp]]; unfold float_of_str.
  - pose proof (take_digits_app ds [] Hds I) as Ht.
    rewrite app_nil_r in Ht. rewrite Ht.
    destruct ds as [|d ds]; [congruence|].
    eexists; split; [reflexivity|apply of_decimal_not_nan].
  - rewrite take_digits_app by (assumption || reflexivity).
    destruct ip as [|d ip]; [congruence|].
    rewrite Ascii.eqb_refl, forallb_digits by assumption.
    destruct fp as [|f fp]; [congruence|].
    eexists; split; [reflexivity|apply of_decimal_not_nan].
Qed.

Lemma parse_points_numbers (matches : list (list ascii * list ascii)) :
  Forall (fun m => number (fst m) /\ number (snd m)) matches ->
  exists points,
    parse_points matches = Ok points /\
    Forall2 (fun m p => float_of_str (fst m) = Ok (fst p) /\
                        float_of_str (snd m) = Ok (snd p)) matches points /\
    Forall (fun p => is_nan (snd p) = false) points.
Proof.
  induction 1 as [|[y_str x_str] rest [Hy Hx] _ (points & Hp & H2 & Hn)].
  - exists []. repeat split; constructor.
  - destruct (float_of_str_number _ Hy) as (y & Ey & _).
    destruct (float_of_str_number _ Hx) as (x & Ex & Nx).
    exists ((y, x) :: points). cbn [parse_points].
    simpl in Ey, Ex. rewrite Ey, Ex. cbn [bind]. rewrite Hp. cbn [bind].
    repeat split; constructor; auto.
Qed.

End LiteralFacts.

(** ** [findall] finds every pair-shaped substring, once, in order *)

Section FindallFacts.
Import Float Detect Spec.

Lemma spaces_body (ws : list ascii) : spaces ws -> Forall (fun c => body_char c = true) ws.
Proof.
  apply List.Forall_impl. intros c Hc. unfold body_char. now rewrite Hc.
Qed.

Lemma digits_body (ds : list ascii) :
  Forall (fun c => is_digit c = true) ds -> Forall (fun c => body_char c = true) ds.
Proof.
  apply List.Forall_impl. intros c Hc. unfold body_char.
  rewrite Hc. now rewrite orb_true_r.
Qed.

Lemma number_body (y : list ascii) : number y -> Forall (fun c => body_char c = true) y.
Proof.
  intros [ds [_ Hds]|ip fp [_ Hip] [_ Hfp]].
  - now apply digits_body.
  - apply Forall_app. split; [now apply digits_body|].
    constructor; [reflexivity|now apply digits_body].
Qed.

Lemma point_shape_body (m y x : list ascii) :
  point_shape m y x ->
  number y /\ number x /\
  exists body, m = "["%char :: body /\ Forall (fun c => body_char c = true) body.
Proof.
  intros [w1 y' w2 w3 x' w4 H1 Hy H2 H3 Hx H4].
  repeat split; try assumption.
  eexists; split; [reflexivity|].
  repeat (apply Forall_app; split);
    auto using spaces_body, number_body.
  constructor; [reflexivity|].
  repeat (apply Forall_app; split);
    auto using spaces_body, number_body.
Qed.

Lemma match_point_body_char (c : ascii) (s : list ascii) :
  body_char c = true -> match_point (c :: s) = None.
Proof.
  intros Hc. cbn [match_point]. now rewrite (body_char_not_open c Hc).
Qed.

Lemma findall_from_scan (s : list ascii) :
  forall (k i : nat),
    Forall (fun c => body_char c = true) (firstn k s) ->
    findall_from k s = map snd (scan_from i s).
Proof.
  induction s as [|c t IH]; intros k i Hk; [reflexivity|].
  destruct k as [|k].
  - cbn [findall_from scan_from].
    destruct (match_point (c :: t)) as [[[y x] rest]|] eqn:Hm.
    + cbn [map snd]. f_equal.
      apply match_point_sound in Hm as (m & Hs & Hshape).
      apply point_shape_body in Hshape as (_ & _ & body & -> & Hbody).
      injection Hs as _ ->.
      apply IH.
      rewrite length_app, Nat.add_sub.
      now rewrite firstn_app, Nat.sub_diag, firstn_all, firstn_O, app_nil_r.
    + apply IH. constructor.
  - cbn [firstn] in Hk. inversion Hk as [|? ? Hc Hk']; subst.
    cbn [findall_from scan_from].
    rewrite (match_point_body_char c t Hc).
    now apply IH.
Qed.

Lemma occurs_at_match (text : list ascii) (i : nat) (y x : list ascii) :
  occurs_at text i y x <->
  exists rest, match_point (skipn i text) = Some (y, x, rest).
Proof.
  split.
  - intros (m & post & Hs & Hshape). exists post.
    rewrite Hs. now apply match_point_complete.
  - intros (rest & Hm). apply match_point_sound in Hm as (m & Hs & Hshape).
    now exists m, rest.
Qed.

Lemma scan_from_in (s : list ascii) :
  forall (i j : nat) (y x : list ascii),
    In (j, (y, x)) (scan_from i s) <->
    exists j', j = (i + j')%nat /\ occurs_at s j' y x.
Proof.
  induction s as [|c t IH]; intros i j y x.
  - split; [intros []|].
    intros (j' & _ & H). apply occurs_at_match in H as (rest & H).
    now rewrite skipn_nil in H.
  - assert (Htail : In (j, (y, x)) (scan_from (S i) t) <->
                    exists j', j = (i + S j')%nat /\ occurs_at (c :: t) (S j') y x).
    { rewrite IH. split; intros (j' & -> & H); exists j'; (split; [lia|]);
        apply occurs_at_match; apply occurs_at_match in H; exact H. }
    cbn [scan_from].
    split.
    + intros Hin.
      assert (Hcase : (exists rest, match_point (c :: t) = Some (y, x, rest) /\ j = i)
                      \/ In (j, (y, x)) (scan_from (S i) t)).
      { destruct (match_point (c :: t)) as [[[y0 x0] rest]|]; [|now right].
        destruct Hin as [[= <- <- <-]|Hin]; [left; now exists rest|now right]. }
      destruct Hcase as [(rest & Hm & ->)|Hin'].
      * exists 0%nat. split; [lia|]. apply occurs_at_match. now exists rest.
      * apply Htail in Hin' as (j' & -> & H). now exists (S j').
    + intros (j' & -> & H). destruct j' as [|j'].
      * apply occurs_at_match in H as (rest & H). cbn [skipn] in H.
        rewrite H, Nat.add_0_r. now left.
      * assert (In ((i + S j')%nat, (y, x)) (scan_from (S i) t))
          by (apply Htail; now exists j').
        destruct (match_point (c :: t)) as [[[y0 x0] rest]|]; [now right|assumption].
Qed.




End FindallFacts.

(** ** From a run of the pipeline to its response text *)

Section RunFacts.
Import Float Detect Pipeline Spec.

Context {image : Type} (E : env image).

Lemma hotspots_of_empty_text : hotspots_of_text EmptyString = Ok [].
Proof. reflexivity. Qed.

(** The result of a run is the list computed from the response text,
    unless the output file cannot be opened. *)
Lemma after_response_result (response : Response) (out : option string)
    (w : world image) :
  (forall path, out = Some path -> writable E path = true) ->
  fst (after_response E response out w)
  = (let* text_response := response_text response in
     hotspots_of_text text_response).
Proof.
  intros Hout. unfold after_response, hotspots_of_text.
  destruct (response_text response) as [[|c t]|e]; cbn [bind fst]; try reflexivity.
  destruct (findall (String c t)) as [|m ms]; [reflexivity|].
  destruct (buildings_of_matches (m :: ms)) as [hs|e]; [|reflexivity].
  destruct out as [[|c' p']|]; try reflexivity.
  now rewrite (Hout _ eq_refl).
Qed.

Lemma after_response_ok (response : Response) (out : option string)
    (w : world image) (hs : list hotspot) :
  fst (after_response E response out w) = Ok hs ->
  (let* text_response := response_text response in
   hotspots_of_text text_response) = Ok hs.
Proof.
  unfold after_response, hotspots_of_text.
  destruct (response_text response) as [[|c t]|e]; cbn [bind fst]; try easy.
  destruct (findall (String c t)) as [|m ms]; [easy|].
  destruct (buildings_of_matches (m :: ms)) as [hs'|e]; [|easy].
  destruct out as [[|c' p']|]; try easy.
  now destruct (writable E (String c' p')).
Qed.

Lemma after_response_raise (response : Response) (out : option string)
    (w : world image) (e : exn) :
  (let* text_response := response_text response in
   hotspots_of_text text_response) = Raise e ->
  after_response E response out w = (Raise e, w).
Proof.
  unfold after_response, hotspots_of_text.
  destruct (response_text response) as [[|c t]|e']; cbn [bind fst].
  - discriminate.
  - destruct (findall (String c t)) as [|m ms]; [discriminate|].
    destruct (buildings_of_matches (m :: ms)) as [hs'|e']; [discriminate|].
    now intros [= ->].
  - now intros [= ->].
Qed.

Lemma after_response_calls (response : Response) (out : option string)
    (w : world image) :
  calls (snd (after_response E response out w)) = calls w.
Proof.
  unfold after_response.
  destruct (response_text response) as [[|c t]|e]; try reflexivity.
  destruct (findall (String c t)) as [|m ms]; [reflexivity|].
  destruct (buildings_of_matches (m :: ms)) as [hs|e]; [|reflexivity].
  destruct out as [[|c' p']|]; try reflexivity.
  now destruct (writable E (String c' p')).
Qed.

Lemma after_response_files (response : Response) (out : option string)
    (w : world image) (path : string) :
  out <> Some path ->
  files (snd (after_response E response out w)) !! path = files w !! path.
Proof.
  intros Hne. unfold after_response.
  destruct (response_text response) as [[|c t]|e]; try reflexivity.
  destruct (findall (String c t)) as [|m ms]; [reflexivity|].
  destruct (buildings_of_matches (m :: ms)) as [hs|e]; [|reflexivity].
  destruct out as [[|c' p']|]; try reflexivity.
  destruct (writable E (String c' p')); [|reflexivity].
  cbn [snd write_file files]. apply lookup_insert_ne. congruence.
Qed.

Lemma analyze_answered (image_path prompt_text : string) (response : Response)
    (out : option string) (w : world image) :
  (forall path, out = Some path -> writable E path = true) ->
  answered E image_path prompt_text response ->
  fst (analyze_panorama E image_path prompt_text out w)
  = (let* text_response := response_text response in
     hotspots_of_text text_response).
Proof.
  intros Hout (ai_img & Hprep & [Hp|[Hp Hb]]); unfold analyze_panorama;
    rewrite Hprep, Hp; [|rewrite Hb]; now apply after_response_result.
Qed.

Lemma analyze_answered_ok (image_path prompt_text : string) (response : Response)
    (out : option string) (w : world image) (hs : list hotspot) :
  answered E image_path prompt_text response ->
  fst (analyze_panorama E image_path prompt_text out w) = Ok hs ->
  (let* text_response := response_text response in
   hotspots_of_text text_response) = Ok hs.
Proof.
  intros (ai_img & Hprep & [Hp|[Hp Hb]]); unfold analyze_panorama;
    rewrite Hprep, Hp; [|rewrite Hb]; apply after_response_ok.
Qed.

Lemma analyze_answered_raise (image_path prompt_text : string)
    (response : Response) (out : option string) (w : world image) (e : exn) :
  answered E image_path prompt_text response ->
  (let* text_response := response_text response in
   hotspots_of_text text_response) = Raise e ->
  fst (analyze_panorama E image_path prompt_text out w) = Raise e /\
  files (snd (analyze_panorama E image_path prompt_text out w)) = files w.
Proof.
  intros (ai_img & Hprep & [Hp|[Hp Hb]]) Hraise; unfold analyze_panorama;
    rewrite Hprep, Hp; [|rewrite Hb];
    now rewrite (after_response_raise _ _ _ _ Hraise).
Qed.

Lemma analyze_cases (image_path prompt_text : string) (out : option string)
    (w : world image) :
  fst (analyze_panorama E image_path prompt_text out w) = Ok [] \/
  exists response, answered E image_path prompt_text response.
Proof.
  unfold analyze_panorama, answered.
  destruct (prepare_image E image_path) as [ai_img|] eqn:Hprep; [|now left].
  destruct (generate_content E primary_model prompt_text ai_img) as [r|] eqn:Hp.
  - right. exists r, ai_img. auto.
  - destruct (generate_content E backup_model prompt_text ai_img) as [r|] eqn:Hb.
    + right. exists r, ai_img. auto.
    + now left.
Qed.

Lemma analyze_files (image_path prompt_text : string) (out : option string)
    (w : world image) (path : string) :
  out <> Some path ->
  files (snd (analyze_panorama E image_path prompt_text out w)) !! path
  = files w !! path.
Proof.
  intros Hne. unfold analyze_panorama.
  destruct (prepare_image E image_path) as [ai_img|]; [|reflexivity].
  destruct (generate_content E primary_model prompt_text ai_img) as [r|].
  - now rewrite after_response_files.
  - destruct (generate_content E backup_model prompt_text ai_img) as [r|];
      [now rewrite after_response_files|reflexivity].
Qed.


End RunFacts.

(** ** From the response text to the stored list *)

Section TextFacts.
Import Float Detect Pipeline Label Spec.


Lemma findall_scan (text_response : string) :
  findall text_response = map snd (scan_from 0 (list_ascii_of_string text_response)).
Proof. apply findall_from_scan. constructor. Qed.

Lemma scan_from_numbers (s : list ascii) (i : nat) :
  Forall (fun o => number (fst (snd o)) /\ number (snd (snd o))) (scan_from i s).
Proof.
  apply List.Forall_forall. intros [j [y x]] Hin.
  apply scan_from_in in Hin as (j' & _ & m & post & _ & Hshape).
  apply point_shape_body in Hshape as (Hy & Hx & _). now split.
Qed.

Lemma findall_numbers (text_response : string) :
  Forall (fun m => number (fst m) /\ number (snd m)) (findall text_response).
Proof.
  rewrite findall_scan. apply Forall_map.
  apply (scan_from_numbers _ 0).
Qed.

(** The parse loop keeps every match, and no parsed [x] is NaN. *)
Lemma parse_points_findall (text_response : string) :
  exists points,
    parse_points (findall text_response) = Ok points /\
    length points = length (findall text_response) /\
    Forall (fun p => is_nan (snd p) = false) points.
Proof.
  destruct (parse_points_numbers _ (findall_numbers text_response))
    as (points & Hp & H2 & Hn).
  exists points. repeat split; try assumption.
  symmetry. eapply Forall2_length. exact H2.
Qed.

Lemma hotspots_of_text_inv (text_response : string) (hs : list hotspot) :
  hotspots_of_text text_response = Ok hs ->
  exists points,
    parse_points (findall text_response) = Ok points /\
    Forall (fun p => is_nan (snd p) = false) points /\
    (length points <= 702)%nat /\
    hs = hotspots_from 0 (sort_by snd points).
Proof.
  intros H.
  destruct (parse_points_findall text_response) as (points & Hp & Hlen & Hn).
  exists points. unfold hotspots_of_text in H.
  destruct (findall text_response) as [|m ms] eqn:Hm.
  - injection H as <-. destruct points; [|discriminate].
    repeat split; try assumption. simpl. lia.
  - unfold buildings_of_matches in H. rewrite Hp in H. cbn [bind] in H.
    apply label_points_inv in H as [Hle ->].
    rewrite sort_by_length in Hle. repeat split; assumption.
Qed.

Lemma sorted_by_coords (key : float * float -> float) (hs : list hotspot) :
  StronglySorted (key_le key) (map coords hs) ->
  StronglySorted (key_le (fun h => key (coords h))) hs.
Proof.
  induction hs as [|h hs IH]; intros H; [constructor|].
  cbn [map] in H. inversion H as [|? ? Hs Hall]; subst.
  constructor; [now apply IH|].
  rewrite List.Forall_forall in *. intros h' Hin.
  apply (Hall (coords h')). now apply in_map.
Qed.

Lemma hotspots_from_coords (points : list (float * float)) (i : Z) :
  map coords (hotspots_from i points) = points.
Proof. apply hotspots_from_points. Qed.

End TextFacts.

(** ** The store *)

Section StoreFacts.
Import App.

Lemma list_ascii_of_append (s t : string) :
  list_ascii_of_string (s ++ t) = list_ascii_of_string s ++ list_ascii_of_string t.
Proof. induction s as [|c s IH]; simpl; [reflexivity|now rewrite IH]. Qed.

Lemma list_ascii_of_string_inj (s t : string) :
  list_ascii_of_string s = list_ascii_of_string t -> s = t.
Proof.
  intros H. rewrite <- (string_of_list_ascii_of_string s),
    <- (string_of_list_ascii_of_string t). now rewrite H.
Qed.

Lemma append_inv_tail (s1 s2 t : string) : (s1 ++ t = s2 ++ t)%string -> s1 = s2.
Proof.
  intros H. apply list_ascii_of_string_inj.
  apply (f_equal list_ascii_of_string) in H.
  rewrite !list_ascii_of_append in H. now apply app_inv_tail in H.
Qed.

Lemma json_path_unfold (id : string) :
  json_path id
  = if starts_with_sep id then (id ++ ".json")%string
    else ("static/processed/" ++ (id ++ ".json"))%string.
Proof.
  unfold json_path, path_join. destruct id as [|c id]; reflexivity.
Qed.

Lemma json_path_inj (id1 id2 : string) : json_path id1 = json_path id2 -> id1 = id2.
Proof.
  rewrite !json_path_unfold.
  destruct (starts_with_sep id1) eqn:H1, (starts_with_sep id2) eqn:H2; intros H.
  - now apply append_inv_tail in H.
  - destruct id1 as [|c id1]; [discriminate|]. simpl in H1.
    apply Ascii.eqb_eq in H1 as ->. discriminate.
  - destruct id2 as [|c id2]; [discriminate|]. simpl in H2.
    apply Ascii.eqb_eq in H2 as ->. discriminate.
  - injection H as H. change (id1 ++ ".json" = id2 ++ ".json")%string in H.
    now apply append_inv_tail in H.
Qed.

Context {image : Type} (E : env image).

Lemma handle_other (r : request) (id : string) (w : world image) :
  session r <> id ->
  files (handle E r w) !! json_path id = files w !! json_path id.
Proof.
  intros Hne.
  assert (json_path (session r) <> json_path id)
    by (intros Heq; now apply json_path_inj in Heq).
  destruct r as [id' data|id' image_path prompt]; cbn [handle session] in *.
  - unfold save_data. destruct (writable E (json_path id')); [|reflexivity].
    cbn [snd write_file files]. now apply lookup_insert_ne.
  - apply analyze_files. congruence.
Qed.

Lemma serve_other (reqs : list request) (id : string) :
  forall w : world image,
    Forall (fun r => session r <> id) reqs ->
    files (serve E reqs w) !! json_path id = files w !! json_path id.
Proof.
  induction reqs as [|r reqs IH]; intros w Hall; [reflexivity|].
  inversion Hall as [|? ? Hr Hrest]; subst.
  cbn [serve fold_left]. fold (serve E reqs (handle E r w)).
  rewrite IH by assumption. now apply handle_other.
Qed.

End StoreFacts.

(** ** The mapper on integer coordinates *)

Section MapperFacts.
Import Float Detect.

Lemma mapper_in_range (n : Z) :
  0 <= n <= 1000 ->
  fle (SFopp (of_Z 180)) (round (to_yaw (of_Z n)) 2)
  && fle (round (to_yaw (of_Z n)) 2) (of_Z 180)
  && fle (SFopp (of_Z 90)) (round (to_pitch (of_Z n)) 2)
  && fle (round (to_pitch (of_Z n)) 2) (of_Z 90) = true.
Proof.
  intros Hn.
  apply (forall_range
           (fun n => fle (SFopp (of_Z 180)) (round (to_yaw (of_Z n)) 2)
                     && fle (round (to_yaw (of_Z n)) 2) (of_Z 180)
                     && fle (SFopp (of_Z 90)) (round (to_pitch (of_Z n)) 2)
                     && fle (round (to_pitch (of_Z n)) 2) (of_Z 90))
           0 1001); [|lia].
  vm_compute. reflexivity.
Qed.

Lemma mapper_out_of_range (n : Z) :
  1000 < n <= 4000 ->
  flt (of_Z 180) (round (to_yaw (of_Z n)) 2)
  && flt (round (to_pitch (of_Z n)) 2) (SFopp (of_Z 90)) = true.
Proof.
  intros Hn.
  apply (forall_range
           (fun n => flt (of_Z 180) (round (to_yaw (of_Z n)) 2)
                     && flt (round (to_pitch (of_Z n)) 2) (SFopp (of_Z 90)))
           1001 3000); [|lia].
  vm_compute. reflexivity.
Qed.

End MapperFacts.

(** * Floats and the numbers they stand for *)

Section Digits.

Lemma digits2_pos_bounds (p : positive) :
  2 ^ (Zpos (digits2_pos p) - 1) <= Zpos p < 2 ^ Zpos (digits2_pos p).
Proof.
  induction p as [p IH|p IH|]; cbn [digits2_pos].
  - rewrite Pos2Z.inj_succ.
    replace (Z.succ (Zpos (digits2_pos p)) - 1) with (Z.succ (Zpos (digits2_pos p) - 1)) by lia.
    rewrite !Z.pow_succ_r by lia. lia.
  - rewrite Pos2Z.inj_succ.
    replace (Z.succ (Zpos (digits2_pos p)) - 1) with (Z.succ (Zpos (digits2_pos p) - 1)) by lia.
    rewrite !Z.pow_succ_r by lia. lia.
  - simpl. lia.
Qed.

Lemma Zdigits2_bounds (m : Z) :
  0 < m -> 2 ^ (Zdigits2 m - 1) <= m < 2 ^ Zdigits2 m.
Proof.
  destruct m as [|p|p]; try lia. intros _. apply digits2_pos_bounds.
Qed.

Lemma Zdigits2_nonneg (m : Z) : 0 <= Zdigits2 m.
Proof. destruct m; simpl; lia. Qed.

Lemma Zdigits2_pos (m : Z) : 0 < m -> 0 < Zdigits2 m.
Proof. destruct m; simpl; lia. Qed.

Lemma Zdigits2_unique (m k : Z) :
  2 ^ (k - 1) <= m < 2 ^ k -> 0 < k -> Zdigits2 m = k.
Proof.
  intros Hm Hk.
  assert (0 < m) by (pose proof (Z.pow_pos_nonneg 2 (k - 1)); lia).
  pose proof (Zdigits2_bounds m H) as Hd.
  pose proof (Zdigits2_pos m H) as Hp.
  destruct (Z.lt_trichotomy (Zdigits2 m) k) as [Hlt|[Heq|Hgt]]; [|exact Heq|].
  - assert (2 ^ Zdigits2 m <= 2 ^ (k - 1)) by (apply Z.pow_le_mono_r; lia). lia.
  - assert (2 ^ k <= 2 ^ (Zdigits2 m - 1)) by (apply Z.pow_le_mono_r; lia). lia.
Qed.

Lemma Zdigits2_lt_pow (m k : Z) : 0 <= m < 2 ^ k -> 0 <= k -> Zdigits2 m <= k.
Proof.
  intros Hm Hk.
  destruct (Z.eq_dec m 0) as [->|Hne]; [simpl; lia|].
  pose proof (Zdigits2_bounds m ltac:(lia)) as Hd.
  destruct (Z_le_gt_dec (Zdigits2 m) k) as [|Hgt]; [assumption|].
  assert (2 ^ k <= 2 ^ (Zdigits2 m - 1)) by (apply Z.pow_le_mono_r; lia). lia.
Qed.

Lemma Zdigits2_ge_pow (m k : Z) : 2 ^ k <= m -> 0 <= k -> k + 1 <= Zdigits2 m.
Proof.
  intros Hm Hk.
  assert (0 < m) by (pose proof (Z.pow_pos_nonneg 2 k); lia).
  pose proof (Zdigits2_bounds m H) as Hd.
  destruct (Z_le_gt_dec (k + 1) (Zdigits2 m)) as [|Hgt]; [assumption|].
  assert (2 ^ Zdigits2 m <= 2 ^ k) by (apply Z.pow_le_mono_r; lia). lia.
Qed.

End Digits.

Section Shift.
Import Float Rounding.

Lemma shr_1_locate (A B : Z) :
  0 <= A -> 0 < B -> shr_1 (locate A B) = locate A (2 * B).
Proof.
  intros HA HB. unfold locate.
  pose proof (Z.div_mod A B ltac:(lia)) as Hdm.
  pose proof (Z.mod_pos_bound A B HB) as Hr.
  pose proof (Z.div_pos A B HA HB) as Hq.
  assert (Hdiv2 : A / (2 * B) = A / B / 2)
    by (rewrite (Z.mul_comm 2 B); symmetry; apply Z.div_div; lia).
  pose proof (Z.div_mod A (2 * B) ltac:(lia)) as Hdm2.
  pose proof (Z.mod_pos_bound A (2 * B) ltac:(lia)) as Hr2.
  pose proof (Z.div_mod (A / B) 2 ltac:(lia)) as Hdq.
  pose proof (Z.mod_pos_bound (A / B) 2 ltac:(lia)) as Hrq.
  assert (Hmod2 : A mod (2 * B) = (A / B) mod 2 * B + A mod B) by nia.
  rewrite Hdiv2, Hmod2.
  set (q := A / B) in *. set (r := A mod B) in *.
  assert (Hcase : shr_1 {| shr_m := q; shr_r := B <=? 2 * r;
                           shr_s := negb ((r =? 0) || (2 * r =? B)) |}
                  = {| shr_m := q / 2; shr_r := negb (q mod 2 =? 0);
                       shr_s := (B <=? 2 * r) || negb ((r =? 0) || (2 * r =? B)) |}).
  { destruct q as [|[p|p|]|p]; try lia; cbn [shr_1]; f_equal;
      try reflexivity.
    - rewrite Pos2Z.inj_xI. apply Z.div_unique with 1; lia.
    - rewrite Pos2Z.inj_xI.
      replace ((2 * Zpos p + 1) mod 2) with 1; [reflexivity|].
      apply Z.mod_unique with (Zpos p); lia.
    - rewrite Pos2Z.inj_xO. apply Z.div_unique with 0; lia.
    - rewrite Pos2Z.inj_xO.
      replace ((2 * Zpos p) mod 2) with 0; [reflexivity|].
      apply Z.mod_unique with (Zpos p); lia. }
  rewrite Hcase.
  assert (Ht : q mod 2 = 0 \/ q mod 2 = 1) by lia.
  destruct Ht as [Ht|Ht]; rewrite Ht; cbn [Z.eqb negb]; f_equal.
  - symmetry. apply Z.leb_gt. lia.
  - destruct (Z.leb_spec B (2 * r)), (Z.eqb_spec r 0), (Z.eqb_spec (2 * r) B),
      (Z.eqb_spec (0 * B + r) 0),
      (Z.eqb_spec (2 * (0 * B + r)) (2 * B)); cbn; try reflexivity; lia.
  - symmetry. apply Z.leb_le. lia.
  - destruct (Z.leb_spec B (2 * r)), (Z.eqb_spec r 0), (Z.eqb_spec (2 * r) B),
      (Z.eqb_spec (1 * B + r) 0),
      (Z.eqb_spec (2 * (1 * B + r)) (2 * B)); cbn; try reflexivity; lia.
Qed.

Lemma iter_shr_locate (n : positive) (A : Z) :
  0 <= A ->
  forall B : Z, 0 < B ->
    SpecFloat.iter_pos shr_1 n (locate A B) = locate A (2 ^ Zpos n * B).
Proof.
  intros HA. induction n as [n IH|n IH|]; intros B HB; cbn [SpecFloat.iter_pos].
  - rewrite shr_1_locate, IH, IH by (try apply Z.mul_pos_pos; try apply Z.pow_pos_nonneg; lia).
    f_equal. rewrite (Pos2Z.inj_xI n).
    replace (2 * Zpos n + 1) with (Zpos n + Zpos n + 1) by lia.
    rewrite !Z.pow_add_r by lia. rewrite Z.pow_1_r. ring.
  - rewrite IH, IH by (try apply Z.mul_pos_pos; try apply Z.pow_pos_nonneg; lia).
    f_equal. rewrite (Pos2Z.inj_xO n).
    replace (2 * Zpos n) with (Zpos n + Zpos n) by lia.
    rewrite !Z.pow_add_r by lia. ring.
  - now rewrite shr_1_locate.
Qed.

Lemma locate_exact (m : Z) : shr_record_of_loc m loc_Exact = locate m 1.
Proof.
  unfold locate. cbn [shr_record_of_loc].
  rewrite Z.div_1_r, Z.mod_1_r. reflexivity.
Qed.

Lemma locate_new_location (num den : Z) :
  0 <= num -> 0 < den ->
  shr_record_of_loc (num / den) (new_location den (num mod den)) = locate num den.
Proof.
  intros Hn Hd. unfold locate, new_location, new_location_even, new_location_odd.
  pose proof (Z.mod_pos_bound num den Hd) as Hr.
  set (r := num mod den) in *.
  assert (Hodd : Z.even den = false -> 2 * r <> den).
  { intros Hev Heq. rewrite <- Heq, Z.even_mul in Hev. discriminate. }
  destruct (Z.even den); [clear Hodd|specialize (Hodd eq_refl)];
    destruct (Z.eqb_spec r 0) as [E|E]; cbn [orb negb];
    try destruct (Z.compare_spec (2 * r) den) as [C|C|C];
    try destruct (Z.compare_spec (2 * r + 1) den) as [C1|C1|C1];
    destruct (Z.leb_spec den (2 * r)); destruct (Z.eqb_spec (2 * r) den);
    cbn [shr_record_of_loc negb]; try reflexivity; lia.
Qed.

Lemma round_nearest_even_locate (A B : Z) :
  0 < B ->
  round_nearest_even (shr_m (locate A B)) (loc_of_shr_record (locate A B))
  = round_half_even A B.
Proof.
  intros HB. unfold locate, round_half_even. cbn [shr_m loc_of_shr_record].
  pose proof (Z.mod_pos_bound A B HB) as Hr.
  set (r := A mod B) in *.
  destruct (Z.compare_spec (2 * r) B) as [C|C|C].
  - replace (B <=? 2 * r) with true by (symmetry; apply Z.leb_le; lia).
    replace (r =? 0) with false by (symmetry; apply Z.eqb_neq; lia).
    replace (2 * r =? B) with true by (symmetry; apply Z.eqb_eq; lia).
    reflexivity.
  - replace (B <=? 2 * r) with false by (symmetry; apply Z.leb_gt; lia).
    now destruct (negb _).
  - replace (B <=? 2 * r) with true by (symmetry; apply Z.leb_le; lia).
    replace (r =? 0) with false by (symmetry; apply Z.eqb_neq; lia).
    replace (2 * r =? B) with false by (symmetry; apply Z.eqb_neq; lia).
    reflexivity.
Qed.

Lemma shr_fexp_locate (A B ex : Z) (l : location) :
  0 <= A -> 0 < B ->
  shr_record_of_loc (A / B) l = locate A B ->
  shr_fexp prec emax (A / B) ex l
  = (locate A (2 ^ Z.max 0 (fexp prec emax (Zdigits2 (A / B) + ex) - ex) * B),
     ex + Z.max 0 (fexp prec emax (Zdigits2 (A / B) + ex) - ex)).
Proof.
  intros HA HB Hl. unfold shr_fexp, shr. rewrite Hl.
  destruct (fexp prec emax (Zdigits2 (A / B) + ex) - ex) as [|p|p].
  - cbn [Z.max]. rewrite Z.pow_0_r, Z.mul_1_l, Z.add_0_r. reflexivity.
  - rewrite iter_shr_locate by assumption.
    replace (Z.max 0 (Zpos p)) with (Zpos p) by lia. reflexivity.
  - replace (Z.max 0 (Zneg p)) with 0 by lia.
    rewrite Z.pow_0_r, Z.mul_1_l, Z.add_0_r. reflexivity.
Qed.

Lemma round_half_even_nonneg (A B : Z) : 0 <= A -> 0 < B -> 0 <= round_half_even A B.
Proof.
  intros HA HB. unfold round_half_even.
  pose proof (Z.div_pos A B HA HB).
  destruct (_ ?= _); [destruct (Z.even _)| |]; lia.
Qed.

Theorem binary_round_aux_rounded (s : bool) (A B ex : Z) (l : location) :
  0 <= A -> 0 < B ->
  shr_record_of_loc (A / B) l = locate A B ->
  binary_round_aux prec emax s (A / B) ex l = rounded s A B ex.
Proof.
  intros HA HB Hl. unfold binary_round_aux, rounded, finish.
  rewrite (shr_fexp_locate A B ex l HA HB Hl).
  set (n := Z.max 0 (fexp prec emax (Zdigits2 (A / B) + ex) - ex)).
  assert (HB' : 0 < 2 ^ n * B)
    by (apply Z.mul_pos_pos; [apply Z.pow_pos_nonneg; lia|assumption]).
  rewrite round_nearest_even_locate by assumption.
  set (m1 := round_half_even A (2 ^ n * B)).
  assert (Hm1 : 0 <= m1) by (apply round_half_even_nonneg; assumption).
  pose proof (shr_fexp_locate m1 1 (ex + n) loc_Exact Hm1 ltac:(lia)) as H2.
  rewrite !Z.div_1_r in H2. rewrite (H2 (locate_exact m1)).
  rewrite Z.mul_1_r. cbn [shr_m locate]. reflexivity.
Qed.

End Shift.

Section Finish.
Import Float Rounding.

Lemma fexp_eq (e : Z) : fexp prec emax e = Z.max (e - 53) (-1074).
Proof. reflexivity. Qed.

Lemma finish_zero (s : bool) (e1 : Z) : finish s 0 e1 = S754_zero s.
Proof. unfold finish. now rewrite Z.div_0_l by (apply Z.pow_nonzero; lia). Qed.

Lemma finish_small (s : bool) (m1 e1 : Z) :
  0 < m1 < 2 ^ 53 -> -1074 <= e1 ->
  finish s m1 e1
  = if e1 <=? 971 then S754_finite s (Z.to_pos m1) e1 else S754_infinity s.
Proof.
  intros Hm He. unfold finish.
  pose proof (Zdigits2_lt_pow m1 53 ltac:(lia) ltac:(lia)) as Hd.
  rewrite fexp_eq.
  replace (Z.max 0 (Z.max (Zdigits2 m1 + e1 - 53) (-1074) - e1)) with 0 by lia.
  rewrite Z.pow_0_r, Z.div_1_r, Z.add_0_r.
  destruct m1 as [|p|p]; try lia. reflexivity.
Qed.

Lemma finish_carry (s : bool) (e1 : Z) :
  -1074 <= e1 ->
  finish s (2 ^ 53) e1
  = if e1 + 1 <=? 971 then S754_finite s (Z.to_pos (2 ^ 52)) (e1 + 1)
    else S754_infinity s.
Proof.
  intros He. unfold finish.
  assert (Hd : Zdigits2 (2 ^ 53) = 54) by reflexivity.
  rewrite Hd, fexp_eq.
  replace (Z.max 0 (Z.max (54 + e1 - 53) (-1074) - e1)) with 1 by lia.
  reflexivity.
Qed.

(** The integer nearest to [A / B]. *)
Lemma round_half_even_bounds (A B : Z) :
  0 < B ->
  A / B <= round_half_even A B <= A / B + 1 /\
  2 * Z.abs (A - B * round_half_even A B) <= B.
Proof.
  intros HB. split; [|now apply round_half_even_nearest].
  unfold round_half_even.
  destruct (_ ?= _); [destruct (Z.even _)| |]; lia.
Qed.

Lemma round_half_even_closest (A B j : Z) :
  0 < B ->
  Z.abs (A - B * round_half_even A B) <= Z.abs (A - B * j).
Proof.
  intros HB. pose proof (round_half_even_nearest A B HB) as Hn.
  set (m := round_half_even A B) in *.
  destruct (Z.eq_dec j m) as [->|Hne]; [lia|].
  assert (B <= Z.abs (B * (m - j))) by (rewrite Z.abs_mul; nia).
  lia.
Qed.

Lemma round_half_even_ties (A B j : Z) :
  0 < B -> j <> round_half_even A B ->
  Z.abs (A - B * j) = Z.abs (A - B * round_half_even A B) ->
  Z.even (round_half_even A B) = true.
Proof.
  intros HB Hne Heq. apply round_half_even_tie; [assumption|].
  pose proof (round_half_even_nearest A B HB) as Hn.
  pose proof (Z.div_mod A B ltac:(lia)) as Hdm.
  pose proof (Z.mod_pos_bound A B HB) as Hr.
  revert Hne Heq Hn. unfold round_half_even.
  destruct (Z.compare_spec (2 * (A mod B)) B) as [C|C|C]; [lia| |];
    intros Hne Heq Hn.
  - assert (B <= Z.abs (B * (A / B - j))) by (rewrite Z.abs_mul; nia). lia.
  - assert (B <= Z.abs (B * (A / B + 1 - j))) by (rewrite Z.abs_mul; nia). lia.
Qed.

(** The exponent at which [(A / B) * 2^ex] is rounded and the size of
    the mantissa there. *)
Lemma rounding_frame (A B ex : Z) :
  0 < A -> 0 < B ->
  ex <= fexp prec emax (Zdigits2 (A / B) + ex) ->
  let n := fexp prec emax (Zdigits2 (A / B) + ex) - ex in
  0 <= n /\ -1074 <= ex + n /\
  0 <= A / (2 ^ n * B) < 2 ^ 53 /\
  (-1074 < ex + n -> 2 ^ 52 <= A / (2 ^ n * B)) /\
  forall s, rounded s A B ex = finish s (round_half_even A (2 ^ n * B)) (ex + n).
Proof.
  intros HA HB Hex. cbv zeta. rewrite fexp_eq in *.
  set (d := Zdigits2 (A / B)) in *.
  set (n := Z.max (d + ex - 53) (-1074) - ex).
  assert (Hn : 0 <= n) by (subst n; lia).
  assert (Hq : 0 <= A / B) by (apply Z.div_pos; lia).
  pose proof (Zdigits2_nonneg (A / B)) as Hd0. fold d in Hd0.
  assert (Hpn : 0 < 2 ^ n) by (apply Z.pow_pos_nonneg; lia).
  assert (Hdiv : A / (2 ^ n * B) = A / B / 2 ^ n)
    by (rewrite (Z.mul_comm (2 ^ n) B); symmetry; apply Z.div_div; lia).
  split; [exact Hn|]. split; [subst n; lia|].
  split; [|split].
  - rewrite Hdiv. split; [apply Z.div_pos; lia|].
    apply Z.div_lt_upper_bound; [lia|].
    rewrite <- Z.pow_add_r by lia.
    destruct (Z.eq_dec (A / B) 0) as [E|E]; [rewrite E; apply Z.pow_pos_nonneg; lia|].
    pose proof (Zdigits2_bounds (A / B) ltac:(lia)) as Hb. fold d in Hb.
    assert (2 ^ d <= 2 ^ (n + 53)) by (apply Z.pow_le_mono_r; subst n; lia).
    lia.
  - intros Hnorm. rewrite Hdiv.
    destruct (Z.eq_dec (A / B) 0) as [E|E].
    { exfalso. subst d n. rewrite E in *. simpl in *. lia. }
    pose proof (Zdigits2_bounds (A / B) ltac:(lia)) as Hb. fold d in Hb.
    pose proof (Zdigits2_pos (A / B) ltac:(lia)) as Hdp. fold d in Hdp.
    assert (Hnd : n = d - 53) by (subst n; lia).
    apply Z.div_le_lower_bound; [lia|].
    rewrite <- Z.pow_add_r by lia.
    replace (n + 52) with (d - 1) by lia. lia.
  - intros s. unfold rounded. rewrite fexp_eq. fold d.
    replace (Z.max 0 (Z.max (d + ex - 53) (-1074) - ex)) with n by (subst n; lia).
    reflexivity.
Qed.

End Finish.

Section Powers.

Lemma q2_pos (e : Z) : (0 < 2 ^ e)%Q.
Proof. apply Qpower_0_lt. reflexivity. Qed.

Lemma q2_add (a b : Z) : (2 ^ (a + b) == 2 ^ a * 2 ^ b)%Q.
Proof. apply Qpower_plus. discriminate. Qed.

Lemma q2_Z (k : Z) : 0 <= k -> (2 ^ k == inject_Z (2 ^ k))%Q.
Proof. intros Hk. symmetry. now apply (Zpower_Qpower 2 k). Qed.

Lemma q2_le (a b : Z) : a <= b -> (2 ^ a <= 2 ^ b)%Q.
Proof. intros H. apply Qpower_le_compat_l; [assumption|discriminate]. Qed.

Lemma q2_lt (a b : Z) : a < b -> (2 ^ a < 2 ^ b)%Q.
Proof. intros H. apply Qpower_lt_compat_l; [assumption|reflexivity]. Qed.

Lemma Qabs_inject (z : Z) : Qabs (inject_Z z) = inject_Z (Z.abs z).
Proof. reflexivity. Qed.

Lemma Qabs_scale (a b u : Q) :
  (0 < u)%Q -> (Qabs (a * u - b * u) == Qabs (a - b) * u)%Q.
Proof.
  intros Hu.
  assert (E : (a * u - b * u == (a - b) * u)%Q) by ring.
  rewrite E, Qabs_Qmult, (Qabs_pos u) by lra. reflexivity.
Qed.

Lemma inject_Z_lt (a b : Z) : a < b -> (inject_Z a < inject_Z b)%Q.
Proof. now rewrite <- Zlt_Qlt. Qed.

Lemma inject_Z_le (a b : Z) : a <= b -> (inject_Z a <= inject_Z b)%Q.
Proof. now rewrite <- Zle_Qle. Qed.

End Powers.

Section Grid.
Import Float Rounding Real.

Lemma value_finite_pos (m : positive) (e : Z) :
  (value (S754_finite false m e) == inject_Z (Zpos m) * 2 ^ e)%Q.
Proof. reflexivity. Qed.

Lemma Qabs_value (s : bool) (m : positive) (e : Z) :
  (Qabs (value (S754_finite s m e)) == inject_Z (Zpos m) * 2 ^ e)%Q.
Proof.
  cbn [value]. rewrite Qabs_Qmult, (Qabs_pos (2 ^ e)%Q)
    by (apply Qlt_le_weak, q2_pos).
  now destruct s.
Qed.

(** Seen from the exponent [e'], a number of the format is a multiple
    of [2^e'] or lies below [2^52 * 2^e']. *)
Lemma grid_cases (g : float) (e' : Z) :
  binary64 g -> -1074 <= e' ->
  (exists j : Z, (value g == inject_Z j * 2 ^ e')%Q) \/
  (-1074 < e' /\ (Qabs (value g) < inject_Z (2 ^ 52) * 2 ^ e')%Q).
Proof.
  intros Hg He'. destruct g as [s|s| |s m e]; try contradiction.
  - left. exists 0. cbn [value]. ring.
  - destruct Hg as (Hm & He & _).
    destruct (Z_le_gt_dec e' e) as [Hle|Hgt].
    + left. exists ((if s then Zneg m else Zpos m) * 2 ^ (e - e')).
      cbn [value]. rewrite inject_Z_mult, <- q2_Z by lia.
      replace e with ((e - e') + e') at 1 by lia.
      rewrite q2_add. ring.
    + right. split; [lia|]. rewrite Qabs_value.
      assert (H1 : (2 ^ e <= 2 ^ (e' - 1))%Q) by (apply q2_le; lia).
      assert (H2 : (2 ^ e' == 2 ^ (e' - 1) * 2)%Q).
      { replace e' with ((e' - 1) + 1) at 1 by lia. now rewrite q2_add. }
      assert (H3 : (inject_Z (Zpos m) < inject_Z (2 ^ 53))%Q) by now apply inject_Z_lt.
      assert (H4 : (inject_Z (2 ^ 53) == 2 * inject_Z (2 ^ 52))%Q) by reflexivity.
      pose proof (q2_pos e) as P1. pose proof (q2_pos (e' - 1)) as P2.
      assert (H5 : (0 < inject_Z (Zpos m))%Q) by (apply (inject_Z_lt 0); lia).
      rewrite H2. nra.
Qed.

End Grid.

Lemma Qabs_cases (a : Q) :
  (0 <= a /\ Qabs a == a)%Q \/ (a <= 0 /\ Qabs a == - a)%Q.
Proof.
  destruct (Qlt_le_dec a 0); [right|left]; split; try lra;
    [apply Qabs_neg|apply Qabs_pos]; lra.
Qed.

Ltac qabs :=
  repeat match goal with
  | |- context [Qabs ?a] =>
      let t := fresh "t" in
      pose proof (Qabs_cases a); set (t := Qabs a) in *; clearbody t
  | H : context [Qabs ?a] |- _ =>
      let t := fresh "t" in
      pose proof (Qabs_cases a); set (t := Qabs a) in *; clearbody t
  end;
  repeat match goal with
  | H : _ \/ _ |- _ => destruct H as [[? ?]|[? ?]]
  end.

Section Nearest.
Import Float Rounding Real.

Lemma inject_Z_succ (m : Z) : (inject_Z (m + 1) == inject_Z m + 1)%Q.
Proof. now rewrite inject_Z_plus. Qed.

Lemma inject_Z_pred (m : Z) : (inject_Z (m - 1) == inject_Z m - 1)%Q.
Proof. unfold Z.sub. now rewrite inject_Z_plus. Qed.

Lemma framed_half (X : Q) (m0 m1 : Z) :
  m0 <= m1 <= m0 + 1 ->
  (inject_Z m0 <= X < inject_Z m0 + 1)%Q ->
  (forall j : Z, (Qabs (X - inject_Z m1) <= Qabs (X - inject_Z j))%Q) ->
  (Qabs (X - inject_Z m1) <= 1 # 2)%Q.
Proof.
  intros Hm HX Hclose.
  destruct (Z.eq_dec m1 m0) as [->|Hne].
  - specialize (Hclose (m0 + 1)). rewrite inject_Z_succ in Hclose.
    qabs; lra.
  - assert (m1 = m0 + 1) as -> by lia.
    specialize (Hclose m0). rewrite inject_Z_succ in *.
    qabs; lra.
Qed.

Lemma threshold_eq :
  (overflow_threshold == (inject_Z (2 ^ 53) - (1 # 2)) * 2 ^ 971)%Q.
Proof. rewrite (q2_Z 971) by lia. reflexivity. Qed.

Lemma framed_dist (x X : Q) (e' : Z) (v : Q) :
  (x == X * 2 ^ e')%Q ->
  (Qabs (x - v * 2 ^ e') == Qabs (X - v) * 2 ^ e')%Q.
Proof. intros ->. apply Qabs_scale, q2_pos. Qed.

Lemma framed_nonneg (x : Q) (m1 e' : Z) : framed x m1 e' -> (0 <= x)%Q.
Proof.
  intros (X & m0 & Hx & He' & Hm0 & Hnorm & Hm1 & HX & Hclose & Htie).
  rewrite Hx. pose proof (q2_pos e').
  assert (0 <= inject_Z m0)%Q by (apply (inject_Z_le 0); lia).
  apply Qmult_le_0_compat; lra.
Qed.

(** Above the threshold the result is the infinity. *)
Lemma framed_overflow (x : Q) (m1 e' : Z) :
  framed x m1 e' -> (overflow_threshold <= x)%Q ->
  finish false m1 e' = S754_infinity false.
Proof.
  intros (X & m0 & Hx & He' & Hm0 & Hnorm & Hm1 & HX & Hclose & Htie) HT.
  pose proof (framed_half X m0 m1 Hm1 HX Hclose) as Hhalf.
  rewrite threshold_eq in HT.
  pose proof (q2_pos e') as Hu. pose proof (q2_pos 971) as HU.
  assert (H0 : (0 <= inject_Z m0)%Q) by (apply (inject_Z_le 0); lia).
  assert (K53 : (inject_Z (2 ^ 53) == 9007199254740992)%Q) by reflexivity.
  assert (Hcases : m1 = 0 \/ 0 < m1 < 2 ^ 53 \/ m1 = 2 ^ 53) by lia.
  destruct Hcases as [->|[Hs| ->]].
  - exfalso. assert (m0 = 0) as -> by lia.
    assert (e' = -1074) as -> by lia.
    assert (Hle : (2 ^ (-1074) <= 2 ^ 971)%Q) by (apply q2_le; lia).
    change (inject_Z 0) with 0%Q in *. nra.
  - rewrite finish_small by lia.
    destruct (Z.leb_spec e' 971) as [Hle|Hgt]; [exfalso|reflexivity].
    assert (HuU : (2 ^ e' <= 2 ^ 971)%Q) by (apply q2_le; lia).
    assert (Hm1' : (inject_Z m1 <= inject_Z (2 ^ 53) - 1)%Q)
      by (rewrite <- inject_Z_pred; apply inject_Z_le; lia).
    assert (HXlt : (X < inject_Z (2 ^ 53) - (1 # 2))%Q).
    { destruct (Z.eq_dec m1 (2 ^ 53 - 1)) as [E|E].
      - destruct (Qlt_le_dec X (inject_Z (2 ^ 53) - (1 # 2))) as [|Hge];
          [assumption|exfalso].
        assert (Hev : Z.even m1 = true).
        { apply (Htie (2 ^ 53)); [lia|]. subst m1.
          rewrite inject_Z_pred in *. qabs; lra. }
        subst m1. discriminate.
      - assert ((inject_Z m1 <= inject_Z (2 ^ 53) - 2)%Q).
        { replace (2 ^ 53) with ((2 ^ 53 - 2) + 2) at 1 by lia.
          rewrite inject_Z_plus. change (inject_Z 2) with 2%Q.
          assert (inject_Z m1 <= inject_Z (2 ^ 53 - 2))%Q
            by (apply inject_Z_le; lia). lra. }
        qabs; lra. }
    assert (0 <= X)%Q by lra. nra.
  - rewrite finish_carry by lia.
    destruct (Z.leb_spec (e' + 1) 971) as [Hle|Hgt]; [exfalso|reflexivity].
    assert (HuU : (2 ^ e' <= 2 ^ 970)%Q) by (apply q2_le; lia).
    assert (H2 : (2 ^ 971 == 2 * 2 ^ 970)%Q) by (rewrite !q2_Z by lia; reflexivity).
    pose proof (q2_pos 970).
    assert (Hm0' : (inject_Z m0 <= inject_Z (2 ^ 53))%Q) by (apply inject_Z_le; lia).
    assert (0 <= X)%Q by lra. nra.
Qed.

(** Below the threshold the result is the number [m1 * 2^e'] of the
    format. *)
Lemma framed_finite (x : Q) (m1 e' : Z) :
  framed x m1 e' -> (x < overflow_threshold)%Q ->
  binary64 (finish false m1 e') /\
  (value (finish false m1 e') == inject_Z m1 * 2 ^ e')%Q /\
  (Z.even m1 = true -> even_mantissa (finish false m1 e')).
Proof.
  intros (X & m0 & Hx & He' & Hm0 & Hnorm & Hm1 & HX & Hclose & Htie) HT.
  pose proof (framed_half X m0 m1 Hm1 HX Hclose) as Hhalf.
  rewrite threshold_eq in HT.
  pose proof (q2_pos e') as Hu. pose proof (q2_pos 971) as HU.
  assert (H0 : (0 <= inject_Z m0)%Q) by (apply (inject_Z_le 0); lia).
  assert (Hcases : m1 = 0 \/ 0 < m1 < 2 ^ 53 \/ m1 = 2 ^ 53) by lia.
  destruct Hcases as [->|[Hs| ->]].
  - rewrite finish_zero. cbn [binary64 value even_mantissa].
    split; [exact I|]. split; [|trivial].
    change (inject_Z 0) with 0%Q. ring.
  - rewrite finish_small by lia.
    destruct (Z.leb_spec e' 971) as [Hle|Hgt].
    + cbn [binary64 value even_mantissa]. rewrite Z2Pos.id by lia.
      split; [lia|]. split; [reflexivity|trivial].
    + exfalso.
      assert (HuU : (2 ^ 972 <= 2 ^ e')%Q) by (apply q2_le; lia).
      assert (H2 : (2 ^ 972 == 2 * 2 ^ 971)%Q) by (rewrite !q2_Z by lia; reflexivity).
      assert (Hm0' : (inject_Z (2 ^ 52) <= inject_Z m0)%Q) by (apply inject_Z_le; lia).
      assert (K : (inject_Z (2 ^ 53) == 2 * inject_Z (2 ^ 52))%Q) by reflexivity.
      assert (K52 : (0 < inject_Z (2 ^ 52))%Q) by reflexivity.
      nra.
  - rewrite finish_carry by lia.
    destruct (Z.leb_spec (e' + 1) 971) as [Hle|Hgt].
    + cbn [binary64 value even_mantissa].
      split; [split; [reflexivity|lia]|]. split; [|reflexivity].
      rewrite q2_add.
      change (inject_Z (Zpos (Z.to_pos (2 ^ 52)))) with (inject_Z (2 ^ 52)).
      assert (K : (inject_Z (2 ^ 53) == 2 * inject_Z (2 ^ 52))%Q) by reflexivity.
      rewrite K. change (2 ^ 1)%Q with 2%Q. ring.
    + exfalso.
      assert (HuU : (2 ^ 971 <= 2 ^ e')%Q) by (apply q2_le; lia).
      assert (HXge : (inject_Z (2 ^ 53) - (1 # 2) <= X)%Q) by (qabs; lra).
      assert (K53 : (inject_Z (2 ^ 53) == 9007199254740992)%Q) by reflexivity.
      nra.
Qed.

(** No number of the format is nearer to [x] than [m1 * 2^e']. *)
Lemma framed_nearest (x : Q) (m1 e' : Z) (g : float) :
  framed x m1 e' -> binary64 g ->
  (Qabs (x - inject_Z m1 * 2 ^ e') <= Qabs (x - value g))%Q.
Proof.
  intros (X & m0 & Hx & He' & Hm0 & Hnorm & Hm1 & HX & Hclose & Htie) Hg.
  pose proof (q2_pos e') as Hu.
  destruct (grid_cases g e' Hg He') as [[j Hj]|[Hn Hlt]].
  - rewrite Hj, !(framed_dist x X e') by assumption.
    apply Qmult_le_compat_r; [apply Hclose|lra].
  - rewrite (framed_dist x X e') by assumption.
    specialize (Hnorm Hn).
    assert (Hm0' : (inject_Z (2 ^ 52) <= inject_Z m0)%Q) by (apply inject_Z_le; lia).
    pose proof (Hclose m0) as Hc.
    assert (Hd : (Qabs (X - inject_Z m1) * 2 ^ e' <= (X - inject_Z m0) * 2 ^ e')%Q).
    { apply Qmult_le_compat_r; [|lra]. qabs; lra. }
    assert (Hp : (inject_Z (2 ^ 52) * 2 ^ e' <= inject_Z m0 * 2 ^ e')%Q)
      by (apply Qmult_le_compat_r; lra).
    set (u := (2 ^ e')%Q) in *.
    assert (Hxe : (x == X * u)%Q) by exact Hx.
    qabs; lra.
Qed.

(** When another number of the format is as near, [m1] is even. *)
Lemma framed_tie (x : Q) (m1 e' : Z) (g : float) :
  framed x m1 e' -> binary64 g ->
  (Qabs (x - value g) == Qabs (x - inject_Z m1 * 2 ^ e'))%Q ->
  ~ (value g == inject_Z m1 * 2 ^ e')%Q ->
  Z.even m1 = true.
Proof.
  intros (X & m0 & Hx & He' & Hm0 & Hnorm & Hm1 & HX & Hclose & Htie) Hg Heq Hne.
  pose proof (q2_pos e') as Hu.
  destruct (grid_cases g e' Hg He') as [[j Hj]|[Hn Hlt]].
  - rewrite Hj in Heq, Hne. rewrite !(framed_dist x X e') in Heq by assumption.
    apply (Htie j).
    + intros ->. now apply Hne.
    + apply Qmult_inj_r in Heq; [exact Heq|lra].
  - exfalso. rewrite (framed_dist x X e') in Heq by assumption.
    specialize (Hnorm Hn).
    assert (Hm0' : (inject_Z (2 ^ 52) <= inject_Z m0)%Q) by (apply inject_Z_le; lia).
    pose proof (Hclose m0) as Hc.
    assert (Hd : (Qabs (X - inject_Z m1) * 2 ^ e' <= (X - inject_Z m0) * 2 ^ e')%Q).
    { apply Qmult_le_compat_r; [|lra]. qabs; lra. }
    assert (Hp : (inject_Z (2 ^ 52) * 2 ^ e' <= inject_Z m0 * 2 ^ e')%Q)
      by (apply Qmult_le_compat_r; lra).
    set (u := (2 ^ e')%Q) in *.
    assert (Hxe : (x == X * u)%Q) by exact Hx.
    qabs; lra.
Qed.

Lemma finish_nonneg (m1 e' : Z) : 0 <= m1 -> More.nonneg (finish false m1 e') = true.
Proof.
  intros Hm. unfold finish.
  assert (0 <= m1 / 2 ^ Z.max 0 (fexp prec emax (Zdigits2 m1 + e') - e'))
    by (apply Z.div_pos; [lia|apply Z.pow_pos_nonneg; lia]).
  destruct (m1 / _) as [|p|p]; [reflexivity| |lia].
  now destruct (_ <=? _).
Qed.

(** The result of the rounding is what [x] rounds to. *)
Theorem framed_rounds_to (x : Q) (m1 e' : Z) :
  framed x m1 e' ->
  rounds_to x (finish false m1 e') /\ More.nonneg (finish false m1 e') = true.
Proof.
  intros Hf. pose proof (framed_nonneg x m1 e' Hf) as Hx0.
  assert (Habs : (Qabs x == x)%Q) by now apply Qabs_pos.
  split.
  - split.
    + rewrite Habs. intros HT.
      replace (Qle_bool 0 x) with true by (symmetry; now apply Qle_bool_iff).
      now apply (framed_overflow x).
    + rewrite Habs. intros HT.
      destruct (framed_finite x m1 e' Hf HT) as (Hb & Hv & Hev).
      split; [split; [exact Hb|]|].
      * intros g Hg. rewrite Hv. now apply framed_nearest.
      * intros g [Hg Hnear] Hne. apply Hev.
        apply (framed_tie x m1 e' g Hf Hg).
        -- apply Qle_antisym.
           ++ rewrite <- Hv. now apply Hnear.
           ++ now apply framed_nearest.
        -- now rewrite <- Hv.
  - destruct Hf as (X & m0 & _ & _ & Hm0 & _ & Hm1 & _).
    apply finish_nonneg. lia.
Qed.

End Nearest.

Section Rounded.
Import Float Rounding Real.

Lemma frac_sub (A B j : Z) :
  0 < B ->
  (inject_Z A / inject_Z B - inject_Z j == inject_Z (A - B * j) / inject_Z B)%Q.
Proof.
  intros HB. unfold Z.sub. rewrite inject_Z_plus, inject_Z_opp, inject_Z_mult.
  assert (~ inject_Z B == 0)%Q.
  { intros H. apply (inject_Z_lt 0) in HB. change (inject_Z 0) with 0%Q in HB. lra. }
  field. assumption.
Qed.

Lemma Qabs_frac (N D : Z) :
  0 < D -> (Qabs (inject_Z N / inject_Z D) == inject_Z (Z.abs N) / inject_Z D)%Q.
Proof.
  intros HD. apply (inject_Z_lt 0) in HD. change (inject_Z 0) with 0%Q in HD.
  unfold Qdiv. rewrite Qabs_Qmult, Qabs_Qinv, Qabs_inject.
  rewrite (Qabs_pos (inject_Z D)) by lra. reflexivity.
Qed.

Lemma frac_le (N M D : Z) :
  0 < D -> (inject_Z N / inject_Z D <= inject_Z M / inject_Z D)%Q <-> N <= M.
Proof.
  intros HD. pose proof (inject_Z_lt 0 D HD) as HD'.
  change (inject_Z 0) with 0%Q in HD'.
  unfold Qdiv. rewrite Qmult_le_r by (apply Qinv_lt_0_compat; exact HD').
  now rewrite <- Zle_Qle.
Qed.

Theorem rounded_framed (A B ex : Z) (x : Q) :
  0 < A -> 0 < B ->
  ex <= fexp prec emax (Zdigits2 (A / B) + ex) ->
  (x == inject_Z A / inject_Z B * 2 ^ ex)%Q ->
  exists m1 e',
    framed x m1 e' /\ forall s, rounded s A B ex = finish s m1 e'.
Proof.
  intros HA HB Hex Hx.
  destruct (rounding_frame A B ex HA HB Hex) as (Hn & He' & Hm0 & Hnorm & Hfin).
  set (n := fexp prec emax (Zdigits2 (A / B) + ex) - ex) in *.
  assert (Hpn : 0 < 2 ^ n) by (apply Z.pow_pos_nonneg; lia).
  assert (HB' : 0 < 2 ^ n * B) by (apply Z.mul_pos_pos; assumption).
  set (B' := 2 ^ n * B) in *.
  exists (round_half_even A B'), (ex + n). split; [|exact Hfin].
  exists (inject_Z A / inject_Z B')%Q, (A / B').
  pose proof (inject_Z_lt 0 B HB) as HBq. pose proof (inject_Z_lt 0 B' HB') as HBq'.
  change (inject_Z 0) with 0%Q in HBq, HBq'.
  split; [|split; [exact He'|split; [exact Hm0|split; [exact Hnorm|]]]].
  { rewrite Hx, q2_add, (q2_Z n) by lia. subst B'. rewrite inject_Z_mult.
    pose proof (inject_Z_lt 0 (2 ^ n) Hpn) as Hq. change (inject_Z 0) with 0%Q in Hq.
    field. split; lra. }
  split; [apply round_half_even_bounds; assumption|].
  pose proof (Z.div_mod A B' ltac:(lia)) as Hdm.
  pose proof (Z.mod_pos_bound A B' HB') as Hr.
  split; [|split].
  - split.
    + apply Qle_shift_div_l; [exact HBq'|].
      rewrite <- inject_Z_mult. apply inject_Z_le. nia.
    + apply Qlt_shift_div_r; [exact HBq'|].
      rewrite <- inject_Z_succ, <- inject_Z_mult. apply inject_Z_lt. nia.
  - intros j. rewrite !frac_sub, !Qabs_frac by assumption.
    apply frac_le; [assumption|]. now apply round_half_even_closest.
  - intros j Hne Heq. rewrite !frac_sub, !Qabs_frac in Heq by assumption.
    apply (round_half_even_ties A B' j); [assumption|assumption|].
    apply Z.le_antisymm; apply (frac_le _ _ B' HB'); rewrite Heq; apply Qle_refl.
Qed.

(** What [binary_round_aux] makes of the number [(A / B) * 2^ex]. *)
Theorem rounded_rounds_to (A B ex : Z) (x : Q) :
  0 < A -> 0 < B ->
  ex <= fexp prec emax (Zdigits2 (A / B) + ex) ->
  (x == inject_Z A / inject_Z B * 2 ^ ex)%Q ->
  rounds_to x (rounded false A B ex) /\ More.nonneg (rounded false A B ex) = true.
Proof.
  intros HA HB Hex Hx.
  destruct (rounded_framed A B ex x HA HB Hex Hx) as (m1 & e' & Hf & ->).
  now apply framed_rounds_to.
Qed.

End Rounded.

Section Operations.
Import Float Rounding Real.

Lemma fexp_mono (a b : Z) : a <= b -> fexp prec emax a <= fexp prec emax b.
Proof. rewrite !fexp_eq. lia. Qed.

Lemma q2_1 : (2 ^ 0 == 1)%Q.
Proof. reflexivity. Qed.

(** The division core hands [binary_round_aux] the quotient of
    [m1 * 2^sh] by [m2] at an exponent that is not above the one of the
    format. *)
Lemma div_core_rounded (s : bool) (m1 m2 : positive) (e1 e2 : Z) :
  exists sh e' q l,
    0 <= sh /\ e' + sh = e1 - e2 /\
    e' <= fexp prec emax (Zdigits2 (Zpos m1 * 2 ^ sh / Zpos m2) + e') /\
    SFdiv_core_binary prec emax (Zpos m1) e1 (Zpos m2) e2 = (q, e', l) /\
    binary_round_aux prec emax s q e' l
    = rounded s (Zpos m1 * 2 ^ sh) (Zpos m2) e'.
Proof.
  unfold SFdiv_core_binary.
  set (E := Zdigits2 (Zpos m1) + e1 - (Zdigits2 (Zpos m2) + e2)).
  set (e' := Z.min (fexp prec emax E) (e1 - e2)).
  set (sh := e1 - e2 - e').
  assert (Hsh : 0 <= sh) by (subst sh e'; lia).
  exists sh, e'.
  assert (Hp : 0 < 2 ^ sh) by (apply Z.pow_pos_nonneg; lia).
  assert (Hm' : match sh with
                | Z0 => Zpos m1 | Zpos _ => Z.shiftl (Zpos m1) sh | Zneg _ => 0
                end = Zpos m1 * 2 ^ sh).
  { destruct sh as [|p|p] eqn:Es; [simpl; lia| |lia].
    now rewrite Z.shiftl_mul_pow2 by lia. }
  rewrite Hm'. clear Hm'.
  set (m' := Zpos m1 * 2 ^ sh).
  assert (Hm0 : 0 <= m') by (subst m'; lia).
  pose proof (binary_round_aux_rounded s m' (Zpos m2) e'
                (new_location (Zpos m2) (m' mod Zpos m2)) Hm0 ltac:(lia)
                (locate_new_location m' (Zpos m2) Hm0 ltac:(lia))) as H.
  unfold Z.div at 1, Z.modulo in H.
  destruct (Z.div_eucl m' (Zpos m2)) as [q r] eqn:Hqr.
  exists q, (new_location (Zpos m2) r).
  split; [exact Hsh|]. split; [subst sh; lia|].
  split; [|split; [reflexivity|exact H]].
  - apply Z.le_trans with (fexp prec emax E); [subst e'; lia|].
    apply fexp_mono.
    assert (Hd : Zdigits2 (Zpos m1) + sh - Zdigits2 (Zpos m2) <= Zdigits2 (m' / Zpos m2)).
    { pose proof (Zdigits2_bounds (Zpos m1) ltac:(lia)) as B1.
      pose proof (Zdigits2_bounds (Zpos m2) ltac:(lia)) as B2.
      pose proof (Zdigits2_pos (Zpos m1) ltac:(lia)) as P1.
      pose proof (Zdigits2_pos (Zpos m2) ltac:(lia)) as P2.
      pose proof (Zdigits2_nonneg (m' / Zpos m2)) as N.
      set (d1 := Zdigits2 (Zpos m1)) in *. set (d2 := Zdigits2 (Zpos m2)) in *.
      destruct (Z_le_gt_dec (d1 + sh - d2) 0) as [|Hk]; [lia|].
      assert (k0 : 0 <= d1 + sh - d2 - 1) by lia.
      pose proof (Zdigits2_ge_pow (m' / Zpos m2) (d1 + sh - d2 - 1)) as G.
      assert (2 ^ (d1 + sh - d2 - 1) <= m' / Zpos m2); [|lia].
      apply Z.div_le_lower_bound; [lia|].
      apply Z.le_trans with (2 ^ d2 * 2 ^ (d1 + sh - d2 - 1)).
      - apply Z.mul_le_mono_nonneg_r; [apply Z.pow_nonneg|]; lia.
      - rewrite <- Z.pow_add_r by lia.
        replace (d2 + (d1 + sh - d2 - 1)) with ((d1 - 1) + sh) by lia.
        rewrite Z.pow_add_r by lia. subst m'.
        apply Z.mul_le_mono_nonneg_r; lia. }
    subst E sh. lia.
Qed.

Lemma rounds_to_wd (q q' : Q) (f : float) :
  (q == q')%Q -> rounds_to q f -> rounds_to q' f.
Proof.
  intros E [H1 H2]. unfold rounds_to, nearest in *.
  assert (Eb : Qle_bool 0 q' = Qle_bool 0 q).
  { destruct (Qle_bool 0 q) eqn:B.
    - apply Qle_bool_iff. rewrite <- E. now apply Qle_bool_iff.
    - destruct (Qle_bool 0 q') eqn:B'; [|reflexivity].
      apply Qle_bool_iff in B'. rewrite <- E in B'.
      apply Qle_bool_iff in B'. congruence. }
  rewrite Eb. split.
  - intros HT. apply H1. now rewrite E.
  - intros HT. rewrite <- E in HT. destruct (H2 HT) as [[Hb Hn] Ht].
    split; [split; [exact Hb|]|].
    + intros g Hg. rewrite <- E. now apply Hn.
    + intros g [Hg Hn'] Hne. apply (Ht g); [|exact Hne].
      split; [exact Hg|]. intros h Hh. rewrite E. now apply Hn'.
Qed.

(** [of_ratio] is the rounding of the quotient. *)
Theorem of_ratio_rounds_to (num den : positive) :
  rounds_to (inject_Z (Zpos num) / inject_Z (Zpos den)) (of_ratio false num den) /\
  More.nonneg (of_ratio false num den) = true.
Proof.
  unfold of_ratio.
  destruct (div_core_rounded false num den 0 0)
    as (sh & e' & q & l & Hsh & He & Hpre & -> & ->).
  assert (Hp : 0 < 2 ^ sh) by (apply Z.pow_pos_nonneg; lia).
  apply rounded_rounds_to; [apply Z.mul_pos_pos; lia|lia|exact Hpre|].
  rewrite inject_Z_mult, <- (q2_Z sh) by lia.
  assert (E : (2 ^ sh * 2 ^ e' == 1)%Q).
  { rewrite <- q2_add. replace (sh + e') with 0 by lia. reflexivity. }
  assert (D : ~ (inject_Z (Zpos den) == 0)%Q) by discriminate.
  transitivity (inject_Z (Zpos num) / inject_Z (Zpos den) * (2 ^ sh * 2 ^ e'))%Q.
  - rewrite E. field. exact D.
  - field. exact D.
Qed.

End Operations.

Section Literals.
Import Float Rounding Real Spec.

Lemma rounds_to_zero (s : bool) : rounds_to 0 (S754_zero s).
Proof.
  split.
  - intros H. exfalso. revert H. apply Qlt_not_le. reflexivity.
  - intros _. split; [split; [exact I|]|].
    + intros g _. cbn [value].
      setoid_replace (0 - 0)%Q with 0%Q using relation Qeq by ring.
      apply Qabs_nonneg.
    + intros; exact I.
Qed.

Lemma of_decimal_rounds_to (n : Z) (k : nat) :
  0 <= n ->
  rounds_to (inject_Z n / inject_Z (10 ^ Z.of_nat k)) (of_decimal n k) /\
  More.nonneg (of_decimal n k) = true.
Proof.
  intros Hn. destruct n as [|p|p]; [| |lia]; cbn [of_decimal].
  - split; [|reflexivity].
    apply (rounds_to_wd 0); [|apply rounds_to_zero].
    unfold Qdiv. change (inject_Z 0) with 0%Q. ring.
  - assert (Hk : 0 < 10 ^ Z.of_nat k) by (apply Z.pow_pos_nonneg; lia).
    pose proof (of_ratio_rounds_to p (Z.to_pos (10 ^ Z.of_nat k))) as H.
    now rewrite Z2Pos.id in H by lia.
Qed.








End Literals.

Section Signs.
Import Float Rounding Real.

Lemma binary_round_aux_opp (m e : Z) (l : location) :
  binary_round_aux prec emax true m e l
  = SFopp (binary_round_aux prec emax false m e l).
Proof.
  unfold binary_round_aux.
  destruct (shr_fexp prec emax m e l) as [mrs e1].
  destruct (shr_fexp prec emax _ e1 loc_Exact) as [mrs' e2].
  destruct (shr_m mrs') as [|p|p]; try reflexivity.
  now destruct (e2 <=? emax - prec).
Qed.

Lemma of_ratio_opp (num den : positive) :
  of_ratio true num den = SFopp (of_ratio false num den).
Proof.
  unfold of_ratio.
  destruct (SFdiv_core_binary prec emax (Zpos num) 0 (Zpos den) 0) as [[mz ez] lz].
  apply binary_round_aux_opp.
Qed.

Lemma value_opp (f : float) : (value (SFopp f) == - value f)%Q.
Proof.
  destruct f as [s|s| |s m e]; cbn [SFopp value]; try ring.
  destruct s; cbn [negb].
  - change (inject_Z (Zneg m)) with (- inject_Z (Zpos m))%Q. ring.
  - change (inject_Z (Zneg m)) with (- inject_Z (Zpos m))%Q. ring.
Qed.

Lemma binary64_opp (f : float) : binary64 (SFopp f) <-> binary64 f.
Proof. now destruct f. Qed.

Lemma SFopp_involutive (f : float) : SFopp (SFopp f) = f.
Proof. destruct f as [s|s| |s m e]; cbn [SFopp]; now rewrite ?negb_involutive. Qed.

Lemma nearest_opp (q : Q) (f : float) : nearest q f -> nearest (- q) (SFopp f).
Proof.
  intros [Hb Hn]. split; [now apply binary64_opp|].
  intros g Hg. specialize (Hn (SFopp g) (proj2 (binary64_opp g) Hg)).
  rewrite !value_opp in *.
  assert (E1 : (- q - - value f == - (q - value f))%Q) by ring.
  assert (E2 : (q - - value g == - (- q - value g))%Q) by ring.
  rewrite E1, Qabs_opp. rewrite E2, Qabs_opp in Hn. exact Hn.
Qed.

Lemma rounds_to_opp (q : Q) (f : float) : rounds_to q f -> rounds_to (- q) (SFopp f).
Proof.
  intros [H1 H2]. split.
  - rewrite Qabs_opp. intros HT. rewrite (H1 HT). cbn [SFopp]. f_equal.
    assert (HT0 : (0 < overflow_threshold)%Q) by reflexivity.
    destruct (Qle_bool 0 q) eqn:B, (Qle_bool 0 (- q)) eqn:B'; try reflexivity.
    + apply Qle_bool_iff in B, B'.
      assert (E : (q == 0)%Q) by lra. rewrite E in HT. exfalso.
      revert HT. apply Qlt_not_le. reflexivity.
    + exfalso.
      assert (~ (0 <= q)%Q) by (intros C; apply Qle_bool_iff in C; congruence).
      assert (~ (0 <= - q)%Q) by (intros C; apply Qle_bool_iff in C; congruence).
      lra.
  - rewrite Qabs_opp. intros HT. destruct (H2 HT) as [Hn Ht].
    split; [now apply nearest_opp|].
    intros g Hg Hne.
    assert (Hev : even_mantissa f).
    { apply (Ht (SFopp g)).
      - apply nearest_opp in Hg.
        destruct Hg as [Hb Hg]. split; [exact Hb|].
        intros h Hh. specialize (Hg h Hh).
        assert (E : (- - q == q)%Q) by ring. now rewrite E in Hg.
      - rewrite value_opp. rewrite value_opp in Hne. lra. }
    now destruct f.
Qed.

End Signs.

Section RoundDecimal.
Import Float Rounding Real.

Lemma round_opp (x : float) (k : nat) : round (SFopp x) k = SFopp (round x k).
Proof.
  destruct x as [s|s| |s m e]; try reflexivity.
  cbn [SFopp round]. cbv zeta.
  destruct (match e with Zneg p => _ | _ => _ end) as [|p|p]; try reflexivity.
  destruct s; cbn [negb]; rewrite of_ratio_opp; [|reflexivity].
  now rewrite SFopp_involutive.
Qed.

Lemma round_half_even_int (A B : Z) :
  0 < B ->
  nearest_int (inject_Z A / inject_Z B) (round_half_even A B).
Proof.
  intros HB. pose proof (inject_Z_lt 0 B HB) as HB'.
  change (inject_Z 0) with 0%Q in HB'.
  pose proof (round_half_even_nearest A B HB) as Hn.
  assert (E : (Qabs (inject_Z A / inject_Z B - inject_Z (round_half_even A B))
               == inject_Z (Z.abs (A - B * round_half_even A B)) / inject_Z B)%Q).
  { rewrite frac_sub by assumption. now apply Qabs_frac. }
  split.
  - rewrite E. apply Qle_shift_div_r; [assumption|].
    assert (E2 : ((1 # 2) * inject_Z B == inject_Z B / 2)%Q) by (field).
    rewrite E2. apply Qle_shift_div_l; [reflexivity|].
    change 2%Q with (inject_Z 2). rewrite <- inject_Z_mult.
    apply inject_Z_le. lia.
  - intros Ht. rewrite E in Ht.
    apply round_half_even_tie; [assumption|].
    assert (Hz : 2 * Z.abs (A - B * round_half_even A B) = B).
    { apply inject_Z_injective. rewrite inject_Z_mult.
      assert (Hq : (inject_Z (Z.abs (A - B * round_half_even A B))
                    == (1 # 2) * inject_Z B)%Q).
      { rewrite <- Ht. field. lra. }
      rewrite Hq. change (inject_Z 2) with 2%Q. field. }
    pose proof (Z.div_mod A B ltac:(lia)) as Hdm.
    pose proof (Z.mod_pos_bound A B HB) as Hr.
    revert Hz. unfold round_half_even.
    destruct (Z.compare_spec (2 * (A mod B)) B) as [C|C|C]; [lia| |]; intros Hz.
    + nia.
    + nia.
Qed.

Lemma nearest_int_exact (N : Z) (q : Q) : (q == inject_Z N)%Q -> nearest_int q N.
Proof.
  intros E. split.
  - rewrite E. assert (E0 : (inject_Z N - inject_Z N == 0)%Q) by ring.
    rewrite E0. discriminate.
  - rewrite E. assert (E0 : (inject_Z N - inject_Z N == 0)%Q) by ring.
    rewrite E0. discriminate.
Qed.

Lemma nearest_int_wd (q q' : Q) (N : Z) :
  (q == q')%Q -> nearest_int q N -> nearest_int q' N.
Proof. intros E [H1 H2]. split; rewrite <- E; assumption. Qed.

Lemma pow10_pos (k : nat) : 0 < 10 ^ Z.of_nat k.
Proof. apply Z.pow_pos_nonneg; lia. Qed.

(** [round] on a positive float: the decimal nearest to the float's
    exact value, and the float nearest to that decimal. *)
Lemma round_pos_rounds_to (m : positive) (e : Z) (k : nat) :
  exists N : Z,
    0 <= N /\
    nearest_int (inject_Z (10 ^ Z.of_nat k) * value (S754_finite false m e)) N /\
    rounds_to (inject_Z N / inject_Z (10 ^ Z.of_nat k))
              (round (S754_finite false m e) k) /\
    More.nonneg (round (S754_finite false m e) k) = true.
Proof.
  pose proof (pow10_pos k) as Hs.
  set (scale := 10 ^ Z.of_nat k) in *.
  set (n := match e with
            | Zneg p => round_half_even (Zpos m * scale) (2 ^ Zpos p)
            | _ => Zpos m * scale * 2 ^ e
            end).
  assert (Hn0 : 0 <= n).
  { unfold n. destruct e as [|p|p].
    - cbn. lia.
    - assert (0 < 2 ^ Zpos p) by (apply Z.pow_pos_nonneg; lia). nia.
    - apply round_half_even_nonneg; [lia|]. apply Z.pow_pos_nonneg; lia. }
  assert (Hni : nearest_int (inject_Z scale * value (S754_finite false m e)) n).
  { unfold n, value. destruct e as [|p|p].
    - apply nearest_int_exact. rewrite !inject_Z_mult. change (2 ^ 0)%Q with 1%Q.
      change (inject_Z (2 ^ 0)) with 1%Q. ring.
    - apply nearest_int_exact. rewrite !inject_Z_mult.
      rewrite (q2_Z (Zpos p)) by lia. ring.
    - assert (HB : 0 < 2 ^ Zpos p) by (apply Z.pow_pos_nonneg; lia).
      refine (nearest_int_wd _ _ _ _ (round_half_even_int _ _ HB)).
      rewrite inject_Z_mult.
      change (Zneg p) with (- Zpos p). rewrite Qpower_opp.
      rewrite <- (q2_Z (Zpos p)) by lia.
      field. pose proof (q2_pos (Zpos p)). lra. }
  exists n. split; [exact Hn0|]. split; [exact Hni|].
  change (round (S754_finite false m e) k)
    with (match n with Zpos p => of_ratio false p (Z.to_pos scale)
                  | _ => S754_zero false end).
  destruct n as [|p|p]; [| |lia].
  - split; [|reflexivity].
    change (inject_Z 0) with 0%Q.
    refine (rounds_to_wd _ _ _ _ (rounds_to_zero false)).
    unfold Qdiv. ring.
  - destruct (of_ratio_rounds_to p (Z.to_pos scale)) as [Hr Hnn].
    split; [|exact Hnn].
    rewrite Z2Pos.id in Hr by assumption. exact Hr.
Qed.

End RoundDecimal.

Section Arithmetic.
Import Float Rounding Real.

Lemma binary_round_aux_exact (m e : Z) :
  0 <= m ->
  binary_round_aux prec emax false m e loc_Exact = rounded false m 1 e.
Proof.
  intros Hm.
  pose proof (binary_round_aux_rounded false m 1 e loc_Exact Hm ltac:(lia)) as H.
  rewrite Z.div_1_r in H. apply H, locate_exact.
Qed.

(** A positive integer at an exponent that is not above the one of the
    format rounds to the number it stands for. *)
Lemma exact_rounds_to (m e : Z) :
  0 < m -> e <= fexp prec emax (Zdigits2 m + e) ->
  rounds_to (inject_Z m * 2 ^ e) (binary_round_aux prec emax false m e loc_Exact) /\
  More.nonneg (binary_round_aux prec emax false m e loc_Exact) = true.
Proof.
  intros Hm Hpre. rewrite binary_round_aux_exact by lia.
  apply rounded_rounds_to; [assumption|lia|now rewrite Z.div_1_r|].
  change (inject_Z 1) with 1%Q. field.
Qed.

Lemma iter_xO_pow (m d : positive) :
  Zpos (Pos.iter xO m d) = Zpos m * 2 ^ Zpos d.
Proof.
  change (Pos.iter xO m d) with (Zpower.shift_pos d m).
  rewrite Zpower.shift_pos_correct.
  change (Z.pow_pos 2 d) with (2 ^ Zpos d). lia.
Qed.

Lemma Zdigits2_shift (m d : Z) :
  0 < m -> 0 <= d -> Zdigits2 (m * 2 ^ d) = Zdigits2 m + d.
Proof.
  intros Hm Hd. pose proof (Zdigits2_bounds m Hm) as B.
  pose proof (Zdigits2_pos m Hm) as P.
  assert (Hp : 0 < 2 ^ d) by (apply Z.pow_pos_nonneg; lia).
  apply Zdigits2_unique; [|lia].
  replace (Zdigits2 m + d - 1) with (Zdigits2 m - 1 + d) by lia.
  rewrite !Z.pow_add_r by lia. nia.
Qed.

Lemma binary_round_rounds_to (m : positive) (e : Z) :
  rounds_to (inject_Z (Zpos m) * 2 ^ e) (binary_round prec emax false m e) /\
  More.nonneg (binary_round prec emax false m e) = true.
Proof.
  unfold binary_round, shl_align.
  change (Zpos (digits2_pos m)) with (Zdigits2 (Zpos m)).
  set (e' := fexp prec emax (Zdigits2 (Zpos m) + e)).
  destruct (e' - e) as [|d|d] eqn:Ed.
  - apply exact_rounds_to; [lia|fold e'; lia].
  - apply exact_rounds_to; [lia|fold e'; lia].
  - rewrite iter_xO_pow.
    assert (Hp : 0 < 2 ^ Zpos d) by (apply Z.pow_pos_nonneg; lia).
    destruct (exact_rounds_to (Zpos m * 2 ^ Zpos d) e') as [Hr Hn].
    + nia.
    + rewrite Zdigits2_shift by lia.
      replace (Zdigits2 (Zpos m) + Zpos d + e') with (Zdigits2 (Zpos m) + e) by lia.
      fold e'. lia.
    + split; [|exact Hn]. refine (rounds_to_wd _ _ _ _ Hr).
      rewrite inject_Z_mult, <- (q2_Z (Zpos d)) by lia.
      replace e with (Zpos d + e') by lia. rewrite q2_add. ring.
Qed.

Lemma binary_round_opp (m : positive) (e : Z) :
  binary_round prec emax true m e = SFopp (binary_round prec emax false m e).
Proof.
  unfold binary_round. destruct (shl_align m e _) as [mz ez].
  apply binary_round_aux_opp.
Qed.

(** [binary_normalize] rounds the integer [M] scaled by [2^e]. *)
Lemma binary_normalize_rounds_to (M e : Z) :
  rounds_to (inject_Z M * 2 ^ e) (binary_normalize prec emax M e false).
Proof.
  destruct M as [|m|m]; cbn [binary_normalize].
  - refine (rounds_to_wd _ _ _ _ (rounds_to_zero false)).
    change (inject_Z 0) with 0%Q. ring.
  - apply binary_round_rounds_to.
  - rewrite binary_round_opp.
    refine (rounds_to_wd _ _ _ _ (rounds_to_opp _ _ (proj1 (binary_round_rounds_to m e)))).
    change (inject_Z (Zneg m)) with (- inject_Z (Zpos m))%Q. ring.
Qed.

(** An integer literal stands for its integer. *)
Lemma of_Z_rounds_to (n : Z) : rounds_to (inject_Z n) (of_Z n).
Proof.
  refine (rounds_to_wd _ _ _ _ (binary_normalize_rounds_to n 0)).
  change (2 ^ 0)%Q with 1%Q. ring.
Qed.

(** The quotient of two positive floats. *)
Lemma fdiv_rounds_to (mx my : positive) (ex ey : Z) :
  rounds_to (value (S754_finite false mx ex) / value (S754_finite false my ey))
            (fdiv (S754_finite false mx ex) (S754_finite false my ey)) /\
  More.nonneg (fdiv (S754_finite false mx ex) (S754_finite false my ey)) = true.
Proof.
  unfold fdiv, SFdiv. cbn [xorb].
  destruct (div_core_rounded false mx my ex ey)
    as (sh & e' & q & l & Hsh & He & Hpre & -> & ->).
  assert (Hp : 0 < 2 ^ sh) by (apply Z.pow_pos_nonneg; lia).
  apply rounded_rounds_to; [apply Z.mul_pos_pos; lia|lia|exact Hpre|].
  cbn [value]. rewrite inject_Z_mult, <- (q2_Z sh) by lia.
  assert (E : (2 ^ ex == 2 ^ sh * 2 ^ e' * 2 ^ ey)%Q).
  { rewrite <- !q2_add. replace (sh + e' + ey) with ex by lia. reflexivity. }
  rewrite E.
  assert (D : ~ (inject_Z (Zpos my) == 0)%Q) by discriminate.
  pose proof (q2_pos ey) as Py.
  field. split; [exact D|lra].
Qed.

(** The product of two positive floats, one of them with a full
    mantissa. *)
Lemma fmul_rounds_to (mx my : positive) (ex ey : Z) :
  2 ^ 52 <= Zpos my ->
  rounds_to (value (S754_finite false mx ex) * value (S754_finite false my ey))
            (fmul (S754_finite false mx ex) (S754_finite false my ey)) /\
  More.nonneg (fmul (S754_finite false mx ex) (S754_finite false my ey)) = true.
Proof.
  intros Hy. unfold fmul, SFmul. cbn [xorb].
  destruct (exact_rounds_to (Zpos (mx * my)) (ex + ey)) as [Hr Hn].
  - lia.
  - assert (53 <= Zdigits2 (Zpos (mx * my))).
    { apply (Zdigits2_ge_pow _ 52); [|lia]. rewrite Pos2Z.inj_mul. nia. }
    rewrite fexp_eq. lia.
  - split; [|exact Hn]. refine (rounds_to_wd _ _ _ _ Hr).
    cbn [value]. rewrite Pos2Z.inj_mul, inject_Z_mult, q2_add. ring.
Qed.

Lemma shl_align_value (mx : positive) (ex ez : Z) :
  ez <= ex -> Zpos (fst (shl_align mx ex ez)) = Zpos mx * 2 ^ (ex - ez).
Proof.
  intros H. unfold shl_align.
  destruct (ez - ex) as [|d|d] eqn:Ed; cbn [fst].
  - replace (ex - ez) with 0 by lia. cbn. lia.
  - lia.
  - rewrite iter_xO_pow. replace (ex - ez) with (Zpos d) by lia. reflexivity.
Qed.

Lemma value_finite (s : bool) (m : positive) (e : Z) :
  (value (S754_finite s m e) == inject_Z (cond_Zopp s (Zpos m)) * 2 ^ e)%Q.
Proof. now destruct s. Qed.

(** The difference of two finite floats. *)
Lemma fsub_rounds_to (sx sy : bool) (mx my : positive) (ex ey : Z) :
  rounds_to (value (S754_finite sx mx ex) - value (S754_finite sy my ey))
            (fsub (S754_finite sx mx ex) (S754_finite sy my ey)).
Proof.
  unfold fsub, SFsub.
  change (IntDef.Z.min ex ey) with (Z.min ex ey).
  set (ez := Z.min ex ey).
  refine (rounds_to_wd _ _ _ _ (binary_normalize_rounds_to _ ez)).
  rewrite !value_finite.
  rewrite (shl_align_value mx ex ez), (shl_align_value my ey ez) by (subst ez; lia).
  assert (Ex : (2 ^ ex == inject_Z (2 ^ (ex - ez)) * 2 ^ ez)%Q).
  { rewrite <- q2_Z by (subst ez; lia). rewrite <- q2_add.
    replace (ex - ez + ez) with ex by lia. reflexivity. }
  assert (Ey : (2 ^ ey == inject_Z (2 ^ (ey - ez)) * 2 ^ ez)%Q).
  { rewrite <- q2_Z by (subst ez; lia). rewrite <- q2_add.
    replace (ey - ez + ez) with ey by lia. reflexivity. }
  rewrite Ex, Ey.
  unfold Z.sub at 1. rewrite inject_Z_plus, inject_Z_opp.
  destruct sx, sy; cbn [cond_Zopp]; rewrite ?inject_Z_opp, !inject_Z_mult; ring.
Qed.

End Arithmetic.

Section Thresholds.
Import Float Rounding Real.

Lemma binary64_below (f : float) :
  binary64 f -> (Qabs (value f) < overflow_threshold)%Q.
Proof.
  destruct f as [s|s| |s m e]; try contradiction.
  - intros _. reflexivity.
  - intros (Hm & He & _). rewrite Qabs_value, threshold_eq.
    assert (H1 : (2 ^ e <= 2 ^ 971)%Q) by (apply q2_le; lia).
    assert (H2 : (inject_Z (Zpos m) <= inject_Z (2 ^ 53) - 1)%Q).
    { rewrite <- inject_Z_pred. apply inject_Z_le. lia. }
    assert (H3 : (0 < inject_Z (Zpos m))%Q) by (apply (inject_Z_lt 0); lia).
    pose proof (q2_pos e). pose proof (q2_pos 971).
    assert (K53 : (inject_Z (2 ^ 53) == 9007199254740992)%Q) by reflexivity.
    nra.
Qed.

(** What a number rounds to is a number of the format or an infinity. *)
Lemma rounds_to_shape (q : Q) (f : float) :
  rounds_to q f -> binary64 f \/ exists s, f = S754_infinity s.
Proof.
  intros [H1 H2].
  destruct (Qlt_le_dec (Qabs q) overflow_threshold) as [Hlt|Hge].
  - left. apply (H2 Hlt).
  - right. eexists. apply (H1 Hge).
Qed.

(** A number of the format rounds to itself. *)
Lemma rounds_to_self (f : float) : binary64 f -> rounds_to (value f) f.
Proof.
  intros Hf. pose proof (binary64_below f Hf) as Hb. split.
  - intros HT. lra.
  - intros _.
    assert (E0 : (value f - value f == 0)%Q) by ring.
    split; [split; [exact Hf|]|].
    + intros g _. rewrite E0. apply Qabs_nonneg.
    + intros g [_ Hn] Hne. exfalso. apply Hne.
      specialize (Hn f Hf). rewrite E0 in Hn.
      change (Qabs 0) with 0%Q in Hn. qabs; lra.
Qed.

(** Rounding is monotone against a number of the format. *)
Lemma rounds_le (q : Q) (f r : float) :
  rounds_to q f -> binary64 r -> (q <= value r)%Q -> at_most f (value r).
Proof.
  intros [H1 H2] Hr Hq. pose proof (binary64_below r Hr) as Hb.
  destruct (Qlt_le_dec (Qabs q) overflow_threshold) as [Hlt|Hge].
  - right. destruct (H2 Hlt) as [[Hf Hn] _]. split; [exact Hf|].
    specialize (Hn r Hr). qabs; lra.
  - left. rewrite (H1 Hge). f_equal.
    destruct (Qle_bool 0 q) eqn:B; [|reflexivity].
    apply Qle_bool_iff in B. exfalso. qabs; lra.
Qed.

Lemma rounds_ge (q : Q) (f r : float) :
  rounds_to q f -> binary64 r -> (value r <= q)%Q -> at_least f (value r).
Proof.
  intros [H1 H2] Hr Hq. pose proof (binary64_below r Hr) as Hb.
  destruct (Qlt_le_dec (Qabs q) overflow_threshold) as [Hlt|Hge].
  - right. destruct (H2 Hlt) as [[Hf Hn] _]. split; [exact Hf|].
    specialize (Hn r Hr). qabs; lra.
  - left. rewrite (H1 Hge). f_equal.
    destruct (Qle_bool 0 q) eqn:B; [reflexivity|].
    assert (~ (0 <= q)%Q) by (intros C; apply Qle_bool_iff in C; congruence).
    exfalso. qabs; lra.
Qed.

(** The nearest integer is monotone against half-integers. *)
Lemma nearest_int_ge (q : Q) (N M : Z) :
  nearest_int q N -> (inject_Z M - (1 # 2) < q)%Q -> M <= N.
Proof.
  intros [Hn _] Hq.
  destruct (Z_le_gt_dec M N) as [|Hgt]; [assumption|exfalso].
  assert (H : (inject_Z N <= inject_Z M - 1)%Q).
  { rewrite <- inject_Z_pred. apply inject_Z_le. lia. }
  qabs; lra.
Qed.

Lemma nearest_int_le (q : Q) (N M : Z) :
  nearest_int q N -> (q < inject_Z M + (1 # 2))%Q -> N <= M.
Proof.
  intros [Hn _] Hq.
  destruct (Z_le_gt_dec N M) as [|Hgt]; [assumption|exfalso].
  assert (H : (inject_Z M + 1 <= inject_Z N)%Q).
  { rewrite <- inject_Z_succ. apply inject_Z_le. lia. }
  qabs; lra.
Qed.

Lemma nearest_int_opp (q : Q) (N : Z) : nearest_int q N -> nearest_int (- q) (- N).
Proof.
  intros [H1 H2].
  assert (E : (- q - inject_Z (- N) == - (q - inject_Z N))%Q)
    by (rewrite inject_Z_opp; ring).
  split.
  - now rewrite E, Qabs_opp.
  - rewrite E, Qabs_opp, Z.even_opp. exact H2.
Qed.

End Thresholds.

Section Order.
Import Float Rounding Real.

Lemma canonical_lt (m1 m2 : positive) (e1 e2 : Z) :
  binary64 (S754_finite false m1 e1) -> binary64 (S754_finite false m2 e2) ->
  e1 < e2 ->
  (inject_Z (Zpos m1) * 2 ^ e1 < inject_Z (Zpos m2) * 2 ^ e2)%Q.
Proof.
  intros (Hm1 & He1 & _) (Hm2 & He2 & Hn2) Hlt.
  assert (Hm2' : 2 ^ 52 <= Zpos m2) by lia.
  assert (E : (2 ^ e2 == 2 ^ (e2 - e1) * 2 ^ e1)%Q).
  { rewrite <- q2_add. replace (e2 - e1 + e1) with e2 by lia. reflexivity. }
  assert (H2 : (2 ^ 1 <= 2 ^ (e2 - e1))%Q) by (apply q2_le; lia).
  change (2 ^ 1)%Q with 2%Q in H2.
  pose proof (q2_pos e1) as P.
  assert (A1 : (inject_Z (Zpos m1) < inject_Z (2 ^ 53))%Q) by now apply inject_Z_lt.
  assert (A2 : (inject_Z (2 ^ 52) <= inject_Z (Zpos m2))%Q) by now apply inject_Z_le.
  assert (K : (inject_Z (2 ^ 53) == 2 * inject_Z (2 ^ 52))%Q) by reflexivity.
  assert (K52 : (0 < inject_Z (2 ^ 52))%Q) by reflexivity.
  rewrite E.
  set (a := inject_Z (Zpos m1)) in *. set (b := inject_Z (Zpos m2)) in *.
  set (c := inject_Z (2 ^ 52)) in *. set (p := (2 ^ (e2 - e1))%Q) in *.
  set (u := (2 ^ e1)%Q) in *. clearbody a b c p u.
  assert (S1 : (a * u < 2 * c * u)%Q) by nra.
  assert (S2 : (2 * c <= b * p)%Q) by nra.
  assert (S3 : (2 * c * u <= b * p * u)%Q) by nra.
  lra.
Qed.

Lemma positive_cases (m1 m2 : positive) (e1 e2 : Z) :
  binary64 (S754_finite false m1 e1) -> binary64 (S754_finite false m2 e2) ->
  let c := match e1 ?= e2 with
           | Eq => Pos.compare m1 m2
           | Lt => Lt
           | Gt => Gt
           end in
  let v1 := (inject_Z (Zpos m1) * 2 ^ e1)%Q in
  let v2 := (inject_Z (Zpos m2) * 2 ^ e2)%Q in
  (c = Lt /\ v1 < v2)%Q \/ (c = Eq /\ v1 == v2)%Q \/ (c = Gt /\ v2 < v1)%Q.
Proof.
  intros H1 H2. cbv zeta.
  destruct (Z.compare_spec e1 e2) as [->|Hlt|Hgt].
  - pose proof (q2_pos e2) as P.
    destruct (Pos.compare_spec m1 m2) as [->|Hm|Hm].
    + right. left. split; reflexivity.
    + left. split; [reflexivity|].
      assert (inject_Z (Zpos m1) < inject_Z (Zpos m2))%Q by (apply inject_Z_lt; lia).
      nra.
    + right. right. split; [reflexivity|].
      assert (inject_Z (Zpos m2) < inject_Z (Zpos m1))%Q by (apply inject_Z_lt; lia).
      nra.
  - left. split; [reflexivity|]. now apply canonical_lt.
  - right. right. split; [reflexivity|]. apply canonical_lt; [assumption|assumption|lia].
Qed.

(** On numbers of the format the comparison of floats is the order of
    the numbers they stand for. *)
Lemma compare_cases (f g : float) :
  binary64 f -> binary64 g ->
  (SFcompare f g = Some Lt /\ value f < value g)%Q \/
  (SFcompare f g = Some Eq /\ value f == value g)%Q \/
  (SFcompare f g = Some Gt /\ value g < value f)%Q.
Proof.
  intros Hf Hg.
  destruct f as [s1|s1| |s1 m1 e1]; try contradiction;
    destruct g as [s2|s2| |s2 m2 e2]; try contradiction.
  - right. left. split; reflexivity.
  - pose proof (q2_pos e2) as P.
    assert (0 < inject_Z (Zpos m2))%Q by reflexivity.
    cbn [SFcompare]. rewrite value_finite. destruct s2; cbn [cond_Zopp value].
    + right. right. split; [reflexivity|].
      change (inject_Z (- Zpos m2)) with (- inject_Z (Zpos m2))%Q. nra.
    + left. split; [reflexivity|]. nra.
  - pose proof (q2_pos e1) as P.
    assert (0 < inject_Z (Zpos m1))%Q by reflexivity.
    cbn [SFcompare]. rewrite value_finite. destruct s1; cbn [cond_Zopp value].
    + left. split; [reflexivity|].
      change (inject_Z (- Zpos m1)) with (- inject_Z (Zpos m1))%Q. nra.
    + right. right. split; [reflexivity|]. nra.
  - pose proof (q2_pos e1) as P1. pose proof (q2_pos e2) as P2.
    assert (Q1 : (0 < inject_Z (Zpos m1))%Q) by reflexivity.
    assert (Q2 : (0 < inject_Z (Zpos m2))%Q) by reflexivity.
    pose proof (positive_cases m1 m2 e1 e2 Hf Hg) as Hc. cbv zeta in Hc.
    cbn [SFcompare]. rewrite !value_finite.
    change (PosDef.Pos.compare_cont Eq m1 m2) with (Pos.compare m1 m2).
    destruct s1, s2; cbn [cond_Zopp];
      change (inject_Z (- Zpos m1)) with (- inject_Z (Zpos m1))%Q;
      change (inject_Z (- Zpos m2)) with (- inject_Z (Zpos m2))%Q.
    + destruct Hc as [[Hc Hv]|[[Hc Hv]|[Hc Hv]]];
        destruct (e1 ?= e2); try discriminate; try rewrite Hc; cbn [CompOpp].
      all: try (left; split; [reflexivity|nra]).
      all: try (right; left; split; [reflexivity|nra]).
      all: try (right; right; split; [reflexivity|nra]).
    + left. split; [reflexivity|nra].
    + right. right. split; [reflexivity|nra].
    + destruct Hc as [[Hc Hv]|[[Hc Hv]|[Hc Hv]]];
        destruct (e1 ?= e2); try discriminate; try rewrite Hc.
      all: try (left; split; [reflexivity|nra]).
      all: try (right; left; split; [reflexivity|nra]).
      all: try (right; right; split; [reflexivity|nra]).
Qed.

Lemma fle_value (f g : float) :
  binary64 f -> binary64 g -> fle f g = true <-> (value f <= value g)%Q.
Proof.
  intros Hf Hg. unfold fle, SFleb.
  destruct (compare_cases f g Hf Hg) as [[-> Hv]|[[-> Hv]|[-> Hv]]];
    split; intros H; try reflexivity; try discriminate; lra.
Qed.

Lemma flt_value (f g : float) :
  binary64 f -> binary64 g -> flt f g = true <-> (value f < value g)%Q.
Proof.
  intros Hf Hg. unfold flt, SFltb.
  destruct (compare_cases f g Hf Hg) as [[-> Hv]|[[-> Hv]|[-> Hv]]];
    split; intros H; try reflexivity; try discriminate; lra.
Qed.

End Order.

Section Stages.
Import Float Rounding Real.

Lemma is_binary64_spec (f : float) : is_binary64 f = true -> binary64 f.
Proof.
  destruct f as [s|s| |s m e]; cbn [is_binary64 binary64]; try easy.
  rewrite !andb_true_iff, orb_true_iff. lia.
Qed.

Lemma nonneg_cases (f : float) :
  More.nonneg f = true ->
  f = S754_zero false \/ f = S754_infinity false \/
  exists m e, f = S754_finite false m e.
Proof.
  destruct f as [[]|[]| |[] m e]; try discriminate; intros _; eauto.
Qed.

Lemma positive_value (m : positive) (e : Z) : (0 < value (S754_finite false m e))%Q.
Proof.
  cbn [value]. pose proof (q2_pos e).
  assert (0 < inject_Z (Zpos m))%Q by reflexivity. nra.
Qed.

Lemma nonneg_value (f : float) : More.nonneg f = true -> (0 <= value f)%Q.
Proof.
  intros H. destruct (nonneg_cases f H) as [->|[->|(m & e & ->)]];
    [apply Qle_refl|apply Qle_refl|apply Qlt_le_weak, positive_value].
Qed.

Lemma nonneg_at_most (f : float) (c : Q) :
  More.nonneg f = true -> at_most f c -> binary64 f /\ (value f <= c)%Q.
Proof. intros H [->|H']; [discriminate|exact H']. Qed.

Lemma at_least_weaken (f : float) (c c' : Q) :
  at_least f c -> (c' <= c)%Q -> at_least f c'.
Proof. intros [->|[H1 H2]] H; [now left|right; split; [assumption|lra]]. Qed.

Lemma at_most_weaken (f : float) (c c' : Q) :
  at_most f c -> (c <= c')%Q -> at_most f c'.
Proof. intros [->|[H1 H2]] H; [now left|right; split; [assumption|lra]]. Qed.

(** *** One operation at a time *)

Lemma div_stage (x : float) (my : positive) (ey : Z) :
  More.nonneg x = true -> binary64 x ->
  rounds_to (value x / value (S754_finite false my ey))
            (fdiv x (S754_finite false my ey)) /\
  More.nonneg (fdiv x (S754_finite false my ey)) = true.
Proof.
  intros Hn Hb. destruct (nonneg_cases x Hn) as [->|[->|(m & e & ->)]].
  - split; [|reflexivity].
    refine (rounds_to_wd _ _ _ _ (rounds_to_zero false)).
    cbn [value]. unfold Qdiv. ring.
  - contradiction.
  - apply fdiv_rounds_to.
Qed.

Lemma mul_stage (x : float) (my : positive) (ey : Z) :
  2 ^ 52 <= Zpos my ->
  More.nonneg x = true -> binary64 x ->
  rounds_to (value x * value (S754_finite false my ey))
            (fmul x (S754_finite false my ey)) /\
  More.nonneg (fmul x (S754_finite false my ey)) = true.
Proof.
  intros Hy Hn Hb. destruct (nonneg_cases x Hn) as [->|[->|(m & e & ->)]].
  - split; [|reflexivity].
    refine (rounds_to_wd _ _ _ _ (rounds_to_zero false)).
    cbn [value]. ring.
  - contradiction.
  - now apply fmul_rounds_to.
Qed.

Lemma sub_stage (x y : float) :
  binary64 x -> binary64 y -> rounds_to (value x - value y) (fsub x y).
Proof.
  intros Hx Hy.
  destruct x as [sx|sx| |sx mx ex]; try contradiction;
    destruct y as [sy|sy| |sy my ey]; try contradiction.
  - assert (E : (value (S754_zero sx) - value (S754_zero sy) == 0)%Q)
      by (cbn [value]; ring).
    refine (rounds_to_wd _ _ _ (Qeq_sym _ _ E) _).
    destruct sx, sy; apply rounds_to_zero.
  - change (fsub (S754_zero sx) (S754_finite sy my ey))
      with (SFopp (S754_finite sy my ey)).
    refine (rounds_to_wd _ _ _ _ (rounds_to_self _ _)).
    + rewrite value_opp. cbn [value]. ring.
    + now apply binary64_opp.
  - change (fsub (S754_finite sx mx ex) (S754_zero sy))
      with (S754_finite sx mx ex).
    refine (rounds_to_wd _ _ _ _ (rounds_to_self _ Hx)).
    cbn [value]. ring.
  - apply fsub_rounds_to.
Qed.

Lemma round_stage (t : float) (k : nat) :
  binary64 t ->
  exists N : Z,
    nearest_int (inject_Z (10 ^ Z.of_nat k) * value t) N /\
    rounds_to (inject_Z N / inject_Z (10 ^ Z.of_nat k)) (round t k).
Proof.
  intros Ht. destruct t as [s|s| |s m e]; try contradiction.
  - exists 0. split.
    + apply nearest_int_exact. cbn [value]. change (inject_Z 0) with 0%Q. ring.
    + refine (rounds_to_wd _ _ _ _ (rounds_to_zero s)).
      change (inject_Z 0) with 0%Q. unfold Qdiv. ring.
  - destruct (round_pos_rounds_to m e k) as (N & _ & Hi & Hr & _).
    destruct s.
    + exists (- N). split.
      * refine (nearest_int_wd _ _ _ _ (nearest_int_opp _ _ Hi)).
        cbn [value]. change (inject_Z (Zneg m)) with (- inject_Z (Zpos m))%Q. ring.
      * change (S754_finite true m e) with (SFopp (S754_finite false m e)).
        rewrite round_opp.
        refine (rounds_to_wd _ _ _ _ (rounds_to_opp _ _ Hr)).
        rewrite inject_Z_opp. unfold Qdiv. ring.
    + exists N. split; assumption.
Qed.

(** *** Bounds through one operation *)

Lemma div_at_least (x : float) (my : positive) (ey : Z) (c : Q) (r : float) :
  More.nonneg x = true -> at_least x c -> binary64 r ->
  (value r * value (S754_finite false my ey) <= c)%Q ->
  at_least (fdiv x (S754_finite false my ey)) (value r) /\
  More.nonneg (fdiv x (S754_finite false my ey)) = true.
Proof.
  intros Hn [->|[Hb Hc]] Hr Hle; [split; [now left|reflexivity]|].
  destruct (div_stage x my ey Hn Hb) as [Hrd Hnn]. split; [|exact Hnn].
  apply (rounds_ge _ _ _ Hrd Hr).
  apply Qle_shift_div_l; [apply positive_value|lra].
Qed.

Lemma div_at_most (x : float) (my : positive) (ey : Z) (c : Q) (r : float) :
  More.nonneg x = true -> at_most x c -> binary64 r ->
  (c <= value r * value (S754_finite false my ey))%Q ->
  at_most (fdiv x (S754_finite false my ey)) (value r) /\
  More.nonneg (fdiv x (S754_finite false my ey)) = true.
Proof.
  intros Hn Hx Hr Hle. destruct (nonneg_at_most x c Hn Hx) as [Hb Hc].
  destruct (div_stage x my ey Hn Hb) as [Hrd Hnn]. split; [|exact Hnn].
  apply (rounds_le _ _ _ Hrd Hr).
  apply Qle_shift_div_r; [apply positive_value|lra].
Qed.

Lemma mul_at_least (x : float) (my : positive) (ey : Z) (c : Q) (r : float) :
  2 ^ 52 <= Zpos my ->
  More.nonneg x = true -> at_least x c -> binary64 r ->
  (value r <= c * value (S754_finite false my ey))%Q ->
  at_least (fmul x (S754_finite false my ey)) (value r) /\
  More.nonneg (fmul x (S754_finite false my ey)) = true.
Proof.
  intros Hy Hn [->|[Hb Hc]] Hr Hle; [split; [now left|reflexivity]|].
  destruct (mul_stage x my ey Hy Hn Hb) as [Hrd Hnn]. split; [|exact Hnn].
  apply (rounds_ge _ _ _ Hrd Hr).
  pose proof (positive_value my ey). nra.
Qed.

Lemma mul_at_most (x : float) (my : positive) (ey : Z) (c : Q) (r : float) :
  2 ^ 52 <= Zpos my ->
  More.nonneg x = true -> at_most x c -> binary64 r ->
  (c * value (S754_finite false my ey) <= value r)%Q ->
  at_most (fmul x (S754_finite false my ey)) (value r) /\
  More.nonneg (fmul x (S754_finite false my ey)) = true.
Proof.
  intros Hy Hn Hx Hr Hle. destruct (nonneg_at_most x c Hn Hx) as [Hb Hc].
  destruct (mul_stage x my ey Hy Hn Hb) as [Hrd Hnn]. split; [|exact Hnn].
  apply (rounds_le _ _ _ Hrd Hr).
  pose proof (positive_value my ey). nra.
Qed.

Lemma sub_at_least (x y : float) (c : Q) (r : float) :
  at_least x c -> binary64 y -> binary64 r ->
  (value r <= c - value y)%Q ->
  at_least (fsub x y) (value r).
Proof.
  intros [->|[Hb Hc]] Hy Hr Hle.
  - left. now destruct y.
  - apply (rounds_ge _ _ _ (sub_stage x y Hb Hy) Hr). lra.
Qed.

Lemma sub_at_most (x y : float) (c : Q) (r : float) :
  at_most x c -> binary64 y -> binary64 r ->
  (c - value y <= value r)%Q ->
  at_most (fsub x y) (value r).
Proof.
  intros [->|[Hb Hc]] Hy Hr Hle.
  - left. now destruct y.
  - apply (rounds_le _ _ _ (sub_stage x y Hb Hy) Hr). lra.
Qed.

Lemma sub_from_at_most (y x : float) (c : Q) (r : float) :
  at_least x c -> binary64 y -> binary64 r ->
  (value y - c <= value r)%Q ->
  at_most (fsub y x) (value r).
Proof.
  intros [->|[Hb Hc]] Hy Hr Hle.
  - left. now destruct y.
  - apply (rounds_le _ _ _ (sub_stage y x Hy Hb) Hr). lra.
Qed.

Lemma sub_from_at_least (y x : float) (c : Q) (r : float) :
  at_most x c -> binary64 y -> binary64 r ->
  (value r <= value y - c)%Q ->
  at_least (fsub y x) (value r).
Proof.
  intros [->|[Hb Hc]] Hy Hr Hle.
  - left. now destruct y.
  - apply (rounds_ge _ _ _ (sub_stage y x Hy Hb) Hr). lra.
Qed.

Lemma round_at_least (t : float) (c : Q) (M : Z) (r : float) :
  at_least t c -> binary64 r ->
  (inject_Z M - (1 # 2) < 100 * c)%Q ->
  (value r <= inject_Z M / 100)%Q ->
  at_least (round t 2) (value r).
Proof.
  intros [->|[Hb Hc]] Hr HM Hle; [now left|].
  destruct (round_stage t 2 Hb) as (N & Hi & Hrd).
  change (inject_Z (10 ^ Z.of_nat 2)) with 100%Q in *.
  apply (rounds_ge _ _ _ Hrd Hr).
  assert (HN : M <= N) by (apply (nearest_int_ge _ _ _ Hi); lra).
  apply inject_Z_le in HN.
  apply Qle_trans with (inject_Z M / 100)%Q; [exact Hle|].
  apply Qle_shift_div_l; [reflexivity|].
  assert (E : (inject_Z M / 100 * 100 == inject_Z M)%Q) by field.
  rewrite E. exact HN.
Qed.

Lemma round_at_most (t : float) (c : Q) (M : Z) (r : float) :
  at_most t c -> binary64 r ->
  (100 * c < inject_Z M + (1 # 2))%Q ->
  (inject_Z M / 100 <= value r)%Q ->
  at_most (round t 2) (value r).
Proof.
  intros [->|[Hb Hc]] Hr HM Hle; [now left|].
  destruct (round_stage t 2 Hb) as (N & Hi & Hrd).
  change (inject_Z (10 ^ Z.of_nat 2)) with 100%Q in *.
  apply (rounds_le _ _ _ Hrd Hr).
  assert (HN : N <= M) by (apply (nearest_int_le _ _ _ Hi); lra).
  apply inject_Z_le in HN.
  apply Qle_trans with (inject_Z M / 100)%Q; [|exact Hle].
  apply Qle_shift_div_r; [reflexivity|].
  assert (E : (inject_Z M / 100 * 100 == inject_Z M)%Q) by field.
  rewrite E. exact HN.
Qed.

(** *** From bounds to comparisons of floats *)

Lemma at_least_fle (r f : float) (c : Q) :
  binary64 r -> at_least f c -> (value r <= c)%Q -> fle r f = true.
Proof.
  intros Hr [->|[Hb Hc]] Hle.
  - now destruct r as [s|s| |[] m e].
  - apply fle_value; [assumption|assumption|lra].
Qed.

Lemma at_least_flt (r f : float) (c : Q) :
  binary64 r -> at_least f c -> (value r < c)%Q -> flt r f = true.
Proof.
  intros Hr [->|[Hb Hc]] Hle.
  - now destruct r as [s|s| |[] m e].
  - apply flt_value; [assumption|assumption|lra].
Qed.

Lemma at_most_fle (r f : float) (c : Q) :
  binary64 r -> at_most f c -> (c <= value r)%Q -> fle f r = true.
Proof.
  intros Hr [->|[Hb Hc]] Hle.
  - now destruct r as [s|s| |[] m e].
  - apply fle_value; [assumption|assumption|lra].
Qed.

Lemma at_most_flt (r f : float) (c : Q) :
  binary64 r -> at_most f c -> (c < value r)%Q -> flt f r = true.
Proof.
  intros Hr [->|[Hb Hc]] Hle.
  - now destruct r as [s|s| |[] m e].
  - apply flt_value; [assumption|assumption|lra].
Qed.

Lemma fle_at_least (r x : float) :
  binary64 r -> binary64 x \/ x = S754_infinity false ->
  fle r x = true -> at_least x (value r).
Proof.
  intros Hr [Hb| ->] H; [|now left].
  right. split; [assumption|]. now apply fle_value.
Qed.

Lemma fle_at_most (r x : float) :
  binary64 r -> More.nonneg x = true -> binary64 x \/ x = S754_infinity false ->
  fle x r = true -> at_most x (value r).
Proof.
  intros Hr Hn [Hb| ->] H.
  - right. split; [assumption|]. now apply fle_value.
  - now destruct r as [s|s| |[] m e].
Qed.

End Stages.

Ltac closed_le := apply Qle_bool_iff; vm_compute; reflexivity.
Ltac closed_lt := apply Qlt_alt; vm_compute; reflexivity.
Ltac closed_binary64 := apply is_binary64_spec; vm_compute; reflexivity.

Section MapperBounds.
Import Float Detect Rounding Real.

Lemma of_Z_1000 : of_Z 1000 = S754_finite false 8796093022208000 (-43).
Proof. reflexivity. Qed.

Lemma of_Z_360 : of_Z 360 = S754_finite false 6333186975989760 (-44).
Proof. reflexivity. Qed.

Lemma of_Z_180 : of_Z 180 = S754_finite false 6333186975989760 (-45).
Proof. reflexivity. Qed.

Lemma of_Z_90 : of_Z 90 = S754_finite false 6333186975989760 (-46).
Proof. reflexivity. Qed.

(** A lower bound on [x] carried through the yaw formula. *)
Lemma yaw_at_least (x r0 r1 r2 r3 r4 : float) (M : Z) :
  More.nonneg x = true -> at_least x (value r0) ->
  binary64 r1 -> binary64 r2 -> binary64 r3 -> binary64 r4 ->
  (value r1 * value (of_Z 1000) <= value r0)%Q ->
  (value r2 <= value r1 * value (of_Z 360))%Q ->
  (value r3 <= value r2 - value (of_Z 180))%Q ->
  (inject_Z M - (1 # 2) < 100 * value r3)%Q ->
  (value r4 <= inject_Z M / 100)%Q ->
  at_least (round (to_yaw x) 2) (value r4).
Proof.
  intros Hn Hx B1 B2 B3 B4 H1 H2 H3 H4 H5. unfold to_yaw.
  rewrite of_Z_1000, of_Z_360 in *.
  destruct (div_at_least x _ _ _ r1 Hn Hx B1 H1) as [A1 N1].
  destruct (mul_at_least _ 6333186975989760 (-44) _ r2 ltac:(apply Z.leb_le; reflexivity) N1 A1 B2 H2) as [A2 N2].
  pose proof (sub_at_least _ (of_Z 180) _ r3 A2 ltac:(closed_binary64) B3 H3) as A3.
  exact (round_at_least _ _ M r4 A3 B4 H4 H5).
Qed.

(** An upper bound on [x] carried through the yaw formula. *)
Lemma yaw_at_most (x r0 r1 r2 r3 r4 : float) (M : Z) :
  More.nonneg x = true -> at_most x (value r0) ->
  binary64 r1 -> binary64 r2 -> binary64 r3 -> binary64 r4 ->
  (value r0 <= value r1 * value (of_Z 1000))%Q ->
  (value r1 * value (of_Z 360) <= value r2)%Q ->
  (value r2 - value (of_Z 180) <= value r3)%Q ->
  (100 * value r3 < inject_Z M + (1 # 2))%Q ->
  (inject_Z M / 100 <= value r4)%Q ->
  at_most (round (to_yaw x) 2) (value r4).
Proof.
  intros Hn Hx B1 B2 B3 B4 H1 H2 H3 H4 H5. unfold to_yaw.
  rewrite of_Z_1000, of_Z_360 in *.
  destruct (div_at_most x _ _ _ r1 Hn Hx B1 H1) as [A1 N1].
  destruct (mul_at_most _ 6333186975989760 (-44) _ r2 ltac:(apply Z.leb_le; reflexivity) N1 A1 B2 H2) as [A2 N2].
  pose proof (sub_at_most _ (of_Z 180) _ r3 A2 ltac:(closed_binary64) B3 H3) as A3.
  exact (round_at_most _ _ M r4 A3 B4 H4 H5).
Qed.

(** A lower bound on [y] carried through the pitch formula. *)
Lemma pitch_at_most (y r0 r1 r2 r3 r4 : float) (M : Z) :
  More.nonneg y = true -> at_least y (value r0) ->
  binary64 r1 -> binary64 r2 -> binary64 r3 -> binary64 r4 ->
  (value r1 * value (of_Z 1000) <= value r0)%Q ->
  (value r2 <= value r1 * value (of_Z 180))%Q ->
  (value (of_Z 90) - value r2 <= value r3)%Q ->
  (100 * value r3 < inject_Z M + (1 # 2))%Q ->
  (inject_Z M / 100 <= value r4)%Q ->
  at_most (round (to_pitch y) 2) (value r4).
Proof.
  intros Hn Hy B1 B2 B3 B4 H1 H2 H3 H4 H5. unfold to_pitch.
  rewrite of_Z_1000, of_Z_180 in *.
  destruct (div_at_least y _ _ _ r1 Hn Hy B1 H1) as [A1 N1].
  destruct (mul_at_least _ 6333186975989760 (-45) _ r2 ltac:(apply Z.leb_le; reflexivity) N1 A1 B2 H2) as [A2 N2].
  pose proof (sub_from_at_most (of_Z 90) _ _ r3 A2 ltac:(closed_binary64) B3 H3) as A3.
  exact (round_at_most _ _ M r4 A3 B4 H4 H5).
Qed.

(** An upper bound on [y] carried through the pitch formula. *)
Lemma pitch_at_least (y r0 r1 r2 r3 r4 : float) (M : Z) :
  More.nonneg y = true -> at_most y (value r0) ->
  binary64 r1 -> binary64 r2 -> binary64 r3 -> binary64 r4 ->
  (value r0 <= value r1 * value (of_Z 1000))%Q ->
  (value r1 * value (of_Z 180) <= value r2)%Q ->
  (value r3 <= value (of_Z 90) - value r2)%Q ->
  (inject_Z M - (1 # 2) < 100 * value r3)%Q ->
  (value r4 <= inject_Z M / 100)%Q ->
  at_least (round (to_pitch y) 2) (value r4).
Proof.
  intros Hn Hy B1 B2 B3 B4 H1 H2 H3 H4 H5. unfold to_pitch.
  rewrite of_Z_1000, of_Z_180 in *.
  destruct (div_at_most y _ _ _ r1 Hn Hy B1 H1) as [A1 N1].
  destruct (mul_at_most _ 6333186975989760 (-45) _ r2 ltac:(apply Z.leb_le; reflexivity) N1 A1 B2 H2) as [A2 N2].
  pose proof (sub_from_at_least (of_Z 90) _ _ r3 A2 ltac:(closed_binary64) B3 H3) as A3.
  exact (round_at_least _ _ M r4 A3 B4 H4 H5).
Qed.

Lemma nonneg_at_least_zero (x : float) :
  More.nonneg x = true -> binary64 x \/ x = S754_infinity false ->
  at_least x (value (S754_zero false)).
Proof.
  intros Hn [Hb| ->]; [right|now left].
  split; [assumption|]. now apply nonneg_value.
Qed.

(** The yaw is never below -180 and the pitch never above 90. *)
Lemma mapper_one_sided (v : float) :
  More.nonneg v = true -> binary64 v \/ v = S754_infinity false ->
  fle (SFopp (of_Z 180)) (round (to_yaw v) 2) = true /\
  fle (round (to_pitch v) 2) (of_Z 90) = true.
Proof.
  intros Hn Hs. pose proof (nonneg_at_least_zero v Hn Hs) as H0. split.
  - apply (at_least_fle _ _ (value (SFopp (of_Z 180)))); [closed_binary64| |closed_le].
    apply (yaw_at_least v (S754_zero false) (S754_zero false) (S754_zero false)
             (SFopp (of_Z 180)) (SFopp (of_Z 180)) (-18000));
      try assumption; try exact I; try closed_binary64; try closed_le; closed_lt.
  - apply (at_most_fle _ _ (value (of_Z 90))); [closed_binary64| |closed_le].
    apply (pitch_at_most v (S754_zero false) (S754_zero false) (S754_zero false)
             (of_Z 90) (of_Z 90) 9000);
      try assumption; try exact I; try closed_binary64; try closed_le; closed_lt.
Qed.

(** Coordinates up to 1000 stay in range. *)
Lemma mapper_inside (v : float) :
  More.nonneg v = true -> binary64 v \/ v = S754_infinity false ->
  fle v (of_Z 1000) = true ->
  fle (round (to_yaw v) 2) (of_Z 180) = true /\
  fle (SFopp (of_Z 90)) (round (to_pitch v) 2) = true.
Proof.
  intros Hn Hs Hle.
  pose proof (fle_at_most (of_Z 1000) v ltac:(closed_binary64) Hn Hs Hle) as H0.
  split.
  - apply (at_most_fle _ _ (value (of_Z 180))); [closed_binary64| |closed_le].
    apply (yaw_at_most v (of_Z 1000) (of_Z 1) (of_Z 360) (of_Z 180) (of_Z 180) 18000);
      try assumption; try closed_binary64; try closed_le; closed_lt.
  - apply (at_least_fle _ _ (value (SFopp (of_Z 90)))); [closed_binary64| |closed_le].
    apply (pitch_at_least v (of_Z 1000) (of_Z 1) (of_Z 180) (SFopp (of_Z 90))
             (SFopp (of_Z 90)) (-9000));
      try assumption; try closed_binary64; try closed_le; closed_lt.
Qed.

(** Coordinates from 1000 on reach the boundary or pass it. *)
Lemma mapper_outside (v : float) :
  More.nonneg v = true -> binary64 v \/ v = S754_infinity false ->
  fle (of_Z 1000) v = true ->
  fle (of_Z 180) (round (to_yaw v) 2) = true /\
  fle (round (to_pitch v) 2) (SFopp (of_Z 90)) = true.
Proof.
  intros Hn Hs Hle.
  pose proof (fle_at_least (of_Z 1000) v ltac:(closed_binary64) Hs Hle) as H0.
  split.
  - apply (at_least_fle _ _ (value (of_Z 180))); [closed_binary64| |closed_le].
    apply (yaw_at_least v (of_Z 1000) (of_Z 1) (of_Z 360) (of_Z 180) (of_Z 180) 18000);
      try assumption; try closed_binary64; try closed_le; closed_lt.
  - apply (at_most_fle _ _ (value (SFopp (of_Z 90)))); [closed_binary64| |closed_le].
    apply (pitch_at_most v (of_Z 1000) (of_Z 1) (of_Z 180) (SFopp (of_Z 90))
             (SFopp (of_Z 90)) (-9000));
      try assumption; try closed_binary64; try closed_le; closed_lt.
Qed.

(** From 1000.02 on the yaw is above 180. *)
Lemma yaw_beyond (x : float) :
  More.nonneg x = true -> binary64 x \/ x = S754_infinity false ->
  fle (of_decimal 100002 2) x = true ->
  flt (of_Z 180) (round (to_yaw x) 2) = true.
Proof.
  intros Hn Hs Hle.
  pose proof (fle_at_least (of_decimal 100002 2) x ltac:(closed_binary64) Hs Hle) as H0.
  apply (at_least_flt _ _ (value (of_decimal 180005 3))); [closed_binary64| |closed_lt].
  apply (yaw_at_least x (of_decimal 100002 2) (of_decimal 1000019 6)
           (of_decimal 3600068 4) (of_decimal 1800067 4) (of_decimal 180005 3) 18001);
    try assumption; try closed_binary64; try closed_le; closed_lt.
Qed.

(** From 1000.03 on the pitch is below -90. *)
Lemma pitch_beyond (y : float) :
  More.nonneg y = true -> binary64 y \/ y = S754_infinity false ->
  fle (of_decimal 100003 2) y = true ->
  flt (round (to_pitch y) 2) (SFopp (of_Z 90)) = true.
Proof.
  intros Hn Hs Hle.
  pose proof (fle_at_least (of_decimal 100003 2) y ltac:(closed_binary64) Hs Hle) as H0.
  apply (at_most_flt _ _ (value (SFopp (of_decimal 90005 3)))); [closed_binary64| |closed_lt].
  apply (pitch_at_most y (of_decimal 100003 2) (of_decimal 1000029 6)
           (of_decimal 1800052 4) (SFopp (of_decimal 900051 4))
           (SFopp (of_decimal 90005 3)) (-9001));
    try assumption; try closed_binary64; try closed_le; closed_lt.
Qed.

End MapperBounds.

Section Parsed.
Import Float Detect Rounding Real Spec.

Lemma of_decimal_coordinate (n : Z) (k : nat) : coordinate (of_decimal n k).
Proof.
  destruct n as [|p|p]; try (split; [reflexivity|left; exact I]).
  destruct (of_decimal_rounds_to (Zpos p) k ltac:(lia)) as [Hr Hn].
  split; [exact Hn|].
  destruct (rounds_to_shape _ _ Hr) as [Hb|[s Hs]]; [now left|right].
  rewrite Hs in *. now destruct s.
Qed.

Lemma float_of_str_coordinate (s : list ascii) (v : float) :
  float_of_str s = Ok v -> coordinate v.
Proof.
  unfold float_of_str. destruct (take_digits s) as [[|d ip] [|c fp]];
    try discriminate.
  - intros [= <-]. apply of_decimal_coordinate.
  - destruct (_ && _); [|discriminate]. intros [= <-]. apply of_decimal_coordinate.
Qed.



Lemma parse_points_coordinates (matches : list (list ascii * list ascii)) :
  forall points,
    parse_points matches = Ok points ->
    Forall (fun p => coordinate (fst p) /\ coordinate (snd p)) points.
Proof.
  induction matches as [|[y_str x_str] rest IH]; intros points H.
  - injection H as <-. constructor.
  - cbn [parse_points] in H.
    destruct (float_of_str y_str) as [y|ey] eqn:Ey; cbn [bind] in H.
    + destruct (float_of_str x_str) as [x|ex] eqn:Ex; cbn [bind] in H.
      * destruct (parse_points rest) as [ps|e]; [|discriminate].
        injection H as <-. constructor; [|now apply IH].
        split; eapply float_of_str_coordinate; eassumption.
      * destruct ex; try discriminate. now apply IH.
    + destruct ey; try discriminate. now apply IH.
Qed.

(** Every hotspot made from a response text holds two coordinates the
    parser read and the two angles computed from them. *)
Lemma hotspots_of_text_coordinates (text_response : string)
    (hs : list hotspot) (h : hotspot) :
  hotspots_of_text text_response = Ok hs -> In h hs ->
  coordinate (y_norm h) /\ coordinate (x_norm h) /\
  yaw h = round (to_yaw (x_norm h)) 2 /\
  pitch h = round (to_pitch (y_norm h)) 2.
Proof.
  intros Hrun Hin.
  apply hotspots_of_text_inv in Hrun as (points & Hparse & _ & _ & ->).
  apply parse_points_coordinates in Hparse.
  rewrite List.Forall_forall in Hparse.
  apply In_nth_error in Hin as [k Hk].
  rewrite hotspots_from_nth in Hk.
  destruct (nth_error (sort_by snd points) k) as [[y x]|] eqn:Hp; [|discriminate].
  injection Hk as <-.
  apply nth_error_In in Hp.
  apply (Permutation_in _ (sort_by_perm snd points)) in Hp.
  destruct (Hparse _ Hp) as [Hy Hx].
  cbn [hotspot_at y_norm x_norm yaw pitch fst snd] in *.
  split; [assumption|]. split; [assumption|]. split; reflexivity.
Qed.

End Parsed.

(** * The claims *)

Section Claims.
Import Float Detect Pipeline Label Spec.

(** C1. The labelling loop gives every point of the sorted list one
    hotspot, at the same 0-indexed position [i] and with the same
    coordinates, and the label of that hotspot is the one of the rule:
    the letter number [i] when [i < 26], and letter [(i // 26) - 1]
    followed by letter [i % 26] otherwise.  The loop returns such a list
    for every list of at most 702 points; it computes the label with
    [label_text], which gives A at position 0, Z at 25, AA at 26, AB at
    27, AZ at 51 and BA at 52. *)
Theorem label_by_position :
  (forall (points : list (float * float)) (hs : list hotspot),
      label_points 0 (sort_by snd points) [] = Ok hs ->
      length hs = length points /\
      forall (i : nat) (p : float * float),
        nth_error (sort_by snd points) i = Some p ->
        exists h, nth_error hs i = Some h /\ coords h = p /\
                  label_text (Z.of_nat i) = Ok (label h) /\
                  label h = label_of (Z.of_nat i)) /\
  (forall points : list (float * float),
      (length points <= 702)%nat ->
      exists hs, label_points 0 (sort_by snd points) [] = Ok hs) /\
  (forall (points : list (float * float)) (hs : list hotspot) (i : nat) (h : hotspot),
      label_points 0 (sort_by snd points) [] = Ok hs ->
      nth_error hs i = Some h ->
      label_text (Z.of_nat i) = Ok (label h) /\
      label h = label_of (Z.of_nat i)) /\
  label_text 0 = Ok "A" /\ label_text 25 = Ok "Z" /\
  label_text 26 = Ok "AA" /\ label_text 27 = Ok "AB" /\
  label_text 51 = Ok "AZ" /\ label_text 52 = Ok "BA".
Proof.
  split; [|split; [|split; [|repeat split]]].
  - intros points hs Hrun.
    apply label_points_inv in Hrun as [Hlen ->].
    rewrite sort_by_length in Hlen.
    split; [now rewrite hotspots_from_length, sort_by_length|].
    intros i p Hp. exists (hotspot_at (Z.of_nat i) p).
    rewrite hotspots_from_nth, Hp.
    assert (i < length (sort_by snd points))%nat
      by (apply nth_error_Some; congruence).
    rewrite sort_by_length in *.
    repeat split; [now destruct p|].
    apply label_text_in_range. lia.
  - intros points Hlen. eexists.
    apply label_points_total; [lia|]. rewrite sort_by_length. lia.
  - intros points hs i h Hrun Hi.
    apply label_points_inv in Hrun as [Hlen ->].
    rewrite hotspots_from_nth in Hi.
    destruct (nth_error (sort_by snd points) i) as [p|] eqn:Hp; [|discriminate].
    injection Hi as <-. cbn [hotspot_at label].
    assert (i < length (sort_by snd points))%nat
      by (apply nth_error_Some; congruence).
    split; [|reflexivity].
    apply label_text_in_range. lia.
Qed.

Lemma label_by_position_witness :
  exists h,
    nth_error (hotspots_from 0 (sort_by snd (repeat (of_Z 5, of_Z 7) 30))) 27 = Some h /\
    coords h = (of_Z 5, of_Z 7) /\
    label_text 27 = Ok (label h) /\ label h = label_of 27.
Proof.
  apply (proj2 (proj1 label_by_position (repeat (of_Z 5, of_Z 7) 30)
                  (hotspots_from 0 (sort_by snd (repeat (of_Z 5, of_Z 7) 30)))
                  eq_refl) 27%nat (of_Z 5, of_Z 7)).
  reflexivity.
Defined.

(** C2. Labels exist for positions 0 to 701 only: position 702 needs
    the letter at index [(702 // 26) - 1 = 26], past the end of the
    alphabet, so [label_text] raises [IndexError] there; a run whose
    parsed point list has more than 702 points raises [IndexError] out
    of the pipeline, returns no list and writes no file. *)
Theorem label_overflow_raises :
  forall {image : Type} (E : env image) (image_path prompt_text : string)
         (out : option string) (w : world image)
         (response : Response) (text_response : string)
         (points : list (float * float)),
    answered E image_path prompt_text response ->
    response_text response = Ok text_response ->
    parse_points (findall text_response) = Ok points ->
    (702 < length points)%nat ->
    fst (analyze_panorama E image_path prompt_text out w) = Raise IndexError /\
    files (snd (analyze_panorama E image_path prompt_text out w)) = files w /\
    (forall i, 0 <= i -> (exists l, label_text i = Ok l) <-> i <= 701) /\
    702 / 26 - 1 = 26 /\
    str_index alphabet 26 = Raise IndexError /\
    label_text 702 = Raise IndexError.
Proof.
  intros image E image_path prompt_text out w response text_response points
         Hans Htext Hparse Hlen.
  assert (Hraise : hotspots_of_text text_response = Raise IndexError).
  { unfold hotspots_of_text.
    destruct (findall text_response) as [|m ms] eqn:Hm.
    - injection Hparse as <-. simpl in Hlen. lia.
    - unfold buildings_of_matches. rewrite Hparse. cbn [bind].
      apply label_points_overflow; [lia|].
      rewrite sort_by_length. lia. }
  assert (Hrun : (let* t := response_text response in hotspots_of_text t)
                 = Raise IndexError) by now rewrite Htext.
  split; [|split; [|split; [|repeat split]]].
  - now apply (analyze_answered_raise E _ _ response).
  - now apply (analyze_answered_raise E _ _ response _ _ IndexError).
  - intros i Hi. split.
    + intros [l Hl]. destruct (Z_le_gt_dec i 701) as [|Hgt]; [assumption|].
      rewrite label_text_out_of_range in Hl by lia. discriminate.
    + intros Hle. exists (label_of i). apply label_text_in_range. lia.
Qed.

Lemma label_overflow_raises_witness :
  fst (analyze_panorama Fake.crowded_env "pano.jpg" "find" None Fake.empty_world)
  = Raise IndexError.
Proof.
  refine (proj1 (label_overflow_raises Fake.crowded_env "pano.jpg" "find" None
                   Fake.empty_world Fake.crowded Fake.crowded_text
                   (repeat (of_Z 1, of_Z 2) 703) _ _ _ _)).
  - exists 1%nat. split; [reflexivity|]. right. split; reflexivity.
  - reflexivity.
  - vm_compute. reflexivity.
  - vm_compute. reflexivity.
Defined.



(** C4, as the design document states it, fails: a coordinate just
    above 1000 is mapped onto the boundary of the range, not beyond it.
    The response text [[1000.004, 1000.01]] gives the hotspot with
    yaw 180.0 and pitch -90.0, the angles of the coordinates 1000. *)
Theorem near_boundary_in_range :
  hotspots_of_text "[1000.004, 1000.01]"
  = Ok [{| id := "0"; label := "A"; yaw := of_Z 180; pitch := SFopp (of_Z 90);
           y_norm := S754_finite false 8796128206580089 (-43);
           x_norm := S754_finite false 8796180983138222 (-43) |}] /\
  flt (of_Z 1000) (S754_finite false 8796180983138222 (-43)) = true /\
  flt (of_Z 1000) (S754_finite false 8796128206580089 (-43)) = true /\
  ~ out_of_range_kept.
Proof.
  assert (Hrun : hotspots_of_text "[1000.004, 1000.01]"
                 = Ok [{| id := "0"; label := "A"; yaw := of_Z 180;
                          pitch := SFopp (of_Z 90);
                          y_norm := S754_finite false 8796128206580089 (-43);
                          x_norm := S754_finite false 8796180983138222 (-43) |}])
    by (vm_compute; reflexivity).
  split; [exact Hrun|]. split; [reflexivity|]. split; [reflexivity|].
  intros H. destruct (H _ _ _ Hrun (or_introl eq_refl)) as [Hyaw _].
  specialize (Hyaw eq_refl). vm_compute in Hyaw. discriminate.
Qed.

(** C4. The hotspot stored for the point [(y, x)] keeps [y] and [x] and
    has [yaw = round((x / 1000.0) * 360.0 - 180.0, 2)] and
    [pitch = round(90.0 - (y / 1000.0) * 180.0, 2)], whatever the values
    of [y] and [x].  [round(t, 2)] is the float nearest to [N / 100]
    for the integer [N] nearest to [100 * t] (ties to even both times):
    for x = 333 the formula gives -60.11999999999999 and the yaw stored
    is -60.12.  x = 0 gives yaw -180, x = 1000 gives 180, y = 0 gives
    pitch 90, y = 1000 gives -90, x = y = 500 gives 0 and 0, and x =
    1500 gives yaw 360, y = 1500 gives pitch -180.  For every hotspot
    made from a response text: the yaw is at least -180 and the pitch at
    most 90; coordinates up to 1000 give a yaw of at most 180 and a
    pitch of at least -90; nothing is clamped, so coordinates from 1000
    on give a yaw of at least 180 and a pitch of at most -90, and the
    angles are outside their range once x is at least 1000.02 (yaw above
    180) and y at least 1000.03 (pitch below -90). *)
Theorem coordinate_mapping :
  (forall (points : list (float * float)) (hs : list hotspot) (i : nat) (h : hotspot),
      label_points 0 points [] = Ok hs ->
      nth_error hs i = Some h ->
      nth_error points i = Some (y_norm h, x_norm h) /\
      yaw h = round (fsub (fmul (fdiv (x_norm h) (of_Z 1000)) (of_Z 360)) (of_Z 180)) 2 /\
      pitch h = round (fsub (of_Z 90) (fmul (fdiv (y_norm h) (of_Z 1000)) (of_Z 180))) 2) /\
  (forall t : float,
      Real.binary64 t ->
      exists N : Z,
        Real.nearest_int (100 * Real.value t) N /\
        Real.rounds_to (inject_Z N / 100) (round t 2)) /\
  to_yaw (of_Z 333) = S754_finite true 8461137799922318 (-47) /\
  round (to_yaw (of_Z 333)) 2 = S754_finite true 8461137799922319 (-47) /\
  float_of_str (list_ascii_of_string "60.12")
  = Ok (S754_finite false 8461137799922319 (-47)) /\
  round (to_yaw (of_Z 0)) 2 = SFopp (of_Z 180) /\
  round (to_yaw (of_Z 1000)) 2 = of_Z 180 /\
  round (to_pitch (of_Z 0)) 2 = of_Z 90 /\
  round (to_pitch (of_Z 1000)) 2 = SFopp (of_Z 90) /\
  round (to_yaw (of_Z 500)) 2 = of_Z 0 /\
  round (to_pitch (of_Z 500)) 2 = of_Z 0 /\
  round (to_yaw (of_Z 1500)) 2 = of_Z 360 /\
  round (to_pitch (of_Z 1500)) 2 = SFopp (of_Z 180) /\
  (forall (text_response : string) (hs : list hotspot) (h : hotspot),
      hotspots_of_text text_response = Ok hs -> In h hs ->
      fle (SFopp (of_Z 180)) (yaw h) = true /\
      fle (pitch h) (of_Z 90) = true /\
      (fle (x_norm h) (of_Z 1000) = true -> fle (yaw h) (of_Z 180) = true) /\
      (fle (y_norm h) (of_Z 1000) = true -> fle (SFopp (of_Z 90)) (pitch h) = true) /\
      (fle (of_Z 1000) (x_norm h) = true -> fle (of_Z 180) (yaw h) = true) /\
      (fle (of_Z 1000) (y_norm h) = true -> fle (pitch h) (SFopp (of_Z 90)) = true) /\
      (fle (of_decimal 100002 2) (x_norm h) = true ->
       flt (of_Z 180) (yaw h) = true) /\
      (fle (of_decimal 100003 2) (y_norm h) = true ->
       flt (pitch h) (SFopp (of_Z 90)) = true)) /\
  float_of_str (list_ascii_of_string "1000.02") = Ok (of_decimal 100002 2) /\
  float_of_str (list_ascii_of_string "1000.03") = Ok (of_decimal 100003 2) /\
  (forall n, 0 <= n <= 1000 ->
     fle (SFopp (of_Z 180)) (round (to_yaw (of_Z n)) 2)
     && fle (round (to_yaw (of_Z n)) 2) (of_Z 180)
     && fle (SFopp (of_Z 90)) (round (to_pitch (of_Z n)) 2)
     && fle (round (to_pitch (of_Z n)) 2) (of_Z 90) = true) /\
  (forall n, 1000 < n <= 4000 ->
     flt (of_Z 180) (round (to_yaw (of_Z n)) 2)
     && flt (round (to_pitch (of_Z n)) 2) (SFopp (of_Z 90)) = true) /\
  hotspots_of_text "[500, 500]"
  = Ok [{| id := "0"; label := "A"; yaw := of_Z 0; pitch := of_Z 0;
           y_norm := of_Z 500; x_norm := of_Z 500 |}] /\
  hotspots_of_text "[0, 1000] [1000, 0]"
  = Ok [{| id := "0"; label := "A"; yaw := SFopp (of_Z 180);
           pitch := SFopp (of_Z 90); y_norm := of_Z 1000; x_norm := of_Z 0 |};
        {| id := "1"; label := "B"; yaw := of_Z 180;
           pitch := of_Z 90; y_norm := of_Z 0; x_norm := of_Z 1000 |}].
Proof.
  split.
  { intros points hs i h Hrun Hi.
    apply label_points_inv in Hrun as [_ ->].
    rewrite hotspots_from_nth in Hi.
    destruct (nth_error points i) as [[y x]|]; [|discriminate].
    injection Hi as <-. repeat split. }
  split.
  { intros t Ht. destruct (round_stage t 2 Ht) as (N & Hi & Hr).
    exists N. split; [exact Hi|exact Hr]. }
  do 11 (split; [vm_compute; reflexivity|]).
  split.
  { intros text_response hs h Hrun Hin.
    destruct (hotspots_of_text_coordinates _ _ _ Hrun Hin)
      as ([Ny Sy] & [Nx Sx] & -> & ->).
    destruct (mapper_one_sided _ Nx Sx) as [Hlo _].
    destruct (mapper_one_sided _ Ny Sy) as [_ Hhi].
    split; [exact Hlo|]. split; [exact Hhi|].
    split; [intros H; apply (mapper_inside _ Nx Sx H)|].
    split; [intros H; apply (mapper_inside _ Ny Sy H)|].
    split; [intros H; apply (mapper_outside _ Nx Sx H)|].
    split; [intros H; apply (mapper_outside _ Ny Sy H)|].
    split; [intros H; apply (yaw_beyond _ Nx Sx H)|].
    intros H; apply (pitch_beyond _ Ny Sy H). }
  do 2 (split; [vm_compute; reflexivity|]).
  split; [exact mapper_in_range|].
  split; [exact mapper_out_of_range|].
  split; vm_compute; reflexivity.
Qed.

Lemma coordinate_mapping_witness :
  exists h,
    hotspots_of_text "[1000.03, 1000.02]" = Ok [h] /\
    flt (of_Z 180) (yaw h) = true /\
    flt (pitch h) (SFopp (of_Z 90)) = true.
Proof.
  assert (Hrun : exists h, hotspots_of_text "[1000.03, 1000.02]" = Ok [h] /\
                           fle (of_decimal 100002 2) (x_norm h) = true /\
                           fle (of_decimal 100003 2) (y_norm h) = true).
  { eexists. split; [vm_compute; reflexivity|]. split; reflexivity. }
  destruct Hrun as (h & Hrun & Hx & Hy). exists h. split; [exact Hrun|].
  destruct (proj1 (proj2 (proj2 (proj2 (proj2 (proj2 (proj2 (proj2 (proj2
              (proj2 (proj2 (proj2 (proj2 (proj2 coordinate_mapping)))))))))))))
              _ _ h Hrun (or_introl eq_refl))
    as (_ & _ & _ & _ & _ & _ & Hyaw & Hpitch).
  split; [exact (Hyaw Hx)|exact (Hpitch Hy)].
Defined.

(** C5. Every list a detection run returns is non-decreasing in
    [x_norm]; the hotspot at position [i] has as [id] the string form of
    [i], as [str(i)] computes it and as the decimal numeral of [i]
    spells it, and the label of position [i]; and unless the list is
    empty, its coordinates are the stable sort of the parser output of
    the run's response: a permutation of it in which points with equal
    [x] keep the order the parser gave them. *)
Theorem hotspots_sorted_stable :
  forall {image : Type} (E : env image) (image_path prompt_text : string)
         (out : option string) (w : world image) (hs : list hotspot),
    fst (analyze_panorama E image_path prompt_text out w) = Ok hs ->
    StronglySorted (key_le x_norm) hs /\
    (forall (i : nat) (h : hotspot),
        nth_error hs i = Some h ->
        id h = str (Z.of_nat i) /\ id h = decimal (Z.of_nat i) /\
        label h = label_of (Z.of_nat i) /\
        label_text (Z.of_nat i) = Ok (label h)) /\
    (hs = [] \/
     exists response text_response points,
       answered E image_path prompt_text response /\
       response_text response = Ok text_response /\
       parse_points (findall text_response) = Ok points /\
       Permutation (map coords hs) points /\
       forall v : float,
         List.filter (fun p => feq (snd p) v) (map coords hs)
         = List.filter (fun p => feq (snd p) v) points).
Proof.
  intros image E image_path prompt_text out w hs Hrun.
  destruct (analyze_cases E image_path prompt_text out w) as [Hnil|[response Hans]].
  - rewrite Hnil in Hrun. injection Hrun as <-.
    split; [constructor|]. split; [|now left].
    intros [|i] h Hi; discriminate.
  - apply (analyze_answered_ok E _ _ response) in Hrun; [|assumption].
    destruct (response_text response) as [text_response|e] eqn:Htext; [|discriminate].
    cbn [bind] in Hrun.
    apply hotspots_of_text_inv in Hrun as (points & Hparse & Hnan & Hlen & ->).
    split; [|split].
    + apply (sorted_by_coords snd). rewrite hotspots_from_coords.
      now apply sort_by_sorted.
    + intros i h Hi. rewrite hotspots_from_nth in Hi.
      destruct (nth_error (sort_by snd points) i) as [p|] eqn:Hp; [|discriminate].
      injection Hi as <-. cbn [hotspot_at id label].
      assert (i < length (sort_by snd points))%nat
        by (apply nth_error_Some; congruence).
      rewrite sort_by_length in *.
      repeat split.
      * apply str_decimal. lia.
      * apply label_text_in_range. lia.
    + right. exists response, text_response, points.
      rewrite hotspots_from_coords.
      repeat split; try assumption.
      * apply sort_by_perm.
      * intros v. apply sort_by_stable.
Qed.

Lemma hotspots_sorted_stable_witness :
  exists hs,
    fst (analyze_panorama Fake.fake_env "pano.jpg" "find" None Fake.empty_world) = Ok hs /\
    length hs = 2%nat /\
    StronglySorted (key_le x_norm) hs.
Proof.
  eexists. split; [vm_compute; reflexivity|]. split; [reflexivity|].
  refine (proj1 (hotspots_sorted_stable Fake.fake_env "pano.jpg" "find" None
                   Fake.empty_world _ _)).
  vm_compute. reflexivity.
Defined.

(** When the primary call raises, the run sends exactly one more
    request, to the backup model, with the same prompt and image; when
    the backup raises too, the run returns the empty list and touches no
    file. *)
Lemma backup_called_once {image : Type} (E : env image)
    (image_path prompt_text : string) (out : option string) (w : world image)
    (ai_img : image) :
  prepare_image E image_path = Some ai_img ->
  generate_content E primary_model prompt_text ai_img = None ->
  calls (snd (analyze_panorama E image_path prompt_text out w))
  = calls w ++ [(primary_model, prompt_text, ai_img);
                (backup_model, prompt_text, ai_img)] /\
  (generate_content E backup_model prompt_text ai_img = None ->
   fst (analyze_panorama E image_path prompt_text out w) = Ok [] /\
   files (snd (analyze_panorama E image_path prompt_text out w)) = files w).
Proof.
  intros Hprep Hp. unfold analyze_panorama. rewrite Hprep, Hp.
  destruct (generate_content E backup_model prompt_text ai_img) as [r|].
  - rewrite after_response_calls. cbn [log_call calls].
    split; [now rewrite <- app_assoc|discriminate].
  - cbn [snd fst log_call calls files].
    split; [now rewrite <- app_assoc|auto].
Qed.

(** When the backup answers with a text that holds between 1 and 702
    points, the run returns as many hotspots (unless it was given an
    output path that cannot be opened). *)
Lemma backup_answer_nonempty {image : Type} (E : env image)
    (image_path prompt_text : string) (out : option string) (w : world image)
    (ai_img : image) (response : Response) (text_response : string) :
  (forall path, out = Some path -> writable E path = true) ->
  prepare_image E image_path = Some ai_img ->
  generate_content E primary_model prompt_text ai_img = None ->
  generate_content E backup_model prompt_text ai_img = Some response ->
  response_text response = Ok text_response ->
  (1 <= length (findall text_response) <= 702)%nat ->
  exists hs,
    fst (analyze_panorama E image_path prompt_text out w) = Ok hs /\
    length hs = length (findall text_response).
Proof.
  intros Hout Hprep Hp Hb Htext Hlen.
  rewrite (analyze_answered E _ _ response) by (assumption || exists ai_img; auto).
  rewrite Htext. cbn [bind].
  destruct (parse_points_findall text_response) as (points & Hparse & Hpl & _).
  unfold hotspots_of_text.
  destruct (findall text_response) as [|m ms] eqn:Hm; [simpl in Hlen; lia|].
  unfold buildings_of_matches. rewrite Hparse. cbn [bind].
  rewrite label_points_total by (rewrite ?sort_by_length; lia).
  eexists. split; [reflexivity|].
  cbn [app]. now rewrite hotspots_from_length, sort_by_length.
Qed.

(** C6 fails on the code.  The primary model is down and the backup
    answers with 703 well-formed points: the run sends its two requests
    and then raises [IndexError] from the labelling loop instead of
    returning a non-empty list. *)
Theorem backup_answer_overflow :
  prepare_image Fake.crowded_env "pano.jpg" = Some 1%nat /\
  generate_content Fake.crowded_env primary_model "find" 1%nat = None /\
  generate_content Fake.crowded_env backup_model "find" 1%nat = Some Fake.crowded /\
  response_text Fake.crowded = Ok Fake.crowded_text /\
  length (findall Fake.crowded_text) = 703%nat /\
  analyze_panorama Fake.crowded_env "pano.jpg" "find" None Fake.empty_world
  = (Raise IndexError,
     {| files := ∅;
        calls := [(primary_model, "find", 1%nat); (backup_model, "find", 1%nat)] |}).
Proof. repeat split; vm_compute; reflexivity. Qed.

(** C7. When the image cannot be opened, copied or shrunk, the run
    returns the empty list at once: no exception, no request to the
    model, no file written. *)
Theorem undecodable_image_returns_empty :
  forall {image : Type} (E : env image) (image_path prompt_text : string)
         (out : option string) (w : world image),
    prepare_image E image_path = None ->
    analyze_panorama E image_path prompt_text out w = (Ok [], w).
Proof.
  intros image E image_path prompt_text out w Hprep.
  unfold analyze_panorama. now rewrite Hprep.
Qed.

Lemma undecodable_image_returns_empty_witness :
  analyze_panorama Fake.fake_env "missing.jpg" "find" (Some "out.json") Fake.empty_world
  = (Ok [], Fake.empty_world).
Proof.
  apply (undecodable_image_returns_empty Fake.fake_env "missing.jpg" "find").
  reflexivity.
Defined.

(** Saving for one session leaves the records of the others alone. *)
Lemma save_other_session {image : Type} (E : env image) (id id' : string)
    (data : json) (w : world image) :
  id' <> id ->
  App.get_data E id' (snd (App.save_data E id data w)) = App.get_data E id' w.
Proof.
  intros Hne. unfold App.get_data, App.save_data.
  destruct (writable E (App.json_path id)); [|reflexivity].
  cbn [snd write_file files].
  rewrite lookup_insert_ne; [reflexivity|].
  intros Heq. apply json_path_inj in Heq. congruence.
Qed.




(** C9. Reading a session whose record file does not exist returns the
    empty list; the file does not exist when it was absent at the start
    and every save and every detection run since then was for another
    session. *)
Theorem load_never_saved :
  forall {image : Type} (E : env image) (id : string) (reqs : list App.request)
         (w : world image),
    files w !! App.json_path id = None ->
    Forall (fun r => App.session r <> id) reqs ->
    App.get_data E id (App.serve E reqs w) = Ok (JList []).
Proof.
  intros image E id reqs w Habsent Hother.
  unfold App.get_data. now rewrite serve_other, Habsent.
Qed.

Lemma load_never_saved_witness :
  App.get_data Fake.fake_env "s1"
    (App.serve Fake.fake_env
       [App.SaveReq "s2" (JList []); App.DetectReq "s3" "pano.jpg" "find"]
       Fake.empty_world)
  = Ok (JList []).
Proof.
  apply (load_never_saved Fake.fake_env "s1").
  - reflexivity.
  - repeat constructor; discriminate.
Defined.

(** C10 fails on the code.  The writer opens the record file, which
    empties it, before it dumps the new set; a reader that runs in
    between finds the file, reads an empty text and fails to decode it:
    it gets neither the old set nor the new one. *)
Theorem write_not_atomic :
  ~ atomic_replace Fake.fake_env "s1" (JList []) (JList [JList []]).
Proof.
  intros Hatomic.
  destruct (Hatomic ∅
              {| App.disk := <[App.json_path "s1" := EmptyString]>
                               (<[App.json_path "s1" := "[]"]> ∅);
                 App.wr := App.SaveOpened;
                 App.rd := App.GetDone (Raise JSONDecodeError) |}
              (Raise JSONDecodeError)) as [H|H]; try discriminate; [|reflexivity].
  eapply rtc_l; [apply App.step_open|].
  eapply rtc_l; [eapply App.step_exists; apply lookup_insert_eq|].
  eapply rtc_l; [|apply rtc_refl].
  apply (App.step_load Fake.fake_env "s1" _ _ App.SaveOpened EmptyString).
  apply lookup_insert_eq.
Qed.

(** C10, amended.  Saving replaces the record of the session as a
    whole, but not atomically: until the writer opens the file the disk
    holds the complete old set, once it has closed the file the disk
    holds the complete new set, and a reader running at the same time
    gets the old set, the new set, or whatever decoding a truncated
    (possibly empty) prefix of the new text gives. *)
Theorem replace_not_isolated :
  forall {image : Type} (E : env image) (id : string) (old new : json)
         (d : gmap string string) (c : App.config),
    json_load E (json_dump E old) = Ok old ->
    json_load E (json_dump E new) = Ok new ->
    rtc (App.step E id new) (App.initial E id old d) c ->
    (exists txt, App.disk c !! App.json_path id = Some txt /\
                 on_disk E old new (App.wr c) txt) /\
    (forall r, App.rd c = App.GetDone r ->
       r = Ok old \/ r = Ok new \/
       exists n, r = json_load E (substring 0 n (json_dump E new))) /\
    (App.wr c = App.SaveDone ->
     forall l, App.get_data E id {| files := App.disk c; calls := l |} = Ok new).
Proof.
  intros image E id old new d c Hold Hnew Hrun.
  cut ((exists txt, App.disk c !! App.json_path id = Some txt /\
                    on_disk E old new (App.wr c) txt) /\
       (forall r, App.rd c = App.GetDone r ->
          r = Ok old \/ r = Ok new \/
          exists n, r = json_load E (substring 0 n (json_dump E new)))).
  { intros [(txt & Hdisk & Hon) Hrd]. split; [now exists txt|]. split; [exact Hrd|].
    intros Hdone l. rewrite Hdone in Hon. cbn [on_disk] in Hon.
    unfold App.get_data. cbn [files]. now rewrite Hdisk, Hon. }
  revert c Hrun. apply rtc_ind_r.
  - split; [|discriminate].
    eexists. split; [apply lookup_insert_eq|reflexivity].
  - intros c1 c2 Hrun Hstep [(txt & Hdisk & Hon) Hrd].
    inversion Hstep; subst; cbn [App.disk App.wr App.rd] in *.
    + split; [|exact Hrd]. eexists. split; [apply lookup_insert_eq|reflexivity].
    + split; [|exact Hrd]. eexists. split; [apply lookup_insert_eq|]. now exists n.
    + split; [|exact Hrd]. eexists. split; [apply lookup_insert_eq|reflexivity].
    + split; [now exists txt|discriminate].
    + congruence.
    + split; [now exists txt|]. intros r [= <-].
      assert (txt0 = txt) as -> by congruence.
      destruct w; cbn [on_disk] in Hon.
      * left. now rewrite Hon.
      * right. right. exists 0%nat. rewrite Hon.
        now destruct (json_dump E new).
      * right. right. destruct Hon as [n ->]. now exists n.
      * right. left. now rewrite Hon.
Qed.

Lemma replace_not_isolated_witness :
  exists n,
    Raise JSONDecodeError
    = json_load Fake.fake_env
        (substring 0 n (json_dump Fake.fake_env (JList [JList []]))).
Proof.
  destruct (proj1 (proj2 (replace_not_isolated Fake.fake_env "s1" (JList []) (JList [JList []]) ∅
              {| App.disk := <[App.json_path "s1" := EmptyString]>
                               (<[App.json_path "s1" := "[]"]> ∅);
                 App.wr := App.SaveOpened;
                 App.rd := App.GetDone (Raise JSONDecodeError) |}
              eq_refl eq_refl
              (rtc_l _ _ _ _ (App.step_open _ _ _ _ _)
                 (rtc_l _ _ _ _ (App.step_exists _ _ _ _ _ _ (lookup_insert_eq _ _ _))
                    (rtc_l _ _ _ _
                       (App.step_load Fake.fake_env "s1" _ _ App.SaveOpened EmptyString
                          (lookup_insert_eq _ _ _))
                       (rtc_refl _ _))))))
            (Raise JSONDecodeError) eq_refl) as [H|[H|H]];
    [discriminate|discriminate|exact H].
Defined.

End Claims.

(** * Further properties of the code *)

(** ** The run and the outside world *)

Section RunProperties.
Import Float Detect Pipeline Spec More.

Context {image : Type} (E : env image).

Lemma hotspots_of_text_length (text_response : string) (hs : list hotspot) :
  hotspots_of_text text_response = Ok hs ->
  length hs = length (findall text_response).
Proof.
  intros H. apply hotspots_of_text_inv in H as (points & Hp & _ & _ & ->).
  destruct (parse_points_findall text_response) as (points' & Hp' & Hlen & _).
  rewrite Hp in Hp'. injection Hp' as <-.
  now rewrite hotspots_from_length, sort_by_length.
Qed.




(** X1. A run sends no request when the image cannot be prepared, one
    request (to the primary model) when that model answers, and two
    (primary, then backup) when the primary raises; each request
    carries the prompt and the prepared image, and earlier entries of
    the log are kept. *)
Theorem model_requests (image_path prompt_text : string)
    (out : option string) (w : world image) :
  calls (snd (analyze_panorama E image_path prompt_text out w))
  = calls w ++
    match prepare_image E image_path with
    | None => []
    | Some ai_img =>
        match generate_content E primary_model prompt_text ai_img with
        | Some _ => [(primary_model, prompt_text, ai_img)]
        | None => [(primary_model, prompt_text, ai_img);
                   (backup_model, prompt_text, ai_img)]
        end
    end.
Proof.
  unfold analyze_panorama.
  destruct (prepare_image E image_path) as [ai_img|];
    [|cbn [snd]; now rewrite app_nil_r].
  destruct (generate_content E primary_model prompt_text ai_img) as [r|].
  - now rewrite after_response_calls.
  - destruct (generate_content E backup_model prompt_text ai_img) as [r|].
    + rewrite after_response_calls. cbn [log_call calls].
      now rewrite <- app_assoc.
    + cbn [snd log_call calls]. now rewrite <- app_assoc.
Qed.

Lemma after_response_written (response : Response) (out : option string)
    (w : world image) :
  (exists path hs,
      out = Some path /\ path <> EmptyString /\
      fst (after_response E response out w) = Ok hs /\ hs <> [] /\
      files (snd (after_response E response out w))
      = <[path := json_dump E (JList (map hotspot_json hs))]> (files w)) \/
  (files (snd (after_response E response out w)) = files w /\
   (out = None \/ out = Some EmptyString \/
    fst (after_response E response out w) = Ok [] \/
    exists e, fst (after_response E response out w) = Raise e)).
Proof.
  unfold after_response in *.
  destruct (response_text response) as [[|c t]|e].
  - right. split; [reflexivity|]. right. right. now left.
  - destruct (findall (String c t)) as [|m ms] eqn:Hm.
    + right. split; [reflexivity|]. right. right. now left.
    + destruct (buildings_of_matches (m :: ms)) as [hs|e] eqn:Hb.
      * assert (Hne : hs <> []).
        { assert (Hh : hotspots_of_text (String c t) = Ok hs)
            by (unfold hotspots_of_text; now rewrite Hm).
          apply hotspots_of_text_length in Hh. rewrite Hm in Hh.
          intros ->. discriminate. }
        destruct out as [[|c' p']|].
        -- right. split; [reflexivity|]. right. now left.
        -- destruct (writable E (String c' p')).
           ++ left. exists (String c' p'), hs. repeat split; try easy.
           ++ right. split; [reflexivity|]. right. right. right.
              now exists OSError.
        -- right. split; [reflexivity|]. now left.
      * right. split; [reflexivity|]. right. right. right. now exists e.
  - right. split; [reflexivity|]. right. right. right. now exists e.
Qed.


(** X2. A run writes at most one file: when it returns a non-empty list
    and was given a non-empty output path, that path receives the dump
    of exactly the returned hotspots; in every other case (no path,
    empty path, empty result, exception) the disk is left as it was, so
    a run that finds nothing never clears an earlier record. *)
Theorem output_file_written (image_path prompt_text : string)
    (out : option string) (w : world image) :
  (exists path hs,
      out = Some path /\ path <> EmptyString /\
      fst (analyze_panorama E image_path prompt_text out w) = Ok hs /\ hs <> [] /\
      files (snd (analyze_panorama E image_path prompt_text out w))
      = <[path := json_dump E (JList (map hotspot_json hs))]> (files w)) \/
  (files (snd (analyze_panorama E image_path prompt_text out w)) = files w /\
   (out = None \/ out = Some EmptyString \/
    fst (analyze_panorama E image_path prompt_text out w) = Ok [] \/
    exists e, fst (analyze_panorama E image_path prompt_text out w) = Raise e)).
Proof.
  unfold analyze_panorama.
  destruct (prepare_image E image_path) as [ai_img|];
    [|right; split; [reflexivity|]; right; right; now left].
  destruct (generate_content E primary_model prompt_text ai_img) as [r|];
    [exact (after_response_written r out
              (log_call primary_model prompt_text ai_img w))|].
  destruct (generate_content E backup_model prompt_text ai_img) as [r|];
    [exact (after_response_written r out
              (log_call backup_model prompt_text ai_img
                 (log_call primary_model prompt_text ai_img w)))|].
  right. split; [reflexivity|]. right. right. now left.
Qed.

(** X3. The parse loop never skips a match: both captured strings of
    every match are accepted by [float], so the points are as many as
    the matches and the [ValueError] handler is never entered. *)
Theorem parse_keeps_every_match (text_response : string) :
  exists points,
    parse_points (findall text_response) = Ok points /\
    length points = length (findall text_response) /\
    Forall2 (fun m p => float_of_str (fst m) = Ok (fst p) /\
                        float_of_str (snd m) = Ok (snd p))
      (findall text_response) points.
Proof.
  destruct (parse_points_numbers _ (findall_numbers text_response))
    as (points & Hp & H2 & _).
  exists points. split; [assumption|]. split; [|assumption].
  symmetry. eapply Forall2_length. exact H2.
Qed.

(** X5. A returned list has one hotspot per match of the response text
    and never more than 702 hotspots. *)
Theorem hotspot_count (image_path prompt_text : string)
    (out : option string) (w : world image) (hs : list hotspot) :
  fst (analyze_panorama E image_path prompt_text out w) = Ok hs ->
  (length hs <= 702)%nat /\
  forall response text_response,
    answered E image_path prompt_text response ->
    response_text response = Ok text_response ->
    length hs = length (findall text_response).
Proof.
  intros Hrun. split.
  - destruct (analyze_cases E image_path prompt_text out w) as [Hnil|[response Hans]].
    + rewrite Hnil in Hrun. injection Hrun as <-. simpl. lia.
    + apply (analyze_answered_ok E _ _ response) in Hrun; [|assumption].
      destruct (response_text response) as [t|e]; [|discriminate].
      cbn [bind] in Hrun.
      apply hotspots_of_text_inv in Hrun as (points & _ & _ & Hlen & ->).
      now rewrite hotspots_from_length, sort_by_length.
  - intros response text_response Hans Htext.
    apply (analyze_answered_ok E _ _ response) in Hrun; [|assumption].
    rewrite Htext in Hrun. now apply hotspots_of_text_length.
Qed.

End RunProperties.

Lemma hotspot_count_witness :
  exists hs,
    fst (Pipeline.analyze_panorama Fake.fake_env "pano.jpg" "find" None Fake.empty_world)
    = Ok hs /\ (length hs <= 702)%nat.
Proof.
  eexists. split; [vm_compute; reflexivity|].
  refine (proj1 (hotspot_count Fake.fake_env "pano.jpg" "find" None
                   Fake.empty_world _ _)).
  vm_compute. reflexivity.
Defined.

(** ** What a run stores *)

Section StoredValues.
Import Float Detect Pipeline Label Spec More.

Lemma binary_round_aux_nonneg (m e : Z) (l : location) :
  0 <= m -> nonneg (binary_round_aux prec emax false m e l) = true.
Proof.
  intros Hm. unfold binary_round_aux.
  pose proof (shr_fexp_nonneg m e l Hm) as H1.
  destruct (shr_fexp prec emax m e l) as [mrs' e'] eqn:E1. simpl in H1.
  pose proof (shr_fexp_nonneg _ e' loc_Exact
                (round_nearest_even_nonneg _ (loc_of_shr_record mrs') H1)) as H2.
  destruct (shr_fexp prec emax (round_nearest_even (shr_m mrs') (loc_of_shr_record mrs')) e' loc_Exact)
    as [mrs'' e''] eqn:E2. simpl in H2.
  destruct (shr_m mrs'') as [|p|p]; [reflexivity| |lia].
  now destruct (e'' <=? emax - prec).
Qed.

Lemma div_core_nonneg (m1 m2 : positive) (e1 e2 : Z) :
  0 <= fst (fst (SFdiv_core_binary prec emax (Zpos m1) e1 (Zpos m2) e2)).
Proof.
  unfold SFdiv_core_binary.
  set (m' := match _ with Z0 => Zpos m1 | Zpos _ => _ | Zneg _ => 0 end).
  assert (Hm' : 0 <= m').
  { subst m'. destruct (_ - _) as [|p|p]; try lia. apply Z.shiftl_nonneg. lia. }
  pose proof (Z.div_pos m' (Zpos m2) Hm' ltac:(lia)) as Hq.
  unfold Z.div in Hq.
  now destruct (Z.div_eucl m' (Zpos m2)) as [q r].
Qed.

Lemma of_decimal_nonneg (n : Z) (k : nat) : nonneg (of_decimal n k) = true.
Proof.
  destruct n; try reflexivity. unfold of_decimal, of_ratio.
  pose proof (div_core_nonneg p (Z.to_pos (10 ^ Z.of_nat k)) 0 0) as Hq.
  destruct (SFdiv_core_binary prec emax (Zpos p) 0 _ 0) as [[mz ez] lz].
  now apply binary_round_aux_nonneg.
Qed.

Lemma float_of_str_nonneg (s : list ascii) (v : float) :
  float_of_str s = Ok v -> nonneg v = true.
Proof.
  unfold float_of_str. destruct (take_digits s) as [[|d ip] [|c fp]];
    try discriminate.
  - intros [= <-]. apply of_decimal_nonneg.
  - destruct (_ && _); [|discriminate]. intros [= <-]. apply of_decimal_nonneg.
Qed.

Lemma parse_points_nonneg (matches : list (list ascii * list ascii)) :
  forall points,
    parse_points matches = Ok points ->
    Forall (fun p => nonneg (fst p) = true /\ nonneg (snd p) = true) points.
Proof.
  induction matches as [|[y_str x_str] rest IH]; intros points H.
  - injection H as <-. constructor.
  - cbn [parse_points] in H.
    destruct (float_of_str y_str) as [y|ey] eqn:Ey; cbn [bind] in H.
    + destruct (float_of_str x_str) as [x|ex] eqn:Ex; cbn [bind] in H.
      * destruct (parse_points rest) as [ps|e]; [|discriminate].
        injection H as <-. constructor; [|now apply IH].
        split; eapply float_of_str_nonneg; eassumption.
      * destruct ex; try discriminate. now apply IH.
    + destruct ey; try discriminate. now apply IH.
Qed.

Lemma nonneg_not_nan (x : float) : nonneg x = true -> is_nan x = false.
Proof. now destruct x as [[]|[]| |[] ? ?]. Qed.

Lemma binary_normalize_not_nan (m e : Z) (sz : bool) :
  is_nan (binary_normalize prec emax m e sz) = false.
Proof.
  destruct m as [|p|p]; [reflexivity| |]; cbn [binary_normalize];
    unfold binary_round;
    destruct (shl_align p e _) as [mz ez];
    now apply binary_round_aux_not_nan.
Qed.

Lemma fdiv_finite_not_nan (a : float) (s : bool) (m : positive) (e : Z) :
  is_nan a = false -> is_nan (fdiv a (S754_finite s m e)) = false.
Proof.
  destruct a as [sa|sa| |sa ma ea]; try reflexivity; try discriminate.
  intros _. unfold fdiv, SFdiv.
  pose proof (div_core_nonneg ma m ea e) as Hq.
  destruct (SFdiv_core_binary prec emax (Zpos ma) ea (Zpos m) e) as [[mz ez] lz].
  now apply binary_round_aux_not_nan.
Qed.

Lemma fmul_finite_not_nan (a : float) (s : bool) (m : positive) (e : Z) :
  is_nan a = false -> is_nan (fmul a (S754_finite s m e)) = false.
Proof.
  destruct a as [sa|sa| |sa ma ea]; try reflexivity; try discriminate.
  intros _. unfold fmul, SFmul. now apply binary_round_aux_not_nan.
Qed.

Lemma fsub_finite_not_nan (a : float) (s : bool) (m : positive) (e : Z) :
  is_nan a = false -> is_nan (fsub a (S754_finite s m e)) = false.
Proof.
  destruct a as [sa|sa| |sa ma ea]; try reflexivity; try discriminate.
  intros _. unfold fsub, SFsub. apply binary_normalize_not_nan.
Qed.

Lemma finite_fsub_not_nan (a : float) (s : bool) (m : positive) (e : Z) :
  is_nan a = false -> is_nan (fsub (S754_finite s m e) a) = false.
Proof.
  destruct a as [sa|sa| |sa ma ea]; try reflexivity; try discriminate.
  intros _. unfold fsub, SFsub. apply binary_normalize_not_nan.
Qed.

Lemma round_not_nan (x : float) (ndigits : nat) :
  is_nan x = false -> is_nan (round x ndigits) = false.
Proof.
  destruct x as [s|s| |s m e]; try reflexivity; try discriminate.
  intros _. unfold round.
  destruct (match e with Zneg p => _ | _ => _ end); try reflexivity.
  apply of_ratio_not_nan.
Qed.

Lemma mapper_not_nan (v : float) :
  is_nan v = false ->
  is_nan (round (to_yaw v) 2) = false /\ is_nan (round (to_pitch v) 2) = false.
Proof.
  intros Hv. unfold to_yaw, to_pitch.
  assert (H1000 : of_Z 1000 = S754_finite false 8796093022208000 (-43)) by reflexivity.
  assert (H360 : of_Z 360 = S754_finite false 6333186975989760 (-44)) by reflexivity.
  assert (H180 : of_Z 180 = S754_finite false 6333186975989760 (-45)) by reflexivity.
  assert (H90 : of_Z 90 = S754_finite false 6333186975989760 (-46)) by reflexivity.
  rewrite H1000, H360, H180, H90.
  split; apply round_not_nan.
  - now apply fsub_finite_not_nan, fmul_finite_not_nan, fdiv_finite_not_nan.
  - now apply finite_fsub_not_nan, fmul_finite_not_nan, fdiv_finite_not_nan.
Qed.

Lemma hotspots_from_in (points : list (float * float)) :
  forall (i : Z) (h : hotspot),
    In h (hotspots_from i points) ->
    exists (k : nat) (p : float * float),
      (k < length points)%nat /\ In p points /\ h = hotspot_at (i + Z.of_nat k) p.
Proof.
  induction points as [|p rest IH]; intros i h Hin; [destruct Hin|].
  destruct Hin as [<-|Hin].
  - exists 0%nat, p. repeat split; [simpl; lia|now left|now rewrite Z.add_0_r].
  - apply IH in Hin as (k & q & Hk & Hq & ->).
    exists (S k), q. repeat split; [simpl; lia|now right|f_equal; lia].
Qed.

Context {image : Type} (E : env image).

(** X4. Nothing a run stores is NaN or a negative coordinate: in every
    returned hotspot [y_norm] and [x_norm] are zero, positive or plus
    infinity, and [yaw] and [pitch] are numbers or infinities. *)
Theorem stored_values_well_formed (image_path prompt_text : string)
    (out : option string) (w : world image) (hs : list hotspot) :
  fst (analyze_panorama E image_path prompt_text out w) = Ok hs ->
  Forall (fun h => nonneg (y_norm h) = true /\ nonneg (x_norm h) = true /\
                   is_nan (yaw h) = false /\ is_nan (pitch h) = false) hs.
Proof.
  intros Hrun.
  destruct (analyze_cases E image_path prompt_text out w) as [Hnil|[response Hans]].
  - rewrite Hnil in Hrun. injection Hrun as <-. constructor.
  - apply (analyze_answered_ok E _ _ response) in Hrun; [|assumption].
    destruct (response_text response) as [t|e]; [|discriminate].
    cbn [bind] in Hrun.
    apply hotspots_of_text_inv in Hrun as (points & Hparse & _ & _ & ->).
    apply parse_points_nonneg in Hparse.
    rewrite List.Forall_forall in Hparse.
    apply List.Forall_forall. intros h Hin.
    apply hotspots_from_in in Hin as (k & [y x] & _ & Hp & ->).
    apply (Permutation_in _ (sort_by_perm snd points)) in Hp.
    destruct (Hparse _ Hp) as [Hy Hx]. cbn [fst snd] in Hy, Hx.
    cbn [hotspot_at y_norm x_norm yaw pitch fst snd].
    repeat split; try assumption.
    + now apply mapper_not_nan, nonneg_not_nan.
    + now apply mapper_not_nan, nonneg_not_nan.
Qed.

End StoredValues.

Lemma stored_values_well_formed_witness :
  exists hs,
    fst (Pipeline.analyze_panorama Fake.fake_env "pano.jpg" "find" None Fake.empty_world)
    = Ok hs /\
    Forall (fun h => More.nonneg (Detect.y_norm h) = true /\
                     More.nonneg (Detect.x_norm h) = true /\
                     Float.is_nan (Detect.yaw h) = false /\
                     Float.is_nan (Detect.pitch h) = false) hs.
Proof.
  eexists. split; [vm_compute; reflexivity|].
  apply (stored_values_well_formed Fake.fake_env "pano.jpg" "find" None Fake.empty_world).
  vm_compute. reflexivity.
Defined.

(** ** Labels and ids of one list *)

Section Uniqueness.
Import Float Detect Pipeline Label Spec.

Lemma letter_inj (a b : Z) :
  0 <= a < 26 -> 0 <= b < 26 -> letter a = letter b -> a = b.
Proof.
  intros Ha Hb H. unfold letter in H. injection H as H.
  apply (f_equal N_of_ascii) in H.
  rewrite !N_ascii_embedding in H by lia. lia.
Qed.

Lemma label_of_inj (i j : Z) :
  0 <= i < 702 -> 0 <= j < 702 -> label_of i = label_of j -> i = j.
Proof.
  intros Hi Hj. unfold label_of.
  assert (Hrange : forall k, 26 <= k < 702 -> 0 <= k / 26 - 1 < 26 /\ 0 <= k mod 26 < 26).
  { intros k Hk. split; [|apply Z.mod_pos_bound; lia].
    assert (1 <= k / 26) by (apply Z.div_le_lower_bound; lia).
    assert (k / 26 < 27) by (apply Z.div_lt_upper_bound; lia). lia. }
  destruct (Z.ltb_spec i 26) as [Li|Li], (Z.ltb_spec j 26) as [Lj|Lj]; intros H.
  - apply letter_inj; (lia || assumption).
  - discriminate.
  - discriminate.
  - destruct (Hrange i ltac:(lia)) as [Ri1 Ri2], (Hrange j ltac:(lia)) as [Rj1 Rj2].
    unfold letter in H. cbn [append] in H. injection H as Hhi Hlo.
    apply (f_equal N_of_ascii) in Hhi, Hlo.
    rewrite !N_ascii_embedding in Hhi, Hlo by lia.
    pose proof (Z.div_mod i 26 ltac:(lia)). pose proof (Z.div_mod j 26 ltac:(lia)).
    lia.
Qed.

Lemma str_inj (i j : Z) : str i = str j -> i = j.
Proof.
  intros H. unfold str in H.
  assert (Hnn : forall z, Z.to_int z <> Decimal.Pos Decimal.Nil /\
                          Z.to_int z <> Decimal.Neg Decimal.Nil).
  { intros [|p|p]; split; try discriminate; simpl; intros [= Hp];
      now apply DecimalPos.Unsigned.to_uint_nonnil in Hp. }
  apply (f_equal NilZero.int_of_string) in H.
  rewrite !NilZero.isi in H by apply Hnn.
  injection H as H. apply (f_equal Z.of_int) in H.
  now rewrite !DecimalZ.of_to in H.
Qed.

Lemma hotspots_from_nodup {A : Type} (proj : hotspot -> A) (f : Z -> A) :
  (forall k p, proj (hotspot_at k p) = f k) ->
  (forall a b, 0 <= a < 702 -> 0 <= b < 702 -> f a = f b -> a = b) ->
  forall (points : list (float * float)) (i : Z),
    0 <= i -> i + Z.of_nat (length points) <= 702 ->
    List.NoDup (map proj (hotspots_from i points)).
Proof.
  intros Hproj Hinj. induction points as [|p rest IH]; intros i Hi Hlen.
  - constructor.
  - cbn [hotspots_from map]. simpl length in Hlen. apply List.NoDup_cons.
    + intros Hin. apply in_map_iff in Hin as (h & Hh & Hin).
      apply hotspots_from_in in Hin as (k & q & Hk & _ & ->).
      rewrite !Hproj in Hh. apply Hinj in Hh; lia.
    + apply IH; lia.
Qed.

Context {image : Type} (E : env image).

(** X6. In every returned list the labels are pairwise different and
    so are the ids. *)
Theorem labels_and_ids_unique (image_path prompt_text : string)
    (out : option string) (w : world image) (hs : list hotspot) :
  fst (analyze_panorama E image_path prompt_text out w) = Ok hs ->
  List.NoDup (map label hs) /\ List.NoDup (map id hs).
Proof.
  intros Hrun.
  destruct (analyze_cases E image_path prompt_text out w) as [Hnil|[response Hans]].
  - rewrite Hnil in Hrun. injection Hrun as <-. split; constructor.
  - apply (analyze_answered_ok E _ _ response) in Hrun; [|assumption].
    destruct (response_text response) as [t|e]; [|discriminate].
    cbn [bind] in Hrun.
    apply hotspots_of_text_inv in Hrun as (points & _ & _ & Hlen & ->).
    split.
    + apply (hotspots_from_nodup label label_of (fun k p => eq_refl) label_of_inj);
        rewrite ?sort_by_length; lia.
    + apply (hotspots_from_nodup id str (fun k p => eq_refl)
               (fun a b _ _ => str_inj a b));
        rewrite ?sort_by_length; lia.
Qed.

(** X7. When the points of the response are already in ascending [x],
    the run keeps them in the order of the text, points of equal [x]
    included. *)
Theorem sorted_answer_keeps_order (image_path prompt_text : string)
    (out : option string) (w : world image) (response : Response)
    (text_response : string) (points : list (float * float))
    (hs : list hotspot) :
  answered E image_path prompt_text response ->
  response_text response = Ok text_response ->
  parse_points (findall text_response) = Ok points ->
  StronglySorted (key_le snd) points ->
  fst (analyze_panorama E image_path prompt_text out w) = Ok hs ->
  map coords hs = points.
Proof.
  intros Hans Htext Hparse Hsorted Hrun.
  apply (analyze_answered_ok E _ _ response) in Hrun; [|assumption].
  rewrite Htext in Hrun. cbn [bind] in Hrun.
  apply hotspots_of_text_inv in Hrun as (points' & Hparse' & Hnan & _ & ->).
  rewrite Hparse in Hparse'. injection Hparse' as <-.
  rewrite hotspots_from_coords. symmetry.
  now apply stable_sort_unique.
Qed.

End Uniqueness.

Lemma labels_and_ids_unique_witness :
  exists hs,
    fst (Pipeline.analyze_panorama Fake.fake_env "pano.jpg" "find" None Fake.empty_world)
    = Ok hs /\ List.NoDup (map Detect.label hs) /\ List.NoDup (map Detect.id hs).
Proof.
  eexists. split; [vm_compute; reflexivity|].
  apply (labels_and_ids_unique Fake.fake_env "pano.jpg" "find" None Fake.empty_world).
  vm_compute. reflexivity.
Defined.

Lemma sorted_answer_keeps_order_witness :
  exists hs,
    fst (Pipeline.analyze_panorama FakeRoute.tidy_env "pano.jpg" "find" None Fake.empty_world)
    = Ok hs /\
    map Spec.coords hs
    = [(Float.of_Z 10, Float.of_Z 100);
       (Float.of_Z 20, Float.of_decimal 2005 1);
       (Float.of_Z 30, Float.of_decimal 2005 1)].
Proof.
  eexists. split; [vm_compute; reflexivity|].
  apply (sorted_answer_keeps_order FakeRoute.tidy_env "pano.jpg" "find" None
           Fake.empty_world FakeRoute.tidy
           "[10, 100] [20, 200.5] [30, 200.5]").
  - exists 1%nat. split; [reflexivity|]. left. reflexivity.
  - reflexivity.
  - vm_compute. reflexivity.
  - repeat constructor.
  - vm_compute. reflexivity.
Defined.

(** ** The response text and the scan *)

Section TextProperties.
Import Float Detect Pipeline Spec More.

Lemma string_app_assoc (a b c : string) : ((a ++ b) ++ c = a ++ (b ++ c))%string.
Proof.
  induction a as [|x a IH]; [reflexivity|].
  change (String x ((a ++ b) ++ c) = String x (a ++ (b ++ c)))%string.
  now rewrite IH.
Qed.

Lemma string_app_nil_r (a : string) : (a ++ EmptyString)%string = a.
Proof.
  induction a as [|x a IH]; [reflexivity|].
  change (String x (a ++ EmptyString) = String x a)%string.
  now rewrite IH.
Qed.

Lemma concat_parts_join (ps : list Part) :
  forall acc : string, concat_parts ps acc = (acc ++ join (part_texts ps))%string.
Proof.
  induction ps as [|p ps IH]; intros acc; cbn [concat_parts part_texts].
  - unfold join. cbn [fold_right]. now rewrite string_app_nil_r.
  - destruct (text p) as [[|c t]|]; try apply IH.
    rewrite IH. unfold join. cbn [fold_right]. now rewrite string_app_assoc.
Qed.

(** X8. The text that is scanned is the first candidate's text parts
    joined in order without a separator; parts without text or with an
    empty text, and every further candidate, contribute nothing. *)
Theorem response_text_joins_parts (c : Candidate) (rest : list Candidate)
    (ct : Content) (ps : list Part) :
  content c = Some ct -> parts ct = Some ps ->
  response_text {| candidates := Some (c :: rest) |} = Ok (join (part_texts ps)).
Proof.
  intros Hc Hp. unfold response_text. cbn [candidates].
  rewrite Hc, Hp. now rewrite concat_parts_join.
Qed.

Lemma number_length (y : list ascii) : number y -> (1 <= length y)%nat.
Proof.
  intros [ds [Hne _]|ip fp [Hne _] _].
  - destruct ds; [congruence|simpl; lia].
  - destruct ip; [congruence|simpl; lia].
Qed.

Lemma point_shape_length (m y x : list ascii) :
  point_shape m y x -> (5 <= length m)%nat.
Proof.
  intros [w1 y' w2 w3 x' w4 _ Hy _ _ Hx _].
  apply number_length in Hy, Hx.
  cbn [length]. rewrite !length_app. cbn [length]. rewrite !length_app.
  cbn [length]. lia.
Qed.

Lemma findall_from_bound (s : list ascii) :
  forall k : nat, (5 * length (findall_from k s) <= length s - k)%nat.
Proof.
  induction s as [|c t IH]; intros k; [simpl; lia|].
  destruct k as [|k]; cbn [findall_from].
  - destruct (match_point (c :: t)) as [[[y x] rest]|] eqn:Hm.
    + apply match_point_sound in Hm as (m & Hs & Hshape).
      apply point_shape_length in Hshape.
      apply (f_equal (@length ascii)) in Hs. rewrite length_app in Hs.
      cbn [length] in *. specialize (IH (length t - length rest)%nat). lia.
    + specialize (IH 0%nat). cbn [length]. lia.
  - specialize (IH k). cbn [length]. lia.
Qed.

Lemma length_list_ascii (t : string) :
  length (list_ascii_of_string t) = String.length t.
Proof. induction t as [|c t IH]; simpl; [reflexivity|now rewrite IH]. Qed.

(** X16. Matches do not overlap and each takes at least five
    characters, so a text of [n] characters yields at most [n / 5]
    points. *)
Theorem findall_size_bound (text_response : string) :
  (5 * length (findall text_response) <= String.length text_response)%nat.
Proof.
  unfold findall.
  pose proof (findall_from_bound (list_ascii_of_string text_response) 0) as H.
  rewrite length_list_ascii in H. lia.
Qed.

Lemma same_float_eq (a b : float) : same_float a b = true -> a = b.
Proof.
  destruct a as [s|s| |s m e], b as [t|t| |t n g]; simpl; try discriminate;
    try reflexivity.
  - intros H. apply Bool.eqb_prop in H. now subst.
  - intros H. apply Bool.eqb_prop in H. now subst.
  - intros H. apply andb_prop in H as [H He]. apply andb_prop in H as [Hs Hm].
    apply Bool.eqb_prop in Hs. apply Pos.eqb_eq in Hm. apply Z.eqb_eq in He.
    now subst.
Qed.

(** X9. On every integer coordinate from 0 to 1000 the float
    computation and the rounding give the exact decimal angle:
    [yaw = 0.36 n - 180] and [pitch = 90 - 0.18 n], as the floats
    nearest to these two-decimal numbers. *)
Theorem mapper_exact_on_integers (n : Z) :
  0 <= n <= 1000 ->
  round (to_yaw (of_decimal n 0)) 2 = hundredths (36 * n - 18000) /\
  round (to_pitch (of_decimal n 0)) 2 = hundredths (9000 - 18 * n).
Proof.
  intros Hn.
  assert (H : same_float (round (to_yaw (of_decimal n 0)) 2)
                (hundredths (36 * n - 18000))
              && same_float (round (to_pitch (of_decimal n 0)) 2)
                   (hundredths (9000 - 18 * n)) = true).
  { apply (forall_range
             (fun n => same_float (round (to_yaw (of_decimal n 0)) 2)
                         (hundredths (36 * n - 18000))
                       && same_float (round (to_pitch (of_decimal n 0)) 2)
                            (hundredths (9000 - 18 * n)))
             0 1001); [|lia].
    vm_compute. reflexivity. }
  apply andb_prop in H as [Hy Hp]. split; now apply same_float_eq.
Qed.

End TextProperties.

Lemma response_text_joins_parts_witness :
  Pipeline.response_text Fake.answer
  = Ok "Found: [{point: [250, 750.5]}, {point: [ 100.25 , 500 ]}]".
Proof.
  apply (response_text_joins_parts
           {| content := Some {| parts := Some
                [{| text := Some "Found: [{point: [250, 750.5]}, " |};
                 {| text := None |};
                 {| text := Some "{point: [ 100.25 , 500 ]}]" |}] |} |}
           []
           {| parts := Some
                [{| text := Some "Found: [{point: [250, 750.5]}, " |};
                 {| text := None |};
                 {| text := Some "{point: [ 100.25 , 500 ]}]" |}] |}
           [{| text := Some "Found: [{point: [250, 750.5]}, " |};
            {| text := None |};
            {| text := Some "{point: [ 100.25 , 500 ]}]" |}]);
    reflexivity.
Defined.

Lemma mapper_exact_on_integers_witness :
  Float.round (Detect.to_yaw (Float.of_decimal 250 0)) 2 = More.hundredths (-9000) /\
  Float.round (Detect.to_pitch (Float.of_decimal 250 0)) 2 = More.hundredths 4500.
Proof.
  apply (mapper_exact_on_integers 250). lia.
Defined.

(** ** Records on disk *)

Section StoreProperties.
Import App.

Context {image : Type} (E : env image).

(** X10. Of two saves for the same session only the second leaves a
    trace: the disk ends as if the first had never happened. *)
Theorem last_save_wins (id : string) (d1 d2 : json) (w : world image) :
  snd (save_data E id d2 (snd (save_data E id d1 w))) = snd (save_data E id d2 w).
Proof.
  unfold save_data. destruct (writable E (json_path id)); [|reflexivity].
  cbn [snd]. unfold write_file. cbn [files calls].
  now rewrite insert_insert_eq.
Qed.

(** X11. Saves for two different sessions can be made in either order:
    the disk ends the same. *)
Theorem saves_commute (id1 id2 : string) (d1 d2 : json) (w : world image) :
  id1 <> id2 ->
  snd (save_data E id2 d2 (snd (save_data E id1 d1 w)))
  = snd (save_data E id1 d1 (snd (save_data E id2 d2 w))).
Proof.
  intros Hne. unfold save_data.
  destruct (writable E (json_path id1)), (writable E (json_path id2));
    try reflexivity.
  cbn [snd]. unfold write_file. cbn [files calls].
  rewrite insert_insert_ne; [reflexivity|].
  intros Heq. apply json_path_inj in Heq. congruence.
Qed.

(** X13. Serving a save or a detection run for one session does not
    change what any other session reads. *)
Theorem other_sessions_untouched (r : request) (id : string) (w : world image) :
  session r <> id ->
  get_data E id (handle E r w) = get_data E id w.
Proof.
  intros Hne. unfold get_data. now rewrite handle_other.
Qed.

End StoreProperties.

(** X12. Two different sessions never share a record file, and the
    record of a session whose id does not start with the separator
    lies in the processed folder. *)
Theorem record_paths_distinct (id1 id2 : string) :
  id1 <> id2 ->
  App.json_path id1 <> App.json_path id2 /\
  (App.starts_with_sep id1 = false ->
   App.json_path id1 = ("static/processed/" ++ id1 ++ ".json")%string).
Proof.
  intros Hne. split.
  - intros Heq. now apply json_path_inj in Heq.
  - intros Hrel. rewrite json_path_unfold. now rewrite Hrel.
Qed.

Lemma saves_commute_witness :
  snd (App.save_data Fake.fake_env "s2" (JList [JList []])
         (snd (App.save_data Fake.fake_env "s1" (JList []) Fake.empty_world)))
  = snd (App.save_data Fake.fake_env "s1" (JList [])
           (snd (App.save_data Fake.fake_env "s2" (JList [JList []]) Fake.empty_world))).
Proof.
  apply (saves_commute Fake.fake_env "s1" "s2"). discriminate.
Defined.

Lemma other_sessions_untouched_witness :
  App.get_data Fake.fake_env "s1"
    (App.handle Fake.fake_env (App.DetectReq "s2" "pano.jpg" "find") Fake.empty_world)
  = App.get_data Fake.fake_env "s1" Fake.empty_world.
Proof.
  apply (other_sessions_untouched Fake.fake_env (App.DetectReq "s2" "pano.jpg" "find")).
  discriminate.
Defined.

Lemma record_paths_distinct_witness :
  App.json_path "s1" <> App.json_path "s2".
Proof.
  apply (record_paths_distinct "s1" "s2"). discriminate.
Defined.

(** ** The upload route *)

Section RouteProperties.
Import App Route Pipeline Detect.





Context {image : Type} (E : env image).
Context (secure_filename : string -> string) (prompt : string).




End RouteProperties.



(** ** Where an upload is stored *)

Section UploadName.
Import App Route.

Lemma rfind_from_spec (c : ascii) (s : string) :
  forall i last : Z,
    last < i ->
    (rfind_from c s i last = last /\ forall j, String.get j s <> Some c) \/
    (i <= rfind_from c s i last < i + Z.of_nat (String.length s) /\
     String.get (Z.to_nat (rfind_from c s i last - i)) s = Some c /\
     forall j, (Z.to_nat (rfind_from c s i last - i) < j)%nat ->
               String.get j s <> Some c).
Proof.
  induction s as [|a s IH]; intros i last Hlast; cbn [rfind_from].
  - left. split; [reflexivity|]. intros j. destruct j; discriminate.
  - assert (Hl : (if Ascii.eqb a c then i else last) < i + 1)
      by (destruct (Ascii.eqb a c); lia).
    destruct (IH (i + 1) (if Ascii.eqb a c then i else last) Hl)
      as [[Hr Hnone]|(Hr & Hget & Hafter)].
    + rewrite Hr. destruct (Ascii.eqb_spec a c) as [->|Hac].
      * right. cbn [String.length]. split; [lia|].
        rewrite Z.sub_diag. split; [reflexivity|].
        intros [|j] Hj; [simpl in Hj; lia|]. cbn [String.get]. apply Hnone.
      * left. split; [reflexivity|].
        intros [|j]; cbn [String.get]; [congruence|apply Hnone].
    + set (r := rfind_from c s (i + 1) (if Ascii.eqb a c then i else last)) in *.
      right. cbn [String.length]. split; [lia|].
      replace (Z.to_nat (r - i)) with (S (Z.to_nat (r - (i + 1)))) by lia.
      split; [exact Hget|].
      intros [|j] Hj; [lia|]. cbn [String.get]. apply Hafter. lia.
Qed.

(** X17. Whatever file name the client sends and whatever
    [secure_filename] makes of it, the extension kept for the stored
    upload is empty or a dot followed by characters that are neither a
    dot nor the path separator; so for an id that does not start with
    the separator the upload is stored as [static/uploads/<id><ext>]. *)
Theorem upload_extension_safe (secure_filename : string -> string)
    (file : upload) (file_id : string) :
  file_id <> EmptyString -> starts_with_sep file_id = false ->
  exists ext,
    saved_path secure_filename file file_id
    = ("static/uploads/" ++ file_id ++ ext)%string /\
    (ext = EmptyString \/
     exists t, ext = String "." t /\
       forall j, String.get j t <> Some "/"%char /\ String.get j t <> Some "."%char).
Proof.
  intros Hne Hrel.
  exists (snd (splitext (secure_filename (filename file)))).
  split.
  { unfold saved_path, path_join. destruct file_id as [|c r]; [congruence|].
    cbn [starts_with_sep] in Hrel.
    change (starts_with_sep (String c r ++ snd (splitext (secure_filename (filename file)))))
      with (Ascii.eqb c "/").
    now rewrite Hrel. }
  generalize (secure_filename (filename file)). intros p. unfold splitext.
  destruct ((rfind p "/" <? rfind p ".") && has_name (slice p (rfind p "/" + 1) (rfind p ".")))
    eqn:Hcond; [|now left].
  apply andb_prop in Hcond as [Hlt _]. apply Z.ltb_lt in Hlt.
  right. cbn [snd]. unfold rfind in *.
  destruct (rfind_from_spec "." p 0 (-1) ltac:(lia)) as [[Hd _]|(Hd & Hget & Hafter)].
  { destruct (rfind_from_spec "/" p 0 (-1) ltac:(lia)) as [[Hs _]|(Hs & _)]; lia. }
  set (dot := rfind_from "." p 0 (-1)) in *.
  set (sep := rfind_from "/" p 0 (-1)) in *.
  rewrite Z.sub_0_r in Hget, Hafter.
  assert (Hslash : forall j, (Z.to_nat dot < j)%nat -> String.get j p <> Some "/"%char).
  { intros j Hj.
    destruct (rfind_from_spec "/" p 0 (-1) ltac:(lia)) as [[_ Hnone]|(Hs & _ & Hafter')].
    - apply Hnone.
    - apply Hafter'. fold sep. lia. }
  unfold slice.
  set (len := Z.to_nat (Z.of_nat (String.length p) - dot)).
  assert (Hlen : (0 < len)%nat) by (subst len; lia).
  assert (Hext : forall j, (j < len)%nat ->
             String.get j (substring (Z.to_nat dot) len p)
             = String.get (j + Z.to_nat dot) p)
    by (intros j Hj; now apply substring_correct1).
  destruct (substring (Z.to_nat dot) len p) as [|c0 t] eqn:Hsub.
  { specialize (Hext 0%nat Hlen). simpl in Hext. congruence. }
  exists t. split.
  - specialize (Hext 0%nat Hlen). simpl in Hext. congruence.
  - intros j. destruct (Nat.lt_ge_cases (S j) len) as [Hj|Hj].
    + specialize (Hext (S j) Hj). cbn [String.get] in Hext. rewrite Hext.
      split; [apply Hslash|apply Hafter]; lia.
    + pose proof (substring_correct2 p (Z.to_nat dot) len (S j) Hj) as Hnone.
      rewrite Hsub in Hnone. cbn [String.get] in Hnone. rewrite Hnone.
      split; discriminate.
Qed.

End UploadName.

Lemma upload_extension_safe_witness :
  exists ext,
    Route.saved_path (fun name => name) FakeRoute.pano "u1"
    = ("static/uploads/" ++ "u1" ++ ext)%string.
Proof.
  destruct (upload_extension_safe (fun name => name) FakeRoute.pano "u1")
    as (ext & Hpath & _); [discriminate|reflexivity|].
  now exists ext.
Defined.
